(** * rle: a run-length encoding utility (src/rle.c)

    A shallow embedding of [decode], [encode] and [main] of src/rle.c,
    over a small model of the stdio streams they are handed, and the
    properties of the compressed format proved about them. *)

From Stdlib Require Import ZArith Lia.
From stdpp Require Import base tactics option list strings.
From coqutil Require Import Byte.

Local Open Scope Z_scope.

(** ** The stdio streams

    [fin] is a finite sequence of bytes that ends either in end-of-file or
    in a read error: [fgetc] returns [EOF] in both cases and the code tells
    them apart with [ferror].  Neither function calls [fgetc] again once it
    has returned [EOF], so the unread bytes and the kind of end describe the
    input stream completely.

    [fout] accepts or refuses each byte offered to it; [answers] is the
    environment's choice for the k-th byte offered.  A refused byte sets the
    error indicator, which stays set.  The calls made are recorded in
    [trace], oldest first. *)

Definition EOF : Z := -1.

(** The call sites of the output functions, by source line. *)
Inductive site : Set :=
| DecRun      (* decode, line 61: a byte of a run *)
| DecLiteral  (* decode, line 65: a byte copied as is *)
| EncRunLen   (* encode, line 107 *)
| EncRunByte  (* encode, line 108 *)
| EncLitLen   (* encode, line 120 *)
| EncLitData. (* encode, line 121 *)

Inductive event : Type :=
| EvGetc (r : Z) (failed : bool)
| EvPutc (at_ : site) (c : byte) (ok : bool)
| EvFwrite (at_ : site) (bs : list byte) (ok : bool).

Record stdio : Type := Stdio {
  answers : nat -> bool;
  offered : nat;
  out : list byte;
  out_err : bool;
  in_err : bool;
  trace : list event
}.

Definition log (e : event) (io : stdio) : stdio :=
  Stdio (answers io) (offered io) (out io) (out_err io) (in_err io)
        (trace io ++ [e]).

(** One byte offered to [fout]. *)
Definition offer (b : byte) (io : stdio) : bool * stdio :=
  if answers io (offered io)
  then (true, Stdio (answers io) (S (offered io)) (out io ++ [b])
                    (out_err io) (in_err io) (trace io))
  else (false, Stdio (answers io) (S (offered io)) (out io)
                     true (in_err io) (trace io)).

(** [fputc(c, fout)]: [c] is converted to [unsigned char]; the result is the
    byte written, or [EOF]. *)
Definition fputc (s : site) (c : Z) (io : stdio) : Z * stdio :=
  let b := byte.of_Z c in
  let '(ok, io1) := offer b io in
  ((if ok then byte.unsigned b else EOF), log (EvPutc s b ok) io1).

(** [fwrite(p, n, 1, fout)] on the [n] bytes [bs]: bytes are handed over in
    order until one is refused. *)
Fixpoint offer_all (bs : list byte) (io : stdio) : bool * stdio :=
  match bs with
  | [] => (true, io)
  | b :: bs' =>
      let '(ok, io1) := offer b io in
      if ok then offer_all bs' io1 else (false, io1)
  end.

Definition fwrite (s : site) (bs : list byte) (io : stdio) : stdio :=
  let '(ok, io1) := offer_all bs io in
  log (EvFwrite s bs ok) io1.

(** [fgetc(fin)] at the end of the input: [EOF], with the error indicator
    set when the end is a read error. *)
Definition fgetc_end (bad : bool) (io : stdio) : stdio :=
  log (EvGetc EOF bad)
    (Stdio (answers io) (offered io) (out io) (out_err io)
           (in_err io || bad) (trace io)).

(** The streams as [main] hands them over: nothing written, no error. *)
Definition fresh (a : nat -> bool) : stdio := Stdio a 0 [] false false [].

(** A sink that takes every byte. *)
Definition willing : nat -> bool := fun _ => true.

(** A sink that takes [n] bytes and then refuses (a full disk). *)
Definition room (n : nat) : nat -> bool := fun k => (k <? n)%nat.

(** ** Status codes and diagnostics

    [EIO] and [EINVAL] come from <errno.h>, [EXIT_SUCCESS] and
    [EXIT_FAILURE] from <stdlib.h>; the values are those of Linux. *)
Definition EIO : Z := 5.
Definition EINVAL : Z := 22.
Definition ENOENT : Z := 2.
Definition EXIT_SUCCESS : Z := 0.
Definition EXIT_FAILURE : Z := 1.

(** What [PR_ERR] prints on stderr. *)
Inductive diagnostic : Set :=
| InputError       (* "Input error." *)
| OutputError      (* "Output error." *)
| UnexpectedEnd.   (* "Unexpected end of stream." *)

(** What a codec function leaves behind: the returned [int], the diagnostic
    printed (if any), the input bytes never read, and the streams. *)
Record result : Type := Result {
  status : Z;
  printed : option diagnostic;
  unread : list byte;
  streams : stdio
}.

(** ** decode (lines 49-83) *)

(** The [do ... while (--len)] of lines 60-63.  [fuel] bounds the number of
    rounds; [None] means the bound was too small. *)
Fixpoint decode_run (fuel : nat) (ch len : Z) (io : stdio) : option (Z * stdio) :=
  match fuel with
  | O => None
  | S fuel' =>
      let '(r, io1) := fputc DecRun ch io in
      if r =? EOF then Some (len, io1)
      else
        let len1 := len - 1 in
        if len1 =? 0 then Some (len1, io1)
        else decode_run fuel' ch len1 io1
  end.

(** The [while] loop of lines 53-69, from the value of [len] at the loop
    head; the result is [len] and the unread input when the loop is left. *)
Fixpoint decode_loop (bad : bool) (inp : list byte) (len : Z) (io : stdio)
  : option (Z * list byte * stdio) :=
  match inp with
  | [] => Some (len, [], fgetc_end bad io)
  | b :: rest =>
      let ch := byte.unsigned b in
      let io0 := log (EvGetc ch false) io in
      if len =? 0 then
        if ch =? 0 then Some (len, rest, io0)
        else decode_loop bad rest ch io0
      else if len <? 0x80 then
        '(len1, io1) ← decode_run (Z.to_nat len) ch len io0;
        decode_loop bad rest len1 io1
      else
        let '(r, io1) := fputc DecLiteral ch io0 in
        if r =? EOF then Some (len, rest, io1)
        else decode_loop bad rest ((len + 1) mod 0x100) io1
  end.

(** Lines 71-82. *)
Definition decode_status (len : Z) (rest : list byte) (io : stdio) : result :=
  if in_err io then Result (- EIO) (Some InputError) rest io
  else if out_err io then Result (- EIO) (Some OutputError) rest io
  else if negb (len =? 0) then Result (- EIO) (Some UnexpectedEnd) rest io
  else Result 0 None rest io.

Definition decode (bad : bool) (inp : list byte) (io : stdio) : option result :=
  '(len, rest, io1) ← decode_loop bad inp 0 io;
  Some (decode_status len rest io1).

(** ** encode (lines 85-142) *)

(** A unit of the compressed format: a byte repeated [n] times, or [n]
    bytes copied as they are. *)
Inductive segment : Type :=
| Run (n : Z) (b : byte)
| Literal (n : Z) (bs : list byte).

(** The locals of [encode] that live across rounds of the loop ([flush] is
    0 at every loop head, [ch] is read afresh), and [emitted], the segments
    handed to [fout] so far (kept for the proofs only). *)
Record enc : Type := Enc {
  len : Z;
  repeat : bool;
  buf : list byte;
  emitted : list segment
}.

(** [uint8_t buf[0x80 + 1]]: an access outside the array is a fault, shown
    as [None]. *)
Definition BUFSZ : Z := 0x80 + 1.

Definition buf_get (b : list byte) (i : Z) : option byte :=
  if (0 <=? i) && (i <? BUFSZ) then b !! Z.to_nat i else None.

Definition buf_set (b : list byte) (i : Z) (v : byte) : option (list byte) :=
  if (0 <=? i) && (i <? BUFSZ) then Some (<[Z.to_nat i := v]> b) else None.

(** The [n] bytes at [&buf[0]], as [fwrite] reads them. *)
Definition buf_prefix (b : list byte) (n : Z) : option (list byte) :=
  if (0 <=? n) && (n <=? BUFSZ) then Some (take (Z.to_nat n) b) else None.

(** [memmove(&buf[0], &buf[src], n)]. *)
Definition buf_move (b : list byte) (src n : Z) : option (list byte) :=
  if (0 <=? src) && (0 <=? n) && (src + n <=? BUFSZ)
  then Some (take (Z.to_nat n) (drop (Z.to_nat src) b) ++ drop (Z.to_nat n) b)
  else None.

(** The array before anything is stored in it: 129 bytes of no known value. *)
Definition fresh_buf (junk : nat -> byte) : list byte :=
  map junk (seq 0 (Z.to_nat BUFSZ)).

(** A buffer of zeros, for the examples. *)
Definition zeros : nat -> byte := fun _ => Byte.x00.

(** Lines 107-108 and 120-121: the two calls that put a segment on [fout]. *)
Definition put_segment (s : segment) (io : stdio) : stdio :=
  match s with
  | Run n b =>
      let '(_, io1) := fputc EncRunLen n io in
      let '(_, io2) := fputc EncRunByte (byte.unsigned b) io1 in
      io2
  | Literal n bs =>
      let '(_, io1) := fputc EncLitLen (0x100 - n) io in
      fwrite EncLitData bs io1
  end.

Inductive flow : Set := Next | Break.

(** Lines 97-109: the buffer holds a run. *)
Definition encode_repeat (ch : Z) (st : enc) (io : stdio)
  : option (Z * enc * stdio) :=
  a ← buf_get (buf st) (len st - 2);
  b ← buf_get (buf st) (len st - 1);
  let '(flush, rep) :=
    if negb (byte.unsigned a =? byte.unsigned b) then (len st - 1, false)
    else if (len st =? 0x7f) || (ch =? EOF) then (len st, false)
    else (0, true) in
  if negb (flush =? 0) then
    c ← buf_get (buf st) 0;
    Some (flush, Enc (len st) rep (buf st) (emitted st ++ [Run flush c]),
          put_segment (Run flush c) io)
  else Some (flush, Enc (len st) rep (buf st) (emitted st), io).

(** Lines 110-123: the buffer holds bytes to be copied. *)
Definition encode_copy (ch : Z) (st : enc) (io : stdio)
  : option (Z * enc * stdio) :=
  same ← (if 2 <=? len st then
            a ← buf_get (buf st) (len st - 2);
            b ← buf_get (buf st) (len st - 1);
            Some (byte.unsigned a =? byte.unsigned b)
          else Some false);
  let '(flush, rep) :=
    if (same : bool) then (len st - 2, true)
    else if len st =? 0x81 then (0x80, false)
    else if ch =? EOF then (len st, false)
    else (0, false) in
  if negb (flush =? 0) then
    bs ← buf_prefix (buf st) flush;
    Some (flush, Enc (len st) rep (buf st) (emitted st ++ [Literal flush bs]),
          put_segment (Literal flush bs) io)
  else Some (flush, Enc (len st) rep (buf st) (emitted st), io).

(** Lines 92-93: the byte read goes into the buffer. *)
Definition encode_store (ch : Z) (st : enc) : option enc :=
  if negb (ch =? EOF) then
    b1 ← buf_set (buf st) (len st) (byte.of_Z ch);
    Some (Enc (len st + 1) (repeat st) b1 (emitted st))
  else Some st.

(** Lines 124-130: after a flush, stop on an output error, else drop the
    flushed bytes from the buffer. *)
Definition encode_shift (flush : Z) (st : enc) (io : stdio)
  : option (flow * enc * stdio) :=
  if negb (flush =? 0) then
    if out_err io then Some (Break, st, io)
    else
      b3 ← buf_move (buf st) flush (len st - flush);
      Some (Next, Enc (len st - flush) (repeat st) b3 (emitted st), io)
  else Some (Next, st, io).

(** Lines 92-130: one round of the loop, after [ch = fgetc(fin)]. *)
Definition encode_body (ch : Z) (st : enc) (io : stdio)
  : option (flow * enc * stdio) :=
  st1 ← encode_store ch st;
  if (ch =? EOF) && in_err io then Some (Break, st1, io)
  else
    '(flush, st2, io2) ← (if repeat st1 then encode_repeat ch st1 io
                          else encode_copy ch st1 io);
    encode_shift flush st2 io2.

(** The [while (ch != EOF)] loop of lines 90-131. *)
Fixpoint encode_loop (bad : bool) (inp : list byte) (st : enc) (io : stdio)
  : option (enc * list byte * stdio) :=
  match inp with
  | [] =>
      '(_, st1, io1) ← encode_body EOF st (fgetc_end bad io);
      Some (st1, [], io1)
  | b :: rest =>
      let ch := byte.unsigned b in
      '(fl, st1, io1) ← encode_body ch st (log (EvGetc ch false) io);
      match fl with
      | Break => Some (st1, rest, io1)
      | Next => encode_loop bad rest st1 io1
      end
  end.

(** Lines 133-141. *)
Definition encode_status (rest : list byte) (io : stdio) : result :=
  if in_err io then Result (- EIO) (Some InputError) rest io
  else if out_err io then Result (- EIO) (Some OutputError) rest io
  else Result 0 None rest io.

(** Line 87 and the whole function; the segments emitted come with the
    result. *)
Definition encode (junk : nat -> byte) (bad : bool) (inp : list byte)
    (io : stdio) : option (list segment * result) :=
  '(st, rest, io1) ← encode_loop bad inp (Enc 0 false (fresh_buf junk) []) io;
  Some (emitted st, encode_status rest io1).

(** ** main (lines 164-296) *)

(** What [getopt] hands back for an argument: one of the letters of
    "cdfhkV", or '?' for anything else. *)
Inductive letter : Set := Lc | Ld | Lf | Lh | Lk | LV | Lunknown.

Inductive operation : Set := OpEncode | OpDecode.

(** The locals set by the options. *)
Record flags : Type := Flags {
  to_stdout : bool;     (* fout = stdout *)
  op : operation;
  force : bool;
  keep : bool
}.

(** What [main] finds around it: whether the library and system calls it
    makes succeed ([unlink] comes with its [errno] when it fails), and the
    streams the codec is to work on. *)
Record env : Type := Env {
  fopen_in : bool;
  malloc_ok : bool;
  unlink_out : option positive;
  open_out : bool;
  fdopen_out : bool;
  tty_out : bool;
  unlink_in : option positive;
  in_bytes : list byte;
  in_bad : bool;
  out_answers : nat -> bool;
  buf_junk : nat -> byte
}.

(** Lines 176-199: the options, in order; [inl] is an early [return]. *)
Fixpoint getopts (ls : list letter) (f : flags) : Z + flags :=
  match ls with
  | [] => inr f
  | l :: rest =>
      match l with
      | Lc => getopts rest (Flags true (op f) (force f) (keep f))
      | Ld => getopts rest (Flags (to_stdout f) OpDecode (force f) (keep f))
      | Lf => getopts rest (Flags (to_stdout f) (op f) true (keep f))
      | Lh => inl EXIT_SUCCESS
      | Lk => getopts rest (Flags (to_stdout f) (op f) (force f) true)
      | LV => inl EXIT_SUCCESS
      | Lunknown => inl EXIT_FAILURE
      end
  end.

(** [fnlen > 4 && !strcmp(&fnin[fnlen - 4], ".rle")]. *)
Definition has_rle_suffix (fn : string) : bool :=
  (4 <? String.length fn)%nat
  && String.eqb (String.substring (String.length fn - 4) 4 fn) ".rle".

(** Where [main] stands at line 277: it has returned from the option loop,
    or jumped to [exit] with [ret = -EINVAL], or is about to call the
    codec. *)
Inductive setup : Type :=
| Returned (code : Z)
| Refused
| Ready (o : operation) (keeps : bool).

(** Lines 221-269: the output file, when [fout] is not yet set. *)
Definition output_opens (e : env) (f : flags) (fnin : string) : bool :=
  (match op f with
   | OpEncode => negb (negb (force f) && has_rle_suffix fnin) && malloc_ok e
   | OpDecode => has_rle_suffix fnin && malloc_ok e
   end)
  && negb (force f
           && match unlink_out e with
              | None => false
              | Some errno => negb (Z.pos errno =? ENOENT)
              end)
  && open_out e && fdopen_out e.

(** Lines 166-275. *)
Definition main_setup (ls : list letter) (file : option string) (e : env)
  : setup :=
  match getopts ls (Flags false OpEncode false false) with
  | inl code => Returned code
  | inr f =>
      let fnin := match file with
                  | None => "-"
                  | Some s => s
                  end in
      let dash := String.eqb fnin "-" in
      let keeps := keep f || dash in
      if negb dash && negb (fopen_in e) then Refused
      else if negb (to_stdout f || dash) && negb (output_opens e f fnin)
      then Refused
      else if match op f with
              | OpEncode => tty_out e && negb (force f)
              | OpDecode => false
              end
      then Refused
      else Ready (op f) keeps
  end.

(** Line 277: [ret = op(fin, fout)]. *)
Definition run_op (o : operation) (e : env) : option Z :=
  match o with
  | OpEncode =>
      '(_, r) ← encode (buf_junk e) (in_bad e) (in_bytes e)
                  (fresh (out_answers e));
      Some (status r)
  | OpDecode =>
      r ← decode (in_bad e) (in_bytes e) (fresh (out_answers e));
      Some (status r)
  end.

(** Lines 279-286: the input file is removed after a success, unless it is
    to be kept. *)
Definition remove_input (e : env) (keeps : bool) (ret : Z) : Z :=
  if (ret =? 0) && negb keeps then
    match unlink_in e with
    | None => ret
    | Some errno => - Z.pos errno
    end
  else ret.

(** How [main] ends: by a [return] in the option loop, or at line 295 with
    some value of [ret]. *)
Inductive ending : Type :=
| Early (code : Z)
| Final (ret : Z).

Definition main_run (ls : list letter) (file : option string) (e : env)
  : option ending :=
  match main_setup ls file e with
  | Returned code => Some (Early code)
  | Refused => Some (Final (- EINVAL))
  | Ready o keeps =>
      ret ← run_op o e;
      Some (Final (remove_input e keeps ret))
  end.

(** Line 295: [return ret ? EXIT_SUCCESS : EXIT_FAILURE]. *)
Definition exit_code (ret : Z) : Z :=
  if negb (ret =? 0) then EXIT_SUCCESS else EXIT_FAILURE.

(** The exit status of the process. *)
Definition main (ls : list letter) (file : option string) (e : env)
  : option Z :=
  end_ ← main_run ls file e;
  Some (match end_ with
        | Early code => code
        | Final ret => exit_code ret
        end).

(** ** The compressed format, as the specification describes it

    A length byte [L] and its data: [1 <= L <= 127] is followed by one byte,
    to be repeated [L] times; [128 <= L <= 255] is followed by [256 - L]
    bytes, to be copied. *)

(** The bytes of a segment on the wire. *)
Definition wire (s : segment) : list byte :=
  match s with
  | Run n b => [byte.of_Z n; b]
  | Literal n bs => byte.of_Z (0x100 - n) :: bs
  end.

(** The bytes a segment stands for. *)
Definition expand (s : segment) : list byte :=
  match s with
  | Run n b => replicate (Z.to_nat n) b
  | Literal n bs => bs
  end.

(** The counts the format can carry. *)
Definition well_formed (s : segment) : Prop :=
  match s with
  | Run n b => 1 <= n <= 127
  | Literal n bs => 1 <= n <= 128 /\ Z.of_nat (length bs) = n
  end.

(** The calls a decoder following the transition table makes for a segment:
    one read for the length byte, then one read and [n] writes for a run,
    one read and one write per byte for a literal. *)
Definition reading (s : segment) : list event :=
  match s with
  | Run n b =>
      [EvGetc n false; EvGetc (byte.unsigned b) false]
      ++ replicate (Z.to_nat n) (EvPutc DecRun b true)
  | Literal n bs =>
      EvGetc (0x100 - n) false
      :: flat_map (fun b => [EvGetc (byte.unsigned b) false;
                             EvPutc DecLiteral b true]) bs
  end.

(** How a stream ends after its last segment: at end-of-file, or with a
    zero length byte, which may be followed by anything. *)
Definition terminator (e : option (list byte)) : list byte :=
  match e with
  | None => []
  | Some rest => Byte.x00 :: rest
  end.

Definition last_read (e : option (list byte)) : event :=
  match e with
  | None => EvGetc EOF false
  | Some _ => EvGetc 0 false
  end.

Definition left_over (e : option (list byte)) : list byte :=
  match e with
  | None => []
  | Some rest => rest
  end.

(** The counts [encode] is to keep to. *)
Definition in_bounds (s : segment) : Prop :=
  match s with
  | Run n b => 2 <= n <= 127
  | Literal n bs => 1 <= n <= 128 /\ Z.of_nat (length bs) = n
  end.

(** Two consecutive segments that one segment could stand for, as the
    specification has it: two copies, or two runs of the same byte. *)
Definition mergeable (s t : segment) : bool :=
  match s, t with
  | Literal _ _, Literal _ _ => true
  | Run _ b, Run _ b' => byte.unsigned b =? byte.unsigned b'
  | _, _ => false
  end.

Fixpoint has_mergeable (segs : list segment) : bool :=
  match segs with
  | [] => false
  | s :: rest =>
      match rest with
      | [] => false
      | t :: _ => mergeable s t
      end || has_mergeable rest
  end.

(** The same, but for a first segment that is full: 128 bytes copied, or a
    run of 127. *)
Definition may_follow (s t : segment) : bool :=
  match s, t with
  | Literal n _, Literal _ _ => n =? 128
  | Run n b, Run _ b' => negb (byte.unsigned b =? byte.unsigned b') || (n =? 127)
  | _, _ => true
  end.

Fixpoint chained (segs : list segment) : bool :=
  match segs with
  | [] => true
  | s :: rest =>
      match rest with
      | [] => true
      | t :: _ => may_follow s t
      end && chained rest
  end.

(** ** Streams that never refuse *)

Definition obliging (io : stdio) : Prop :=
  out_err io = false /\ forall k, answers io k = true.

(** [io'] is [io] after the bytes [bs] were accepted and the calls [evs]
    made, with no change to the error indicators. *)
Record grows (io io' : stdio) (bs : list byte) (evs : list event) : Prop := {
  grows_answers : answers io' = answers io;
  grows_out : out io' = out io ++ bs;
  grows_out_err : out_err io' = out_err io;
  grows_in_err : in_err io' = in_err io;
  grows_trace : trace io' = trace io ++ evs
}.

(** ** Failed calls in a trace *)

Definition failed (e : event) : bool :=
  match e with
  | EvGetc _ f => f
  | EvPutc _ _ ok => negb ok
  | EvFwrite _ _ ok => negb ok
  end.

Fixpoint first_failure (t : list event) : option event :=
  match t with
  | [] => None
  | e :: t' => if failed e then Some e else first_failure t'
  end.

(** The calls made after the first failed one. *)
Fixpoint after_failure (t : list event) : list event :=
  match t with
  | [] => []
  | e :: t' => if failed e then t' else after_failure t'
  end.

(** No call follows the first failed one. *)
Definition stops_at_once (t : list event) : bool :=
  match after_failure t with
  | [] => true
  | _ :: _ => false
  end.

(** [encode]: after a failed write of a length byte, the write of the
    segment's data may follow; nothing else does. *)
Definition stops_after_segment (t : list event) : bool :=
  match first_failure t, after_failure t with
  | _, [] => true
  | Some (EvPutc EncRunLen _ _), [EvPutc EncRunByte _ _] => true
  | Some (EvPutc EncLitLen _ _), [EvFwrite EncLitData _ _] => true
  | _, _ => false
  end.

(** [decode]: nothing follows a failed read or a failed write of a copied
    byte (line 65); what follows a failed write within a run (line 61) is
    left open. *)
Definition stops_unless_in_run (t : list event) : bool :=
  match first_failure t with
  | Some (EvPutc DecRun _ _) => true
  | _ => stops_at_once t
  end.

Definition has_failure (t : list event) : bool :=
  match first_failure t with
  | Some _ => true
  | None => false
  end.

(** [io'] is [io] after the calls [evs]: an error indicator is set in [io']
    exactly when one was set in [io] or one of the calls failed. *)
Definition steps (io io' : stdio) (evs : list event) : Prop :=
  trace io' = trace io ++ evs
  /\ in_err io' || out_err io' = in_err io || out_err io || has_failure evs.

(** ** A round of [encode], seen on the bytes the buffer holds *)

(** The bytes in use: [buf[0 .. len-1]]. *)
Definition window (st : enc) : list byte := take (Z.to_nat (len st)) (buf st).

(** [buf[len - 2] == buf[len - 1]]. *)
Definition same2 (w : list byte) : bool :=
  let n := Z.of_nat (length w) in
  match w !! Z.to_nat (n - 2), w !! Z.to_nat (n - 1) with
  | Some a, Some b => byte.unsigned a =? byte.unsigned b
  | _, _ => false
  end.

(** The values of [flush] and [repeat] that lines 97-118 choose, from the
    window after the store. *)
Definition verdict (eof rep : bool) (w : list byte) : Z * bool :=
  let n := Z.of_nat (length w) in
  if rep then
    if negb (same2 w) then (n - 1, false)
    else if (n =? 0x7f) || eof then (n, false)
    else (0, true)
  else
    if (2 <=? n) && same2 w then (n - 2, true)
    else if n =? 0x81 then (0x80, false)
    else if eof then (n, false)
    else (0, false).

(** The segment that goes out with a given [flush]. *)
Definition flushed (rep : bool) (flush : Z) (w : list byte) : list segment :=
  if flush =? 0 then []
  else if rep then
    match w !! 0%nat with
    | Some c => [Run flush c]
    | None => []
    end
  else [Literal flush (take (Z.to_nat flush) w)].

Definition put_segments (segs : list segment) (io : stdio) : stdio :=
  fold_left (fun io s => put_segment s io) segs io.

(** What a round does, given the window [w] after the store: the segments
    it emits, the streams it leaves and whether the loop goes on. *)
Definition round_segs (eof rep : bool) (w : list byte) (io : stdio)
  : list segment :=
  if eof && in_err io then []
  else flushed rep (verdict eof rep w).1 w.

Definition round_io (eof rep : bool) (w : list byte) (io : stdio) : stdio :=
  put_segments (round_segs eof rep w io) io.

Definition round_flow (eof rep : bool) (w : list byte) (io : stdio) : flow :=
  if eof && in_err io then Break
  else if negb ((verdict eof rep w).1 =? 0) && out_err (round_io eof rep w io)
       then Break
       else Next.

(** The window a round works on: the buffer, with the byte read if there
    is one. *)
Definition fed (ch : Z) (st : enc) (w : list byte) : Prop :=
  (ch = EOF /\ w = window st)
  \/ (exists c, ch = byte.unsigned c /\ w = window st ++ [c]).

(** The last two bytes of the window are there and equal. *)
Definition twin (w : list byte) : bool :=
  (2 <=? Z.of_nat (length w)) && same2 w.

(** What holds of the window at every loop head: in run mode it is 2 to 126
    copies of one byte; in copy mode it has at most 128 bytes and does not
    end in two equal bytes. *)
Definition tidy (rep : bool) (w : list byte) : Prop :=
  if rep then exists n x, w = replicate n x /\ (2 <= n <= 126)%nat
  else (length w <= 128)%nat /\ twin w = false.

(** The rounds there are: [round_of w eof rep w1 segs w' rep'] is a round
    that starts in mode [rep] on window [w], works on [w1] ([w] with the
    byte read, if any), emits [segs] and leaves window [w'] in mode [rep']. *)
Inductive round_of (w : list byte)
  : bool -> bool -> list byte -> list segment -> list byte -> bool -> Prop :=
| run_break n x c :
    w = replicate n x -> (2 <= n <= 126)%nat -> x <> c ->
    round_of w false true (w ++ [c]) [Run (Z.of_nat n) x] [c] false
| run_full x :
    w = replicate 126 x ->
    round_of w false true (w ++ [x]) [Run 127 x] [] false
| run_more n x :
    w = replicate n x -> (2 <= n <= 125)%nat ->
    round_of w false true (w ++ [x]) [] (replicate (S n) x) true
| run_eof n x :
    w = replicate n x -> (2 <= n <= 126)%nat ->
    round_of w true true w [Run (Z.of_nat n) x] [] false
| copy_pair c :
    w = [c] ->
    round_of w false false (w ++ [c]) [] [c; c] true
| copy_then_pair pre c :
    w = pre ++ [c] -> (1 <= length pre <= 127)%nat ->
    round_of w false false (w ++ [c])
      [Literal (Z.of_nat (length pre)) pre] [c; c] true
| copy_full c :
    length w = 128%nat -> twin (w ++ [c]) = false ->
    round_of w false false (w ++ [c]) [Literal 128 w] [c] false
| copy_more c :
    (length w < 128)%nat -> twin (w ++ [c]) = false ->
    round_of w false false (w ++ [c]) [] (w ++ [c]) false
| copy_eof_empty :
    w = [] ->
    round_of w true false w [] [] false
| copy_eof :
    (1 <= length w <= 128)%nat ->
    round_of w true false w [Literal (Z.of_nat (length w)) w] [] false.

(** What holds of [encode]'s state at every loop head. *)
Definition steady (st : enc) : Prop :=
  length (buf st) = 129%nat /\ 0 <= len st <= 128
  /\ tidy (repeat st) (window st).

(** The calls [encode] makes for a segment when nothing is refused. *)
Definition writing (s : segment) : list event :=
  match s with
  | Run n b => [EvPutc EncRunLen (byte.of_Z n) true; EvPutc EncRunByte b true]
  | Literal n bs =>
      [EvPutc EncLitLen (byte.of_Z (0x100 - n)) true;
       EvFwrite EncLitData bs true]
  end.

(** [s] may follow [prev]: after a copy, another copy only when the first is
    full (128 bytes); after a run, a run of the same byte only when the
    first is full (127 bytes). *)
Definition meets (prev : option segment) (s : segment) : Prop :=
  match prev, s with
  | Some (Literal n _), Literal _ _ => n = 128
  | Some (Run n b), Run _ b' => b = b' -> n = 127
  | _, _ => True
  end.

Fixpoint linked (prev : option segment) (segs : list segment) : Prop :=
  match segs with
  | [] => True
  | s :: rest => meets prev s /\ linked (Some s) rest
  end.

(** The last segment out, after [segs] were added to a stream ending in
    [prev]. *)
Definition last_seg (prev : option segment) (segs : list segment)
  : option segment :=
  match last segs with
  | Some s => Some s
  | None => prev
  end.

(** How the state at a loop head stands to the last segment emitted. *)
Definition poised (prev : option segment) (rep : bool) (w : list byte) : Prop :=
  match prev with
  | None => True
  | Some (Literal n _) => rep = false -> n = 128
  | Some (Run n b) => n = 127 \/ exists d, w !! 0%nat = Some d /\ d <> b
  end.

(** The states [encode] is in at the head of its loop, whatever the input
    and the streams. *)
Inductive reached (junk : nat -> byte) : enc -> stdio -> Prop :=
| reached_start io :
    reached junk (Enc 0 false (fresh_buf junk) []) io
| reached_next st io c st' io' :
    reached junk st io ->
    encode_body (byte.unsigned c) st (log (EvGetc (byte.unsigned c) false) io)
    = Some (Next, st', io') ->
    reached junk st' io'.

(** ** Further definitions: sizes, streams that agree, file names *)

(** What a pending run may still write beyond the share of the input read
    so far (127 bytes of output for 2 of input): used to bound the output
    of [decode] by its input. *)
Definition owed (len : Z) : Z :=
  if (0 <? len) && (len <? 0x80) then Z.max 0 (2 * len - 127) else 0.

(** How [decode]'s loop is left on a prefix of its input: the prefix is
    used up ([None]), or a zero length byte ended the loop and [Some rest]
    of the prefix was never read. *)
Definition resume (bad : bool) (stop : option (list byte)) (b : list byte)
    (len : Z) (io : stdio) : option (Z * list byte * stdio) :=
  match stop with
  | None => decode_loop bad b len io
  | Some rest => Some (0, rest ++ b, io)
  end.

(** Two states of [encode] that differ at most in the bytes of [buf] beyond
    [len]. *)
Definition akin (st1 st2 : enc) : Prop :=
  len st1 = len st2 /\ repeat st1 = repeat st2
  /\ emitted st1 = emitted st2 /\ window st1 = window st2.

(** Streams that have seen the same calls with the same results, whatever
    their outputs would answer next. *)
Definition alike (io iow : stdio) : Prop :=
  out io = out iow /\ out_err io = out_err iow
  /\ in_err io = in_err iow /\ trace io = trace iow.

(** Lines 236 and 249-250: the name of the output file, made from the name
    of the input file by adding ".rle" or by cutting the last four
    characters off. *)
Definition output_name (o : operation) (fnin : string) : string :=
  match o with
  | OpEncode => String.append fnin ".rle"
  | OpDecode => String.substring 0 (String.length fnin - 4) fnin
  end.

#[global] Instance letter_eq_dec : EqDecision letter.
Proof. solve_decision. Defined.

(** The locals as [main] declares them (lines 167-168 and 173). *)
Definition no_flags : flags := Flags false OpEncode false false.

(** Line 279: whether [unlink(fnin)] is called. *)
Definition unlinks (keeps : bool) (ret : Z) : bool := (ret =? 0) && negb keeps.

(** Whether a run of [main] calls [unlink] on its input file. *)
Definition input_unlinked (ls : list letter) (file : option string) (e : env)
  : option bool :=
  match main_setup ls file e with
  | Ready o keeps => ret ← run_op o e; Some (unlinks keeps ret)
  | Returned _ | Refused => Some false
  end.

(** The flags after the option loop, by which letters were given. *)
Definition flags_of (ls : list letter) (f0 : flags) : flags :=
  Flags (to_stdout f0 || bool_decide (Lc ∈ ls))
        (if bool_decide (Ld ∈ ls) then OpDecode else op f0)
        (force f0 || bool_decide (Lf ∈ ls))
        (keep f0 || bool_decide (Lk ∈ ls)).

(** ** A compressed stream that ends within a segment

    [c] is the beginning of the bytes of segment [s], with at least one
    byte there and at least one byte missing. *)
Definition cut_short (s : segment) (c : list byte) : Prop :=
  c <> [] /\ exists missing, missing <> [] /\ wire s = c ++ missing.

(** The input is a sequence of whole segments followed by a segment that
    the end of the input cuts short. *)
Definition truncated (inp : list byte) : Prop :=
  exists segs s c,
    Forall well_formed segs /\ well_formed s /\ cut_short s c
    /\ inp = flat_map wire segs ++ c.

(** The input is a sequence of whole segments up to its end ([None]) or up
    to a zero length byte ([Some rest]). *)
Definition whole (inp : list byte) : Prop :=
  exists segs e,
    Forall well_formed segs /\ inp = flat_map wire segs ++ terminator e.

Lemma grows_refl io : grows io io [] [].
Proof. split; rewrite ?app_nil_r; reflexivity. Qed.

Lemma grows_trans io io1 io2 b1 b2 e1 e2 :
  grows io io1 b1 e1 -> grows io1 io2 b2 e2 ->
  grows io io2 (b1 ++ b2) (e1 ++ e2).
Proof.
  intros [A1 O1 E1 I1 T1] [A2 O2 E2 I2 T2]. split.
  - congruence.
  - rewrite O2, O1, app_assoc. reflexivity.
  - congruence.
  - congruence.
  - rewrite T2, T1, app_assoc. reflexivity.
Qed.

Lemma grows_log io e : grows io (log e io) [] [e].
Proof. split; simpl; rewrite ?app_nil_r; reflexivity. Qed.

Lemma obliging_grows io io' bs evs :
  obliging io -> grows io io' bs evs -> obliging io'.
Proof.
  intros [He Ha] G. split.
  - rewrite (grows_out_err _ _ _ _ G). exact He.
  - intros k. rewrite (grows_answers _ _ _ _ G). apply Ha.
Qed.

Lemma obliging_fresh : obliging (fresh willing).
Proof. split; reflexivity. Qed.

Lemma byte_wrap_small z : 0 <= z < 256 -> byte.unsigned (byte.of_Z z) = z.
Proof.
  intros H. rewrite byte.unsigned_of_Z. unfold byte.wrap.
  change (2 ^ 8) with 256. apply Z.mod_small. exact H.
Qed.

Lemma byte_range b : 0 <= byte.unsigned b < 256.
Proof. exact (byte.unsigned_range b). Qed.

Lemma offer_obliging b io :
  obliging io -> exists io', offer b io = (true, io') /\ grows io io' [b] [].
Proof.
  intros [He Ha]. unfold offer. rewrite Ha. eexists. split; [reflexivity|].
  split; simpl; rewrite ?app_nil_r; reflexivity.
Qed.

Lemma fputc_obliging s c io :
  obliging io ->
  exists io', fputc s c io = (byte.unsigned (byte.of_Z c), io')
              /\ grows io io' [byte.of_Z c] [EvPutc s (byte.of_Z c) true].
Proof.
  intros H. unfold fputc.
  destruct (offer_obliging (byte.of_Z c) io H) as (io1 & -> & G).
  eexists. split; [reflexivity|].
  apply (grows_trans _ _ _ _ [] _ _ G (grows_log _ _)).
Qed.

Lemma offer_all_obliging bs io :
  obliging io -> exists io', offer_all bs io = (true, io') /\ grows io io' bs [].
Proof.
  revert io. induction bs as [|b bs IH]; intros io H; simpl.
  - exists io. split; [reflexivity | apply grows_refl].
  - destruct (offer_obliging b io H) as (io1 & -> & G1).
    destruct (IH io1 (obliging_grows _ _ _ _ H G1)) as (io2 & -> & G2).
    exists io2. split; [reflexivity|].
    apply (grows_trans _ _ _ [b] bs [] [] G1 G2).
Qed.

Lemma fwrite_obliging s bs io :
  obliging io -> grows io (fwrite s bs io) bs [EvFwrite s bs true].
Proof.
  intros H. unfold fwrite.
  destruct (offer_all_obliging bs io H) as (io1 & -> & G).
  rewrite <- (app_nil_r bs) at 2.
  apply (grows_trans _ _ _ _ [] _ _ G (grows_log _ _)).
Qed.

(** ** decode on well-formed streams *)

Lemma fputc_not_EOF b : (byte.unsigned b =? EOF) = false.
Proof. apply Z.eqb_neq. pose proof (byte_range b). unfold EOF. lia. Qed.

Lemma decode_loop_cons bad b rest len io :
  decode_loop bad (b :: rest) len io =
  let ch := byte.unsigned b in
  let io0 := log (EvGetc ch false) io in
  if len =? 0 then
    if ch =? 0 then Some (len, rest, io0)
    else decode_loop bad rest ch io0
  else if len <? 0x80 then
    '(len1, io1) ← decode_run (Z.to_nat len) ch len io0;
    decode_loop bad rest len1 io1
  else
    let '(r, io1) := fputc DecLiteral ch io0 in
    if r =? EOF then Some (len, rest, io1)
    else decode_loop bad rest ((len + 1) mod 0x100) io1.
Proof. reflexivity. Qed.

Lemma decode_run_obliging fuel ch len io :
  obliging io -> 1 <= len -> (Z.to_nat len <= fuel)%nat ->
  exists io', decode_run fuel ch len io = Some (0, io')
    /\ grows io io' (replicate (Z.to_nat len) (byte.of_Z ch))
                    (replicate (Z.to_nat len) (EvPutc DecRun (byte.of_Z ch) true)).
Proof.
  revert len io. induction fuel as [|fuel IH]; intros len io Hio Hlen Hfuel.
  - lia.
  - simpl. destruct (fputc_obliging DecRun ch io Hio) as (io1 & -> & G1).
    rewrite fputc_not_EOF.
    destruct (Z.eqb_spec (len - 1) 0) as [E|E].
    + assert (len = 1) as -> by lia. exists io1. split; [reflexivity|].
      exact G1.
    + destruct (IH (len - 1) io1) as (io2 & -> & G2);
        [eapply obliging_grows; eassumption | lia | lia |].
      exists io2. split; [reflexivity|].
      replace (Z.to_nat len) with (S (Z.to_nat (len - 1))) by lia.
      apply (grows_trans _ _ _ [_] _ [_] _ G1 G2).
Qed.

Lemma decode_loop_copy bad bs : forall b len io,
  obliging io -> 0x80 <= len -> len + Z.of_nat (length (b :: bs)) = 0x100 ->
  exists io',
    grows io io' (b :: bs)
      (flat_map (fun b => [EvGetc (byte.unsigned b) false;
                           EvPutc DecLiteral b true]) (b :: bs))
    /\ forall rest,
         decode_loop bad ((b :: bs) ++ rest) len io = decode_loop bad rest 0 io'.
Proof.
  induction bs as [|b' bs IH]; intros b len io Hio Hlen Hsum;
    cbn [length] in Hsum;
    (destruct (fputc_obliging DecLiteral (byte.unsigned b)
                (log (EvGetc (byte.unsigned b) false) io)) as (io1 & E1 & G1);
     [eapply obliging_grows; [eassumption | apply grows_log] |]);
    rewrite byte.of_Z_unsigned in E1, G1;
    pose proof (grows_trans _ _ _ [] _ [_] _ (grows_log _ _) G1) as G01.
  - exists io1. split; [exact G01|].
    intros rest. assert (len = 255) as -> by lia. simpl.
    rewrite E1, fputc_not_EOF. reflexivity.
  - destruct (IH b' (len + 1) io1) as (io2 & G2 & E2).
    { eapply obliging_grows; eassumption. }
    { lia. }
    { cbn [length] in *. lia. }
    exists io2. split.
    + apply (grows_trans _ _ _ [b] _ [_; _] _ G01 G2).
    + intros rest.
      change (((b :: b' :: bs) ++ rest)) with (b :: ((b' :: bs) ++ rest)).
      cbn [decode_loop].
      destruct (Z.eqb_spec len 0); [lia|].
      destruct (Z.ltb_spec len 0x80); [lia|].
      rewrite E1, fputc_not_EOF.
      rewrite (Z.mod_small (len + 1)) by (cbn [length] in Hsum; lia).
      apply E2.
Qed.

Lemma decode_loop_segment bad s io :
  well_formed s -> obliging io ->
  exists io', grows io io' (expand s) (reading s)
    /\ forall rest,
         decode_loop bad (wire s ++ rest) 0 io = decode_loop bad rest 0 io'.
Proof.
  intros Hs Hio. destruct s as [n b | n bs]; simpl in Hs.
  - pose proof (grows_log io (EvGetc n false)) as G0.
    pose proof (obliging_grows _ _ _ _ Hio G0) as H0.
    pose proof (grows_log (log (EvGetc n false) io)
                  (EvGetc (byte.unsigned b) false)) as G1.
    pose proof (obliging_grows _ _ _ _ H0 G1) as H1.
    destruct (decode_run_obliging (Z.to_nat n) (byte.unsigned b) n _ H1)
      as (io2 & E2 & G2); [lia | lia |].
    exists io2. split.
    + rewrite byte.of_Z_unsigned in G2.
      pose proof (grows_trans _ _ _ _ _ _ _ G0 G1) as G01.
      apply (grows_trans _ _ _ _ _ _ _ G01 G2).
    + intros rest. simpl. rewrite byte_wrap_small by lia.
      destruct (Z.eqb_spec n 0); [lia|].
      destruct (Z.ltb_spec n 0x80); [|lia].
      rewrite E2. reflexivity.
  - destruct Hs as [Hn Hl]. destruct bs as [|b bs]; [simpl in Hl; lia|].
    pose proof (grows_log io (EvGetc (0x100 - n) false)) as G0.
    pose proof (obliging_grows _ _ _ _ Hio G0) as H0.
    destruct (decode_loop_copy bad bs b (0x100 - n) _ H0) as (io1 & G1 & E1);
      [lia | lia |].
    exists io1. split.
    + apply (grows_trans _ _ _ [] _ [_] _ G0 G1).
    + intros rest.
      change (wire (Literal n (b :: bs)) ++ rest)
        with (byte.of_Z (0x100 - n) :: ((b :: bs) ++ rest)).
      rewrite decode_loop_cons. cbv zeta.
      rewrite byte_wrap_small by lia.
      destruct (Z.eqb_spec 0 0) as [_|]; [|lia].
      destruct (Z.eqb_spec (0x100 - n) 0); [lia|].
      apply (E1 rest).
Qed.

Lemma decode_loop_segments bad segs io :
  Forall well_formed segs -> obliging io ->
  exists io', grows io io' (flat_map expand segs) (flat_map reading segs)
    /\ forall rest,
         decode_loop bad (flat_map wire segs ++ rest) 0 io
         = decode_loop bad rest 0 io'.
Proof.
  intros Hs. revert io. induction Hs as [|s segs Hs _ IH]; intros io Hio.
  - exists io. split; [apply grows_refl | reflexivity].
  - destruct (decode_loop_segment bad s io Hs Hio) as (io1 & G1 & E1).
    destruct (IH io1 (obliging_grows _ _ _ _ Hio G1)) as (io2 & G2 & E2).
    exists io2. split.
    + apply (grows_trans _ _ _ _ _ _ _ G1 G2).
    + intros rest. cbn [flat_map]. rewrite <- app_assoc, E1. apply E2.
Qed.

Lemma decode_loop_terminator e io :
  decode_loop false (terminator e) 0 io
  = Some (0, left_over e,
          match e with
          | Some _ => log (last_read e) io
          | None => fgetc_end false io
          end).
Proof. destruct e; reflexivity. Qed.

(** [decode] on a stream of well-formed segments and its ending. *)
Lemma decode_wire (segs : list segment) (e : option (list byte)) :
  Forall well_formed segs ->
  exists io',
    decode_loop false (flat_map wire segs ++ terminator e) 0 (fresh willing)
    = Some (0, left_over e, io')
    /\ in_err io' = false /\ out_err io' = false
    /\ out io' = flat_map expand segs
    /\ trace io' = flat_map reading segs ++ [last_read e].
Proof.
  intros Hs.
  destruct (decode_loop_segments false segs (fresh willing) Hs obliging_fresh)
    as (io1 & [Ga Go Ge Gi Gt] & E1).
  rewrite E1, decode_loop_terminator. simpl in Go, Ge, Gi, Gt.
  eexists. split; [reflexivity|].
  destruct e; simpl; rewrite Gi, Ge, Go, Gt; repeat split.
Qed.

(** C2. On a well-formed compressed stream (segments with a length byte
    [1..127] followed by one data byte, or [128..255] followed by
    [256 - L] data bytes, ended by end-of-file or by a zero length byte),
    [decode] returns 0, prints nothing, makes for each segment exactly the
    reads and writes of [reading] (one data byte read and written [L] times,
    or [256 - L] bytes read and written once each), stops at a zero length
    byte leaving what follows unread, and has written the concatenation of
    the segments' expansions in input order. *)
Theorem decode_segments (segs : list segment) (e : option (list byte)) :
  Forall well_formed segs ->
  exists r,
    decode false (flat_map wire segs ++ terminator e) (fresh willing) = Some r
    /\ status r = 0 /\ printed r = None
    /\ unread r = left_over e
    /\ out (streams r) = flat_map expand segs
    /\ trace (streams r) = flat_map reading segs ++ [last_read e].
Proof.
  intros Hs.
  destruct (decode_wire segs e Hs) as (io' & E & Hi & He & Ho & Ht).
  exists (Result 0 None (left_over e) io').
  split; [|repeat split; assumption].
  unfold decode. rewrite E. cbn [mbind option_bind].
  unfold decode_status. rewrite Hi, He. reflexivity.
Qed.

Lemma decode_segments_witness :
  Forall well_formed [Run 3 Byte.x41; Literal 2 [Byte.x42; Byte.x43]]
  /\ exists r,
       decode false
         (flat_map wire [Run 3 Byte.x41; Literal 2 [Byte.x42; Byte.x43]]
          ++ terminator (Some [Byte.x44]))
         (fresh willing)
       = Some r
       /\ status r = 0 /\ printed r = None
       /\ unread r = [Byte.x44]
       /\ out (streams r) = [Byte.x41; Byte.x41; Byte.x41; Byte.x42; Byte.x43]
       /\ trace (streams r)
          = flat_map reading [Run 3 Byte.x41; Literal 2 [Byte.x42; Byte.x43]]
            ++ [EvGetc 0 false].
Proof.
  assert (Forall well_formed [Run 3 Byte.x41; Literal 2 [Byte.x42; Byte.x43]])
    as H by (repeat constructor; simpl; lia).
  split; [exact H|].
  exact (decode_segments [Run 3 Byte.x41; Literal 2 [Byte.x42; Byte.x43]]
           (Some [Byte.x44]) H).
Defined.

(** ** The boundary cases of the format *)

Example encode_empty junk :
  exists r, encode junk false [] (fresh willing) = Some ([], r)
            /\ status r = 0 /\ out (streams r) = [].
Proof. eexists. split; [vm_compute; reflexivity|]. split; reflexivity. Qed.

Example encode_one_byte junk :
  exists r, encode junk false [Byte.x41] (fresh willing)
            = Some ([Literal 1 [Byte.x41]], r)
            /\ status r = 0 /\ out (streams r) = [Byte.xff; Byte.x41].
Proof. eexists. split; [vm_compute; reflexivity|]. split; reflexivity. Qed.

Example encode_four_equal junk :
  exists r, encode junk false (replicate 4 Byte.x41) (fresh willing)
            = Some ([Run 4 Byte.x41], r)
            /\ status r = 0 /\ out (streams r) = [Byte.x04; Byte.x41].
Proof. eexists. split; [vm_compute; reflexivity|]. split; reflexivity. Qed.

Example encode_long_run junk :
  exists r, encode junk false (replicate 200 Byte.x42) (fresh willing)
            = Some ([Run 127 Byte.x42; Run 73 Byte.x42], r)
            /\ status r = 0
            /\ out (streams r) = [Byte.x7f; Byte.x42; Byte.x49; Byte.x42].
Proof. eexists. split; [vm_compute; reflexivity|]. split; reflexivity. Qed.

Example decode_cut_short :
  exists r, decode false [Byte.xfe; Byte.x41] (fresh willing) = Some r
            /\ status r = - EIO /\ printed r = Some UnexpectedEnd
            /\ out (streams r) = [Byte.x41].
Proof. eexists. split; [vm_compute; reflexivity|]. repeat split. Qed.

(** C6. Encoding the five bytes "AABAA" emits a run of two 'A', a copy of
    one 'B' and a run of two 'A', that is the bytes 02 41 FF 42 02 41, and
    decoding those six bytes gives "AABAA" back, both with status 0. *)
Theorem encode_decode_AABAA (junk : nat -> byte) :
  let A := Byte.x41 in
  let B := Byte.x42 in
  (exists r, encode junk false [A; A; B; A; A] (fresh willing)
             = Some ([Run 2 A; Literal 1 [B]; Run 2 A], r)
             /\ status r = 0 /\ printed r = None
             /\ out (streams r) = [Byte.x02; A; Byte.xff; B; Byte.x02; A])
  /\ (exists r, decode false [Byte.x02; A; Byte.xff; B; Byte.x02; A]
                  (fresh willing) = Some r
                /\ status r = 0 /\ printed r = None
                /\ out (streams r) = [A; A; B; A; A]).
Proof.
  intros A B. split; eexists; (split; [vm_compute; reflexivity|]);
    repeat split; reflexivity.
Qed.

(** ** The rounds of encode on the window *)

Lemma buf_get_window b n i :
  length b = 129%nat -> (n <= 129)%nat -> 0 <= i < Z.of_nat n ->
  buf_get b i = take n b !! Z.to_nat i.
Proof.
  intros Hb Hn Hi. unfold buf_get, BUFSZ.
  destruct (Z.leb_spec 0 i); [|lia].
  destruct (Z.ltb_spec i (0x80 + 1)); [|lia].
  simpl. rewrite lookup_take_lt by lia. reflexivity.
Qed.

Lemma length_window st :
  length (buf st) = 129%nat -> 0 <= len st <= 129 ->
  Z.of_nat (length (window st)) = len st.
Proof. intros Hb Hl. unfold window. rewrite length_take. lia. Qed.

Lemma encode_store_window c st :
  length (buf st) = 129%nat -> 0 <= len st <= 128 ->
  exists b1,
    encode_store (byte.unsigned c) st
    = Some (Enc (len st + 1) (repeat st) b1 (emitted st))
    /\ length b1 = 129%nat
    /\ take (Z.to_nat (len st + 1)) b1 = window st ++ [c].
Proof.
  intros Hb Hl. unfold encode_store, buf_set, BUFSZ.
  rewrite fputc_not_EOF. simpl negb. cbv iota.
  destruct (Z.leb_spec 0 (len st)); [|lia].
  destruct (Z.ltb_spec (len st) (0x80 + 1)); [|lia].
  simpl. eexists. split; [reflexivity|].
  rewrite length_insert, byte.of_Z_unsigned. split; [exact Hb|].
  replace (Z.to_nat (len st + 1)) with (S (Z.to_nat (len st))) by lia.
  rewrite (take_S_r _ _ c).
  - rewrite take_insert_ge by lia. reflexivity.
  - apply list_lookup_insert_eq. lia.
Qed.

Lemma encode_repeat_window ch st io :
  length (buf st) = 129%nat -> 2 <= len st <= 129 ->
  let v := verdict (ch =? EOF) true (window st) in
  encode_repeat ch st io
  = Some (v.1, Enc (len st) v.2 (buf st)
                   (emitted st ++ flushed true v.1 (window st)),
          put_segments (flushed true v.1 (window st)) io).
Proof.
  intros Hb Hl v. subst v. unfold encode_repeat, verdict, same2, flushed.
  rewrite (length_window st Hb) by lia.
  rewrite !(buf_get_window _ (Z.to_nat (len st))) by lia.
  fold (window st).
  destruct (lookup_lt_is_Some_2 (window st) (Z.to_nat (len st - 2))) as [a ->].
  { pose proof (length_window st Hb). lia. }
  destruct (lookup_lt_is_Some_2 (window st) (Z.to_nat (len st - 1))) as [b ->].
  { pose proof (length_window st Hb). lia. }
  destruct (lookup_lt_is_Some_2 (window st) (Z.to_nat 0)) as [c Hc].
  { pose proof (length_window st Hb). lia. }
  change (Z.to_nat 0) with 0%nat in Hc. cbn [mbind option_bind].
  destruct (byte.unsigned a =? byte.unsigned b); cbn [negb].
  - destruct ((len st =? 0x7f) || (ch =? EOF)); cbn [fst snd].
    + destruct (Z.eqb_spec (len st) 0); [lia|]. cbn [negb].
      change (Z.to_nat 0) with 0%nat. rewrite Hc. reflexivity.
    + simpl. rewrite app_nil_r. reflexivity.
  - cbn [fst snd]. destruct (Z.eqb_spec (len st - 1) 0); [lia|]. cbn [negb].
    change (Z.to_nat 0) with 0%nat. rewrite Hc. reflexivity.
Qed.

Lemma buf_prefix_window b n f :
  0 <= f <= n -> n <= 129 ->
  buf_prefix b f = Some (take (Z.to_nat f) (take (Z.to_nat n) b)).
Proof.
  intros Hf Hn. unfold buf_prefix, BUFSZ.
  destruct (Z.leb_spec 0 f); [|lia].
  destruct (Z.leb_spec f (0x80 + 1)); [|lia].
  simpl. rewrite take_take. f_equal. f_equal. lia.
Qed.

Lemma encode_copy_window ch st io :
  length (buf st) = 129%nat -> 0 <= len st <= 129 ->
  let v := verdict (ch =? EOF) false (window st) in
  encode_copy ch st io
  = Some (v.1, Enc (len st) v.2 (buf st)
                   (emitted st ++ flushed false v.1 (window st)),
          put_segments (flushed false v.1 (window st)) io).
Proof.
  intros Hb Hl v. subst v. unfold encode_copy, verdict, same2, flushed.
  pose proof (length_window st Hb Hl) as Hw. rewrite Hw.
  assert (exists same : bool,
    (if 2 <=? len st
     then a ← buf_get (buf st) (len st - 2);
          b ← buf_get (buf st) (len st - 1);
          Some (byte.unsigned a =? byte.unsigned b)
     else Some false) = Some same
    /\ (2 <=? len st) &&
       match window st !! Z.to_nat (len st - 2),
             window st !! Z.to_nat (len st - 1) with
       | Some a, Some b => byte.unsigned a =? byte.unsigned b
       | _, _ => false
       end = same
    /\ (same = true -> 2 <= len st)) as (same & -> & -> & Hs).
  { destruct (Z.leb_spec 2 (len st)) as [H2|H2]; cbn [andb].
    - rewrite !(buf_get_window _ (Z.to_nat (len st))) by lia.
      fold (window st).
      destruct (lookup_lt_is_Some_2 (window st) (Z.to_nat (len st - 2)))
        as [a ->]; [lia|].
      destruct (lookup_lt_is_Some_2 (window st) (Z.to_nat (len st - 1)))
        as [b ->]; [lia|].
      eexists. split; [reflexivity|]. split; [reflexivity|]. intros _. exact H2.
    - exists false. split; [reflexivity|]. split; [reflexivity|]. discriminate. }
  cbn [mbind option_bind].
  set (v := if same then (len st - 2, true)
            else if len st =? 129 then (128, false)
            else if ch =? EOF then (len st, false) else (0, false)).
  assert (0 <= v.1 <= len st) as Hv.
  { subst v. destruct same; [specialize (Hs eq_refl)|
                             destruct (Z.eqb_spec (len st) 129);
                               [|destruct (ch =? EOF)]]; cbn [fst]; lia. }
  destruct v as [flush rep]. cbn [fst snd] in *.
  destruct (Z.eqb_spec flush 0); cbn [negb].
  - rewrite app_nil_r. reflexivity.
  - rewrite (buf_prefix_window _ (len st)) by lia. reflexivity.
Qed.

Lemma buf_move_window b n f :
  length b = 129%nat -> 0 <= f <= n -> n <= 129 ->
  exists b3,
    buf_move b f (n - f) = Some b3
    /\ length b3 = 129%nat
    /\ take (Z.to_nat (n - f)) b3 = drop (Z.to_nat f) (take (Z.to_nat n) b).
Proof.
  intros Hb Hf Hn. unfold buf_move, BUFSZ.
  destruct (Z.leb_spec 0 f); [|lia].
  destruct (Z.leb_spec 0 (n - f)); [|lia].
  destruct (Z.leb_spec (f + (n - f)) (0x80 + 1)); [|lia].
  simpl. eexists. split; [reflexivity|]. split.
  - rewrite length_app, length_take, !length_drop. lia.
  - rewrite take_app_length' by (rewrite length_take, length_drop; lia).
    rewrite take_drop_commute. f_equal. f_equal. lia.
Qed.

Lemma verdict_range eof rep w :
  (rep = true -> 2 <= Z.of_nat (length w)) ->
  0 <= (verdict eof rep w).1 <= Z.of_nat (length w).
Proof.
  intros H. unfold verdict. destruct rep.
  - specialize (H eq_refl).
    destruct (negb (same2 w)); [|destruct (_ || _)]; cbn [fst]; lia.
  - destruct (Z.leb_spec 2 (Z.of_nat (length w))); cbn [andb].
    + destruct (same2 w); [|destruct (Z.eqb_spec (Z.of_nat (length w)) 129);
                             [|destruct eof]]; cbn [fst]; lia.
    + destruct (Z.eqb_spec (Z.of_nat (length w)) 129);
        [|destruct eof]; cbn [fst]; lia.
Qed.

Lemma encode_body_window ch st io w :
  length (buf st) = 129%nat -> 0 <= len st <= 128 ->
  fed ch st w ->
  (repeat st = true -> 2 <= Z.of_nat (length w)) ->
  let eof := ch =? EOF in
  exists st',
    encode_body ch st io
    = Some (round_flow eof (repeat st) w io, st', round_io eof (repeat st) w io)
    /\ emitted st' = emitted st ++ round_segs eof (repeat st) w io
    /\ (round_flow eof (repeat st) w io = Next ->
        length (buf st') = 129%nat
        /\ repeat st' = (verdict eof (repeat st) w).2
        /\ len st' = Z.of_nat (length w) - (verdict eof (repeat st) w).1
        /\ window st' = drop (Z.to_nat (verdict eof (repeat st) w).1) w).
Proof.
  intros Hb Hl Hfed Hrep eof.
  assert (exists st1,
    encode_store ch st = Some st1 /\ length (buf st1) = 129%nat
    /\ 0 <= len st1 <= 129 /\ window st1 = w /\ repeat st1 = repeat st
    /\ emitted st1 = emitted st /\ (eof = true -> st1 = st))
    as (st1 & Es & Hb1 & Hl1 & Hw1 & Hr1 & He1 & Heof).
  { destruct Hfed as [[-> ->] | (c & -> & ->)].
    - exists st. repeat split; try reflexivity; try lia; assumption.
    - destruct (encode_store_window c st Hb Hl) as (b1 & E & Hb1 & Hw).
      eexists. split; [exact E|]. cbn [buf len repeat emitted].
      repeat split; try lia; try assumption.
      subst eof. rewrite fputc_not_EOF. discriminate. }
  pose proof (length_window st1 Hb1 Hl1) as Hlw. rewrite Hw1 in Hlw.
  unfold encode_body. rewrite Es. cbn [mbind option_bind].
  unfold round_flow, round_io, round_segs. fold eof.
  destruct (eof && in_err io) eqn:Estop.
  { exists st1. split; [reflexivity|]. rewrite app_nil_r.
    split; [exact He1 | discriminate]. }
  pose proof (verdict_range eof (repeat st) w Hrep) as Hv.
  assert ((if repeat st1 then encode_repeat ch st1 io else encode_copy ch st1 io)
          = Some ((verdict eof (repeat st) w).1,
                  Enc (len st1) (verdict eof (repeat st) w).2 (buf st1)
                    (emitted st ++ flushed (repeat st) (verdict eof (repeat st) w).1 w),
                  put_segments (flushed (repeat st) (verdict eof (repeat st) w).1 w) io))
    as ->.
  { rewrite Hr1. destruct (repeat st) eqn:Er.
    - rewrite encode_repeat_window by (try assumption; specialize (Hrep eq_refl); lia).
      rewrite Hw1, He1. reflexivity.
    - rewrite encode_copy_window by assumption.
      rewrite Hw1, He1. reflexivity. }
  cbn [mbind option_bind]. unfold encode_shift. cbn [buf len repeat emitted].
  destruct (negb ((verdict eof (repeat st) w).1 =? 0)) eqn:Ef; cbn [andb].
  - destruct (out_err _) eqn:Eo.
    + eexists. split; [reflexivity|]. split; [reflexivity | discriminate].
    + destruct (buf_move_window (buf st1) (len st1) (verdict eof (repeat st) w).1)
        as (b3 & -> & Hb3 & Ht3); [assumption | lia | lia |].
      cbn [mbind option_bind]. eexists. split; [reflexivity|].
      split; [reflexivity|]. intros _. cbn [buf len repeat].
      unfold window. cbn [buf len]. rewrite Ht3.
      fold (window st1). rewrite Hw1. repeat split; try assumption. lia.
  - eexists. split; [reflexivity|]. split; [reflexivity|]. intros _.
    cbn [buf len repeat].
    assert ((verdict eof (repeat st) w).1 = 0) as E0.
    { destruct (Z.eqb_spec (verdict eof (repeat st) w).1 0); [assumption|discriminate]. }
    rewrite E0. unfold window at 1. cbn [buf len]. fold (window st1).
    rewrite Hw1. repeat split; try assumption. lia.
Qed.

(** ** The rounds, case by case *)

Lemma byte_eqb_eq a b : (byte.unsigned a =? byte.unsigned b) = true <-> a = b.
Proof.
  rewrite Z.eqb_eq. split; [apply byte.unsigned_inj | congruence].
Qed.

Lemma same2_snoc2 (pre : list byte) a c :
  same2 ((pre ++ [a]) ++ [c]) = (byte.unsigned a =? byte.unsigned c).
Proof.
  unfold same2. rewrite !length_app. cbn [length].
  replace (Z.to_nat (Z.of_nat (length pre + 1 + 1) - 2)) with (length pre) by lia.
  replace (Z.to_nat (Z.of_nat (length pre + 1 + 1) - 1))
    with (length (pre ++ [a])) by (rewrite length_app; simpl; lia).
  rewrite (lookup_app_l _ [c]) by (rewrite length_app; simpl; lia).
  rewrite list_lookup_middle by reflexivity.
  rewrite list_lookup_middle by reflexivity.
  reflexivity.
Qed.

Lemma twin_snoc2 (pre : list byte) a c :
  twin ((pre ++ [a]) ++ [c]) = (byte.unsigned a =? byte.unsigned c).
Proof.
  unfold twin. rewrite same2_snoc2, !length_app. cbn [length].
  destruct (Z.leb_spec 2 (Z.of_nat (length pre + 1 + 1))); [reflexivity | lia].
Qed.

Lemma twin_snoc_true w c : twin (w ++ [c]) = true -> exists pre, w = pre ++ [c].
Proof.
  destruct w as [|a w _] using rev_ind.
  - discriminate.
  - rewrite twin_snoc2. intros H%byte_eqb_eq. subst a. exists w. reflexivity.
Qed.

Lemma replicate_snoc {A} n (x : A) : replicate n x ++ [x] = replicate (S n) x.
Proof. symmetry. apply replicate_S_end. Qed.

Lemma same2_replicate_snoc n x c :
  (1 <= n)%nat ->
  same2 (replicate n x ++ [c]) = (byte.unsigned x =? byte.unsigned c).
Proof.
  intros Hn. destruct n as [|n]; [lia|].
  rewrite replicate_S_end. apply same2_snoc2.
Qed.

Lemma same2_replicate n x : (2 <= n)%nat -> same2 (replicate n x) = true.
Proof.
  intros Hn. destruct n as [|n]; [lia|].
  rewrite replicate_S_end, same2_replicate_snoc by lia. apply Z.eqb_refl.
Qed.

Lemma lookup_0_replicate_app {A} n (x : A) l :
  (1 <= n)%nat -> (replicate n x ++ l) !! 0%nat = Some x.
Proof. intros Hn. destruct n; [lia | reflexivity]. Qed.

(** Every round from a tidy window is one of the rounds of [round_of], and
    [verdict] and [flushed] compute it. *)
Lemma round_cases eof rep w w1 :
  tidy rep w ->
  (eof = true /\ w1 = w) \/ (eof = false /\ exists c, w1 = w ++ [c]) ->
  exists segs w' rep',
    round_of w eof rep w1 segs w' rep'
    /\ (verdict eof rep w1).2 = rep'
    /\ flushed rep (verdict eof rep w1).1 w1 = segs
    /\ drop (Z.to_nat (verdict eof rep w1).1) w1 = w'.
Proof.
  intros Ht Hfed. destruct rep; cbn [tidy] in Ht.
  - destruct Ht as (n & x & -> & Hn).
    destruct Hfed as [[-> ->] | [-> (c & ->)]].
    + exists [Run (Z.of_nat n) x], [], false.
      split; [apply (run_eof _ n x); [reflexivity | lia]|].
      unfold verdict, flushed. rewrite same2_replicate by lia.
      rewrite orb_true_r, length_replicate. cbn [negb fst snd].
      destruct (Z.eqb_spec (Z.of_nat n) 0); [lia|].
      rewrite <- (app_nil_r (replicate n x)) at 1 2.
      rewrite lookup_0_replicate_app by lia.
      rewrite app_nil_r.
      repeat split. apply drop_ge. rewrite length_replicate. lia.
    + unfold verdict, flushed.
      rewrite same2_replicate_snoc, length_app, length_replicate by lia.
      cbn [length]. rewrite lookup_0_replicate_app by lia.
      destruct (Z.eqb_spec (byte.unsigned x) (byte.unsigned c)) as [E|E];
        cbn [negb].
      * apply byte.unsigned_inj in E. subst c.
        destruct (Z.eqb_spec (Z.of_nat (n + 1)) 127) as [E7|E7];
          cbn [orb fst snd].
        -- assert (n = 126%nat) as -> by lia.
           exists [Run 127 x], [], false.
           split; [apply run_full; reflexivity|].
           repeat split.
        -- exists [], (replicate (S n) x), true.
           split; [apply run_more; [reflexivity | lia]|].
           repeat split. simpl. apply replicate_snoc.
      * exists [Run (Z.of_nat n) x], [c], false.
        split; [apply run_break; [reflexivity | lia | congruence]|].
        cbn [fst snd].
        replace (Z.of_nat (n + 1) - 1) with (Z.of_nat n) by lia.
        destruct (Z.eqb_spec (Z.of_nat n) 0); [lia|].
        repeat split. rewrite Nat2Z.id.
        rewrite drop_app_length' by (rewrite length_replicate; reflexivity).
        reflexivity.
  - destruct Ht as [Hlen Htw].
    destruct Hfed as [[-> ->] | [-> (c & ->)]].
    + unfold verdict, flushed. fold (twin w). rewrite Htw.
      destruct (Z.eqb_spec (Z.of_nat (length w)) 129); [lia|].
      cbn [fst snd]. rewrite Nat2Z.id.
      destruct (Z.eqb_spec (Z.of_nat (length w)) 0) as [E0|E0].
      * destruct w; [|simpl in E0; lia].
        exists [], [], false. split; [apply copy_eof_empty; reflexivity|].
        repeat split.
      * exists [Literal (Z.of_nat (length w)) w], [], false.
        split; [apply copy_eof; lia|].
        rewrite take_ge, drop_ge by lia. repeat split.
    + unfold verdict, flushed. fold (twin (w ++ [c])).
      destruct (twin (w ++ [c])) eqn:Etw.
      * destruct (twin_snoc_true _ _ Etw) as (pre & ->).
        rewrite !length_app in *. cbn [length] in *. cbn [fst snd].
        replace (Z.of_nat (length pre + 1 + 1) - 2)
          with (Z.of_nat (length pre)) by lia.
        rewrite Nat2Z.id.
        rewrite <- (app_assoc pre [c] [c]).
        rewrite take_app_length, drop_app_length.
        destruct (Z.eqb_spec (Z.of_nat (length pre)) 0) as [E0|E0].
        -- destruct pre; [|simpl in E0; lia].
           exists [], [c; c], true. split; [apply (copy_pair [c] c); reflexivity|].
           repeat split.
        -- exists [Literal (Z.of_nat (length pre)) pre], [c; c], true.
           split.
           { rewrite (app_assoc pre [c] [c]).
             apply copy_then_pair; [reflexivity | lia]. }
           repeat split.
      * rewrite length_app. cbn [length].
        destruct (Z.eqb_spec (Z.of_nat (length w + 1)) 129) as [E9|E9];
          cbn [fst snd].
        -- exists [Literal 128 w], [c], false.
           split; [apply copy_full; [lia | exact Etw]|].
           change (Z.to_nat 128) with 128%nat.
           rewrite take_app_length', drop_app_length' by lia.
           repeat split.
        -- exists [], (w ++ [c]), false.
           split; [apply copy_more; [lia | exact Etw]|].
           repeat split.
Qed.

Lemma round_keeps w eof rep w1 segs w' rep' :
  round_of w eof rep w1 segs w' rep' -> flat_map expand segs ++ w' = w1.
Proof.
  intros H. destruct H; subst; cbn [flat_map expand app];
    rewrite ?app_nil_r, ?Nat2Z.id; try reflexivity.
  all: try (symmetry; apply replicate_snoc).
  all: rewrite <- ?app_assoc; reflexivity.
Qed.

Lemma round_bounds w eof rep w1 segs w' rep' :
  round_of w eof rep w1 segs w' rep' -> Forall in_bounds segs.
Proof.
  intros H. destruct H; subst; repeat constructor; simpl; lia.
Qed.

Lemma round_tidy w rep w1 segs w' rep' :
  round_of w false rep w1 segs w' rep' -> tidy rep' w'.
Proof.
  intros H. inversion H; subst; cbn [tidy].
  - split; [simpl; lia | reflexivity].
  - split; [simpl; lia | reflexivity].
  - exists (S n), x. split; [reflexivity | lia].
  - exists 2%nat, c. split; [reflexivity | lia].
  - exists 2%nat, c. split; [reflexivity | lia].
  - split; [simpl; lia | reflexivity].
  - split; [rewrite length_app; simpl; lia | assumption].
Qed.

Lemma round_eof w rep w1 segs w' rep' :
  round_of w true rep w1 segs w' rep' -> w1 = w /\ w' = [].
Proof. intros H. inversion H; subst; split; reflexivity. Qed.

Lemma linked_app prev a b :
  linked prev (a ++ b) <-> linked prev a /\ linked (last_seg prev a) b.
Proof.
  revert prev. induction a as [|s a IH]; intros prev.
  - cbn. tauto.
  - cbn [app linked]. rewrite IH.
    assert (last_seg (Some s) a = last_seg prev (s :: a)) as ->.
    { unfold last_seg. destruct a as [|t a]; [reflexivity|].
      change (last (s :: t :: a)) with (last (t :: a)).
      destruct (last (t :: a)) eqn:E; [reflexivity|].
      apply last_None in E. discriminate. }
    tauto.
Qed.

Lemma round_linked prev w rep w1 segs w' rep' eof :
  poised prev rep w ->
  round_of w eof rep w1 segs w' rep' ->
  linked prev segs /\ (eof = false -> poised (last_seg prev segs) rep' w').
Proof.
  intros Hp H.
  assert (forall n x, (2 <= n)%nat -> w = replicate n x ->
            forall k, meets prev (Run k x)) as Hrun.
  { intros n x Hn -> k. destruct prev as [[m b|m bs]|]; cbn in *; try exact I.
    intros <-. destruct Hp as [?|(d & Hd & Hne)]; [assumption|].
    destruct n; [lia|]. cbn in Hd. congruence. }
  assert (rep = false -> forall k bs, meets prev (Literal k bs)) as Hlit.
  { intros -> k bs. destruct prev as [[m b|m bs']|]; cbn in *; auto. }
  destruct H; subst; cbn [linked last_seg last].
  - split; [split; [eapply Hrun; [|reflexivity]; lia | exact I]|].
    intros _. right. exists c. split; [reflexivity | congruence].
  - split; [split; [eapply (Hrun 126%nat); [lia | reflexivity] | exact I]|].
    intros _. left. reflexivity.
  - split; [exact I|]. intros _.
    destruct prev as [[m b|m bs]|]; cbn in *; try exact I; [|discriminate].
    destruct Hp as [?|(d & Hd & Hne)]; [left; assumption|].
    right. exists d. split; [|assumption].
    destruct n; [lia|]. exact Hd.
  - split; [split; [eapply Hrun; [|reflexivity]; lia | exact I]|].
    discriminate.
  - split; [exact I|]. intros _.
    destruct prev as [[m b|m bs]|]; cbn in *; try exact I; [|discriminate].
    exact Hp.
  - split; [split; [apply Hlit; reflexivity | exact I]|].
    intros _. cbn. discriminate.
  - split; [split; [apply Hlit; reflexivity | exact I]|].
    intros _. cbn. reflexivity.
  - split; [exact I|]. intros _.
    destruct prev as [[m b|m bs]|]; cbn in *; try exact I; [|assumption].
    destruct Hp as [?|(d & Hd & Hne)]; [left; assumption|].
    right. exists d. split; [|assumption].
    rewrite lookup_app_l; [exact Hd|]. apply lookup_lt_Some in Hd. exact Hd.
  - split; [exact I | discriminate].
  - split; [split; [apply Hlit; reflexivity | exact I] | discriminate].
Qed.

Lemma tidy_length rep w : tidy rep w -> (length w <= 128)%nat.
Proof.
  destruct rep; cbn.
  - intros (n & x & -> & Hn). rewrite length_replicate. lia.
  - tauto.
Qed.

Lemma tidy_run_length w : tidy true w -> (2 <= length w)%nat.
Proof. intros (n & x & -> & Hn). rewrite length_replicate. lia. Qed.

Lemma steady_start junk : steady (Enc 0 false (fresh_buf junk) []).
Proof.
  split; [|split].
  - unfold fresh_buf. cbn [buf]. rewrite length_map, length_seq. reflexivity.
  - simpl. lia.
  - cbn [repeat tidy]. unfold window. cbn [len]. change (Z.to_nat 0) with 0%nat.
    rewrite take_0. split; [simpl; lia | reflexivity].
Qed.

(** A round from a steady state: it does not fault, it is one of the rounds
    of [round_of], and it leaves a steady state when the loop goes on. *)
Lemma encode_body_round ch st io w1 :
  steady st -> fed ch st w1 ->
  let eof := ch =? EOF in
  exists segs w' rep' st',
    round_of (window st) eof (repeat st) w1 segs w' rep'
    /\ encode_body ch st io
       = Some (round_flow eof (repeat st) w1 io, st',
               round_io eof (repeat st) w1 io)
    /\ round_segs eof (repeat st) w1 io
       = (if eof && in_err io then [] else segs)
    /\ emitted st' = emitted st ++ round_segs eof (repeat st) w1 io
    /\ (round_flow eof (repeat st) w1 io = Next -> eof = false ->
        steady st' /\ window st' = w' /\ repeat st' = rep').
Proof.
  intros (Hb & Hl & Ht) Hfed eof.
  assert ((eof = true /\ w1 = window st)
          \/ (eof = false /\ exists c, w1 = window st ++ [c])) as Hfed'.
  { destruct Hfed as [[-> ->] | (c & -> & ->)].
    - left. split; reflexivity.
    - right. split; [apply fputc_not_EOF | exists c; reflexivity]. }
  destruct (round_cases eof (repeat st) (window st) w1 Ht Hfed')
    as (segs & w' & rep' & Hr & Hv2 & Hfl & Hdr).
  assert (repeat st = true -> 2 <= Z.of_nat (length w1)) as Hrep.
  { intros E. rewrite E in Ht. apply tidy_run_length in Ht.
    destruct Hfed' as [[_ ->] | [_ (c & ->)]];
      rewrite ?length_app; cbn [length]; lia. }
  destruct (encode_body_window ch st io w1 Hb Hl Hfed Hrep)
    as (st' & Eb & Hem & Hnext).
  fold eof in Eb, Hem, Hnext.
  exists segs, w', rep', st'. split; [exact Hr|]. split; [exact Eb|].
  split; [unfold round_segs; rewrite Hfl; reflexivity|].
  split; [exact Hem|].
  intros Hflow Heof. destruct (Hnext Hflow) as (Hb' & Hr' & Hl' & Hw').
  rewrite Hdr in Hw'. rewrite Hv2 in Hr'.
  assert (tidy rep' w') as Ht'.
  { rewrite Heof in Hr. eapply round_tidy. exact Hr. }
  split; [|split; assumption].
  split; [exact Hb'|]. split.
  - pose proof (tidy_length _ _ Ht') as Hlen.
    pose proof (verdict_range eof (repeat st) w1 Hrep) as Hvr.
    rewrite <- Hdr, length_drop in Hlen. lia.
  - rewrite Hr', Hw'. exact Ht'.
Qed.

Lemma put_segment_obliging s io :
  obliging io -> grows io (put_segment s io) (wire s) (writing s).
Proof.
  intros Hio. destruct s as [n b | n bs]; cbn [put_segment wire writing].
  - destruct (fputc_obliging EncRunLen n io Hio) as (io1 & -> & G1).
    destruct (fputc_obliging EncRunByte (byte.unsigned b) io1) as (io2 & -> & G2).
    { eapply obliging_grows; eassumption. }
    rewrite byte.of_Z_unsigned in G2.
    apply (grows_trans _ _ _ [_] [_] [_] [_] G1 G2).
  - destruct (fputc_obliging EncLitLen (0x100 - n) io Hio) as (io1 & -> & G1).
    apply (grows_trans _ _ _ [_] _ [_] [_] G1).
    apply fwrite_obliging. eapply obliging_grows; eassumption.
Qed.

Lemma put_segments_obliging segs io :
  obliging io ->
  grows io (put_segments segs io) (flat_map wire segs) (flat_map writing segs).
Proof.
  revert io. induction segs as [|s segs IH]; intros io Hio.
  - apply grows_refl.
  - cbn [put_segments fold_left flat_map].
    pose proof (put_segment_obliging s io Hio) as G1.
    apply (grows_trans _ _ _ _ _ _ _ G1).
    apply IH. eapply obliging_grows; eassumption.
Qed.

Lemma encode_loop_nil bad st io :
  encode_loop bad [] st io =
  '(_, st1, io1) ← encode_body EOF st (fgetc_end bad io); Some (st1, [], io1).
Proof. reflexivity. Qed.

Lemma encode_loop_cons bad b rest st io :
  encode_loop bad (b :: rest) st io =
  '(fl, st1, io1) ← encode_body (byte.unsigned b) st
                      (log (EvGetc (byte.unsigned b) false) io);
  match fl with
  | Break => Some (st1, rest, io1)
  | Next => encode_loop bad rest st1 io1
  end.
Proof. reflexivity. Qed.

(** The whole loop, when the input ends in end-of-file and nothing is
    refused: the segments emitted expand to the buffered bytes followed by
    the input, keep to the bounds, and are what went out. *)
Lemma encode_loop_obliging inp : forall st io prev,
  steady st -> poised prev (repeat st) (window st) ->
  obliging io -> in_err io = false ->
  exists st' io' segs evs,
    encode_loop false inp st io = Some (st', [], io')
    /\ emitted st' = emitted st ++ segs
    /\ flat_map expand segs = window st ++ inp
    /\ Forall in_bounds segs
    /\ linked prev segs
    /\ grows io io' (flat_map wire segs) evs.
Proof.
  induction inp as [|c inp IH]; intros st io prev Hst Hpo Hio Hin.
  - rewrite encode_loop_nil.
    destruct (encode_body_round EOF st (fgetc_end false io) (window st) Hst)
      as (segs & w' & rep' & st' & Hr & -> & Hsegs & Hem & _).
    { left. split; reflexivity. }
    change (EOF =? EOF) with true in *.
    assert (in_err (fgetc_end false io) = false) as Hin'.
    { simpl. rewrite Hin. reflexivity. }
    rewrite Hin' in Hsegs. cbn [andb] in Hsegs.
    cbn [mbind option_bind].
    exists st', (round_io true (repeat st) (window st) (fgetc_end false io)),
      segs, (EvGetc EOF false :: flat_map writing segs).
    split; [reflexivity|]. rewrite Hsegs in Hem. split; [exact Hem|].
    destruct (round_eof _ _ _ _ _ _ Hr) as [_ ->].
    pose proof (round_keeps _ _ _ _ _ _ _ Hr) as Hk.
    rewrite !app_nil_r in *. split; [exact Hk|].
    split; [eapply round_bounds; exact Hr|].
    split; [eapply round_linked; eassumption|].
    unfold round_io. rewrite Hsegs.
    assert (grows io (fgetc_end false io) [] [EvGetc EOF false]) as G0.
    { split; simpl; rewrite ?app_nil_r, ?orb_false_r; reflexivity. }
    apply (grows_trans _ _ _ [] _ [_] _ G0).
    apply put_segments_obliging. eapply obliging_grows; eassumption.
  - rewrite encode_loop_cons.
    set (io0 := log (EvGetc (byte.unsigned c) false) io).
    pose proof (grows_log io (EvGetc (byte.unsigned c) false)) as G0.
    fold io0 in G0.
    destruct (encode_body_round (byte.unsigned c) st io0 (window st ++ [c]) Hst)
      as (segs & w' & rep' & st' & Hr & -> & Hsegs & Hem & Hnext).
    { right. exists c. split; reflexivity. }
    rewrite fputc_not_EOF in *. cbn [andb] in Hsegs.
    rewrite Hsegs in Hem.
    pose proof (obliging_grows _ _ _ _ Hio G0) as Hio0.
    assert (grows io0 (round_io false (repeat st) (window st ++ [c]) io0)
              (flat_map wire segs) (flat_map writing segs)) as G1.
    { unfold round_io. rewrite Hsegs. apply put_segments_obliging. exact Hio0. }
    pose proof (obliging_grows _ _ _ _ Hio0 G1) as Hio1.
    assert (round_flow false (repeat st) (window st ++ [c]) io0 = Next) as Hflow.
    { unfold round_flow. cbn [andb]. destruct Hio1 as [-> _].
      rewrite andb_false_r. reflexivity. }
    rewrite Hflow in *. cbn [mbind option_bind].
    destruct (Hnext eq_refl eq_refl) as (Hst' & Hw' & Hrep').
    destruct (round_linked prev _ _ _ _ _ _ _ Hpo Hr) as [Hlk Hpo'].
    specialize (Hpo' eq_refl). rewrite <- Hw', <- Hrep' in Hpo'.
    destruct (IH st' _ (last_seg prev segs) Hst' Hpo' Hio1)
      as (st2 & io2 & segs2 & evs2 & -> & Hem2 & Hk2 & Hb2 & Hl2 & G2).
    { rewrite (grows_in_err _ _ _ _ G1), (grows_in_err _ _ _ _ G0). exact Hin. }
    exists st2, io2, (segs ++ segs2),
      (([EvGetc (byte.unsigned c) false] ++ flat_map writing segs) ++ evs2).
    split; [reflexivity|].
    split; [rewrite Hem2, Hem, app_assoc; reflexivity|].
    split.
    { rewrite flat_map_app, Hk2, Hw'.
      rewrite app_assoc, (round_keeps _ _ _ _ _ _ _ Hr), <- app_assoc.
      reflexivity. }
    split; [apply Forall_app; split; [eapply round_bounds; exact Hr | exact Hb2]|].
    split; [apply linked_app; split; assumption|].
    rewrite flat_map_app.
    pose proof (grows_trans _ _ _ _ _ _ _ G0 G1) as G01.
    apply (grows_trans _ _ _ _ _ _ _ G01 G2).
Qed.

Lemma encode_obliging junk S :
  exists segs io',
    encode junk false S (fresh willing) = Some (segs, Result 0 None [] io')
    /\ out io' = flat_map wire segs
    /\ flat_map expand segs = S
    /\ Forall in_bounds segs
    /\ linked None segs.
Proof.
  destruct (encode_loop_obliging S (Enc 0 false (fresh_buf junk) [])
              (fresh willing) None (steady_start junk) I obliging_fresh eq_refl)
    as (st' & io' & segs & evs & E & Hem & Hk & Hb & Hl & G).
  exists segs, io'. unfold encode. rewrite E. cbn [mbind option_bind].
  unfold encode_status.
  rewrite (grows_in_err _ _ _ _ G), (grows_out_err _ _ _ _ G). cbn.
  split; [rewrite Hem; reflexivity|].
  split; [rewrite (grows_out _ _ _ _ G); reflexivity|].
  split; [|split; assumption].
  rewrite Hk. unfold window. reflexivity.
Qed.

Lemma in_bounds_well_formed s : in_bounds s -> well_formed s.
Proof. destruct s; simpl; lia. Qed.

(** C1. For every byte sequence [S], [encode] returns 0 and [decode] run on
    what [encode] wrote returns 0, prints nothing, reads all of it and
    writes exactly [S]. *)
Theorem decode_encode (junk : nat -> byte) (S : list byte) :
  exists segs r,
    encode junk false S (fresh willing) = Some (segs, r)
    /\ status r = 0
    /\ exists r',
         decode false (out (streams r)) (fresh willing) = Some r'
         /\ status r' = 0 /\ printed r' = None /\ unread r' = []
         /\ out (streams r') = S.
Proof.
  destruct (encode_obliging junk S) as (segs & io' & E & Ho & Hk & Hb & _).
  exists segs, (Result 0 None [] io'). split; [exact E|]. split; [reflexivity|].
  cbn [streams]. rewrite Ho.
  destruct (decode_wire segs None) as (io2 & Ed & Hi & He & Hout & _).
  { eapply Forall_impl; [exact Hb | apply in_bounds_well_formed]. }
  cbn [terminator left_over] in Ed. rewrite app_nil_r in Ed.
  exists (Result 0 None [] io2). split.
  { unfold decode. rewrite Ed. cbn [mbind option_bind].
    unfold decode_status. rewrite Hi, He. reflexivity. }
  repeat split. cbn [streams]. rewrite Hout. exact Hk.
Qed.

Lemma length_expand_bound segs :
  Forall in_bounds segs ->
  Z.of_nat (length (flat_map expand segs)) <= 128 * Z.of_nat (length segs).
Proof.
  induction 1 as [|s segs Hs _ IH]; [simpl; lia|].
  cbn [flat_map length]. rewrite length_app.
  assert (Z.of_nat (length (expand s)) <= 128).
  { destruct s; simpl in *; [rewrite length_replicate|]; lia. }
  lia.
Qed.

(** C3. For every input, the segments [encode] emits (and writes, in the
    format's layout) are runs with a count of 2 to 127 and copies of 1 to
    128 bytes; their expansions, in order, make up the input, so a run or
    a stretch longer than the maximum is spread over consecutive segments:
    an input of [n] bytes takes at least [n / 128] of them. *)
Theorem encode_segment_bounds (junk : nat -> byte) (S : list byte) :
  exists segs r,
    encode junk false S (fresh willing) = Some (segs, r)
    /\ status r = 0
    /\ out (streams r) = flat_map wire segs
    /\ Forall in_bounds segs
    /\ flat_map expand segs = S
    /\ Z.of_nat (length S) <= 128 * Z.of_nat (length segs).
Proof.
  destruct (encode_obliging junk S) as (segs & io' & E & Ho & Hk & Hb & _).
  exists segs, (Result 0 None [] io'). split; [exact E|].
  split; [reflexivity|]. split; [exact Ho|]. split; [exact Hb|].
  split; [exact Hk|]. rewrite <- Hk at 1. apply length_expand_bound. exact Hb.
Qed.

Lemma meets_may_follow s t : meets (Some s) t -> may_follow s t = true.
Proof.
  destruct s as [n b|n bs], t as [m c|m cs]; cbn; try reflexivity.
  - intros H. destruct (Z.eqb_spec (byte.unsigned b) (byte.unsigned c)) as [E|E];
      [|reflexivity].
    apply byte.unsigned_inj in E. rewrite (H E). reflexivity.
  - intros ->. reflexivity.
Qed.

Lemma linked_chained prev segs : linked prev segs -> chained segs = true.
Proof.
  revert prev. induction segs as [|s segs IH]; intros prev; [reflexivity|].
  cbn [linked chained]. intros [_ Hl]. rewrite (IH _ Hl), andb_true_r.
  destruct segs as [|t segs]; [reflexivity|].
  destruct Hl as [Hm _]. apply meets_may_follow. exact Hm.
Qed.

(** C4, as the code has it. For every input, of two consecutive segments
    emitted by [encode], both are copies only when the first holds 128
    bytes, and both are runs of the same byte only when the first has
    count 127. *)
Theorem encode_no_mergeable_unless_full (junk : nat -> byte) (S : list byte) :
  exists segs r,
    encode junk false S (fresh willing) = Some (segs, r)
    /\ status r = 0
    /\ chained segs = true.
Proof.
  destruct (encode_obliging junk S) as (segs & io' & E & _ & _ & _ & Hl).
  exists segs, (Result 0 None [] io'). split; [exact E|].
  split; [reflexivity|]. eapply linked_chained. exact Hl.
Qed.

(** C4, as stated, fails: 129 equal bytes come out as two runs of the same
    byte, and 130 bytes with no two neighbours equal as two copies. *)
Lemma encode_mergeable_segments :
  (exists r,
     encode zeros false (replicate 129 Byte.x42) (fresh willing)
     = Some ([Run 127 Byte.x42; Run 2 Byte.x42], r)
     /\ has_mergeable [Run 127 Byte.x42; Run 2 Byte.x42] = true)
  /\ (exists r bs cs,
        encode zeros false
          (flat_map (fun _ => [Byte.x41; Byte.x42]) (seq 0 65)) (fresh willing)
        = Some ([Literal 128 bs; Literal 2 cs], r)
        /\ has_mergeable [Literal 128 bs; Literal 2 cs] = true).
Proof.
  split.
  - eexists. split; [vm_compute; reflexivity | reflexivity].
  - eexists _, _, _. split; [vm_compute; reflexivity | reflexivity].
Qed.

(** ** The streams in general *)

Lemma first_failure_app a b :
  first_failure (a ++ b)
  = match first_failure a with
    | Some e => Some e
    | None => first_failure b
    end.
Proof.
  induction a as [|e a IH]; [reflexivity|]. cbn.
  destruct (failed e); [reflexivity | exact IH].
Qed.

Lemma after_failure_app a b :
  after_failure (a ++ b)
  = match first_failure a with
    | Some _ => after_failure a ++ b
    | None => after_failure b
    end.
Proof.
  induction a as [|e a IH]; [reflexivity|]. cbn.
  destruct (failed e); [reflexivity | exact IH].
Qed.

Lemma offer_any b io :
  exists ok io1,
    offer b io = (ok, io1)
    /\ answers io1 = answers io /\ in_err io1 = in_err io
    /\ trace io1 = trace io
    /\ out_err io1 = out_err io || negb ok.
Proof.
  unfold offer. destruct (answers io (offered io)).
  - eexists true, _. split; [reflexivity|]. cbn. rewrite orb_false_r. auto.
  - eexists false, _. split; [reflexivity|]. cbn. rewrite orb_true_r. auto.
Qed.

Lemma fputc_any s c io :
  exists (ok : bool) io1,
    fputc s c io = ((if ok then byte.unsigned (byte.of_Z c) else EOF), io1)
    /\ in_err io1 = in_err io
    /\ trace io1 = trace io ++ [EvPutc s (byte.of_Z c) ok]
    /\ out_err io1 = out_err io || negb ok.
Proof.
  unfold fputc.
  destruct (offer_any (byte.of_Z c) io) as (ok & io1 & -> & Ha & Hi & Ht & He).
  exists ok, (log (EvPutc s (byte.of_Z c) ok) io1).
  split; [reflexivity|]. cbn. rewrite Ht. auto.
Qed.

Lemma offer_all_any bs io :
  exists ok io1,
    offer_all bs io = (ok, io1)
    /\ in_err io1 = in_err io /\ trace io1 = trace io
    /\ out_err io1 = out_err io || negb ok.
Proof.
  revert io. induction bs as [|b bs IH]; intros io.
  - exists true, io. cbn. rewrite orb_false_r. auto.
  - cbn [offer_all].
    destruct (offer_any b io) as (ok & io1 & -> & Ha & Hi & Ht & He).
    destruct ok.
    + destruct (IH io1) as (ok2 & io2 & -> & Hi2 & Ht2 & He2).
      exists ok2, io2. split; [reflexivity|].
      rewrite Hi2, Ht2, He2, Hi, Ht, He. cbn. rewrite orb_false_r. auto.
    + exists false, io1. split; [reflexivity|]. auto.
Qed.

Lemma fwrite_any s bs io :
  exists ok,
    in_err (fwrite s bs io) = in_err io
    /\ trace (fwrite s bs io) = trace io ++ [EvFwrite s bs ok]
    /\ out_err (fwrite s bs io) = out_err io || negb ok.
Proof.
  unfold fwrite.
  destruct (offer_all_any bs io) as (ok & io1 & -> & Hi & Ht & He).
  exists ok. cbn. rewrite Ht. auto.
Qed.

Lemma has_failure_app a b :
  has_failure (a ++ b) = has_failure a || has_failure b.
Proof.
  unfold has_failure. rewrite first_failure_app.
  destruct (first_failure a); reflexivity.
Qed.

Lemma steps_refl io : steps io io [].
Proof. split; [rewrite app_nil_r | rewrite orb_false_r]; reflexivity. Qed.

Lemma steps_trans io io1 io2 e1 e2 :
  steps io io1 e1 -> steps io1 io2 e2 -> steps io io2 (e1 ++ e2).
Proof.
  intros [T1 F1] [T2 F2]. split.
  - rewrite T2, T1, app_assoc. reflexivity.
  - rewrite F2, F1, has_failure_app, orb_assoc. reflexivity.
Qed.

Lemma steps_log io e : failed e = false -> steps io (log e io) [e].
Proof.
  intros H. split; [reflexivity|]. unfold has_failure. cbn.
  rewrite H, orb_false_r. reflexivity.
Qed.

Lemma steps_fgetc_end bad io : steps io (fgetc_end bad io) [EvGetc EOF bad].
Proof.
  split; [reflexivity|]. unfold has_failure. cbn.
  destruct (in_err io), (out_err io), bad; reflexivity.
Qed.

Lemma steps_one io io1 e :
  trace io1 = trace io ++ [e] -> in_err io1 = in_err io ->
  out_err io1 = out_err io || failed e ->
  steps io io1 [e].
Proof.
  intros Ht Hi He. split; [exact Ht|]. unfold has_failure. cbn.
  rewrite Hi, He. destruct (failed e), (in_err io), (out_err io); reflexivity.
Qed.

Lemma steps_clean io io' evs :
  steps io io' evs -> in_err io = false -> out_err io = false ->
  has_failure evs = false ->
  in_err io' = false /\ out_err io' = false.
Proof.
  intros [_ F] Hi He Hf. rewrite Hi, He, Hf in F.
  apply orb_false_elim in F. exact F.
Qed.

(** ** decode in general *)

Lemma decode_run_any fuel ch : forall len io,
  1 <= len -> (Z.to_nat len <= fuel)%nat ->
  exists len1 io1 evs,
    decode_run fuel ch len io = Some (len1, io1)
    /\ 0 <= len1 <= len
    /\ in_err io1 = in_err io
    /\ trace io1 = trace io ++ evs
    /\ ((len1 = 0 /\ out_err io1 = out_err io /\ first_failure evs = None)
        \/ (out_err io1 = true
            /\ exists c, first_failure evs = Some (EvPutc DecRun c false))).
Proof.
  induction fuel as [|fuel IH]; intros len io Hlen Hfuel; [lia|].
  cbn [decode_run].
  destruct (fputc_any DecRun ch io) as (ok & io1 & -> & Hi & Ht & He).
  destruct ok.
  - rewrite fputc_not_EOF. cbn in He. rewrite orb_false_r in He.
    destruct (Z.eqb_spec (len - 1) 0) as [E|E].
    + exists (len - 1), io1, [EvPutc DecRun (byte.of_Z ch) true].
      split; [reflexivity|]. split; [lia|]. split; [exact Hi|].
      split; [exact Ht|]. left. auto.
    + destruct (IH (len - 1) io1) as (len2 & io2 & evs & -> & Hl2 & Hi2 & Ht2 & H2);
        [lia | lia |].
      exists len2, io2, (EvPutc DecRun (byte.of_Z ch) true :: evs).
      split; [reflexivity|]. split; [lia|].
      split; [congruence|].
      split; [rewrite Ht2, Ht, <- app_assoc; reflexivity|].
      cbn [first_failure failed negb]. rewrite <- He. exact H2.
  - change (EOF =? EOF) with true. cbn iota.
    exists len, io1, [EvPutc DecRun (byte.of_Z ch) false].
    split; [reflexivity|]. split; [lia|]. split; [exact Hi|].
    split; [exact Ht|]. right. rewrite He, orb_true_r. eauto.
Qed.

(** [decode]'s loop comes to an end on every input and for all streams,
    and only adds to the trace. *)
Lemma decode_loop_any bad inp : forall len io,
  0 <= len < 0x100 ->
  exists len' rest io' evs,
    decode_loop bad inp len io = Some (len', rest, io')
    /\ 0 <= len' < 0x100
    /\ trace io' = trace io ++ evs.
Proof.
  induction inp as [|b inp IH]; intros len io Hlen.
  - exists len, (@nil byte), (fgetc_end bad io), [EvGetc EOF bad].
    split; [reflexivity|]. split; [lia | reflexivity].
  - rewrite decode_loop_cons. cbv zeta.
    pose proof (byte_range b) as Hb.
    set (io0 := log (EvGetc (byte.unsigned b) false) io).
    destruct (Z.eqb_spec len 0) as [E0|E0].
    + destruct (Z.eqb_spec (byte.unsigned b) 0) as [Eb|Eb].
      * exists len, inp, io0, [EvGetc (byte.unsigned b) false].
        split; [reflexivity|]. split; [lia | reflexivity].
      * destruct (IH (byte.unsigned b) io0) as (len' & rest & io' & evs & -> & Hl & Ht);
          [lia|].
        exists len', rest, io', (EvGetc (byte.unsigned b) false :: evs).
        split; [reflexivity|]. split; [lia|].
        rewrite Ht. subst io0. cbn. rewrite <- app_assoc. reflexivity.
    + destruct (Z.ltb_spec len 0x80) as [E8|E8].
      * destruct (decode_run_any (Z.to_nat len) (byte.unsigned b) len io0)
          as (len1 & io1 & evs1 & -> & Hl1 & Hi1 & Ht1 & _); [lia | lia |].
        cbn [mbind option_bind].
        destruct (IH len1 io1) as (len' & rest & io' & evs & -> & Hl & Ht);
          [lia|].
        exists len', rest, io', (EvGetc (byte.unsigned b) false :: evs1 ++ evs).
        split; [reflexivity|]. split; [lia|].
        rewrite Ht, Ht1. subst io0. cbn. rewrite <- !app_assoc. reflexivity.
      * destruct (fputc_any DecLiteral (byte.unsigned b) io0)
          as (ok & io1 & -> & Hi1 & Ht1 & He1).
        destruct ok.
        -- rewrite fputc_not_EOF.
           destruct (IH ((len + 1) mod 0x100) io1)
             as (len' & rest & io' & evs & -> & Hl & Ht).
           { apply Z.mod_pos_bound. lia. }
           eexists len', rest, io', (_ :: _ :: evs).
           split; [reflexivity|]. split; [lia|].
           rewrite Ht, Ht1. subst io0. cbn. rewrite <- !app_assoc. reflexivity.
        -- change (EOF =? EOF) with true. cbn iota.
           eexists len, inp, io1, [_; _].
           split; [reflexivity|]. split; [lia|].
           rewrite Ht1. subst io0. cbn. rewrite <- !app_assoc. reflexivity.
Qed.

Lemma stops_unless_in_run_pass a b :
  first_failure a = None ->
  stops_unless_in_run (a ++ b) = stops_unless_in_run b.
Proof.
  intros H. unfold stops_unless_in_run, stops_at_once.
  rewrite first_failure_app, after_failure_app, H. reflexivity.
Qed.

Lemma fputc_steps s c io :
  exists (ok : bool) io1,
    fputc s c io = ((if ok then byte.unsigned (byte.of_Z c) else EOF), io1)
    /\ steps io io1 [EvPutc s (byte.of_Z c) ok].
Proof.
  destruct (fputc_any s c io) as (ok & io1 & E & Hi & Ht & He).
  exists ok, io1. split; [exact E|]. apply steps_one; assumption.
Qed.

Lemma decode_run_steps fuel ch len io :
  1 <= len -> (Z.to_nat len <= fuel)%nat ->
  exists len1 io1 evs,
    decode_run fuel ch len io = Some (len1, io1)
    /\ 0 <= len1 <= len
    /\ steps io io1 evs
    /\ (first_failure evs = None
        \/ exists c, first_failure evs = Some (EvPutc DecRun c false)).
Proof.
  intros Hlen Hfuel.
  destruct (decode_run_any fuel ch len io Hlen Hfuel)
    as (len1 & io1 & evs & E & Hl & Hi & Ht & H).
  exists len1, io1, evs. split; [exact E|]. split; [exact Hl|].
  destruct H as [(_ & He & Hn) | (He & c & Hs)].
  - split; [|left; exact Hn]. split; [exact Ht|].
    unfold has_failure. rewrite Hi, He, Hn, orb_false_r. reflexivity.
  - split; [|right; exists c; exact Hs]. split; [exact Ht|].
    unfold has_failure. rewrite He, Hs, !orb_true_r. reflexivity.
Qed.

(** After a failed read, or a failed write of a copied byte, [decode] makes
    no further call. *)
Lemma decode_loop_stops bad inp : forall len io,
  0 <= len < 0x100 ->
  exists len' rest io' evs,
    decode_loop bad inp len io = Some (len', rest, io')
    /\ steps io io' evs
    /\ stops_unless_in_run evs = true.
Proof.
  induction inp as [|b inp IH]; intros len io Hlen.
  - exists len, (@nil byte), (fgetc_end bad io), [EvGetc EOF bad].
    split; [reflexivity|]. split; [apply steps_fgetc_end|].
    destruct bad; reflexivity.
  - rewrite decode_loop_cons. cbv zeta.
    pose proof (byte_range b) as Hb.
    set (io0 := log (EvGetc (byte.unsigned b) false) io).
    assert (steps io io0 [EvGetc (byte.unsigned b) false]) as G0
      by (apply steps_log; reflexivity).
    destruct (Z.eqb_spec len 0) as [E0|E0].
    + destruct (Z.eqb_spec (byte.unsigned b) 0) as [Eb|Eb].
      * exists len, inp, io0, [EvGetc (byte.unsigned b) false].
        repeat split; apply G0.
      * destruct (IH (byte.unsigned b) io0) as (len' & rest & io' & evs & -> & G & Hs);
          [lia|].
        exists len', rest, io', ([EvGetc (byte.unsigned b) false] ++ evs).
        split; [reflexivity|].
        split; [exact (steps_trans _ _ _ _ _ G0 G)|].
        rewrite stops_unless_in_run_pass by reflexivity. exact Hs.
    + destruct (Z.ltb_spec len 0x80) as [E8|E8].
      * destruct (decode_run_steps (Z.to_nat len) (byte.unsigned b) len io0)
          as (len1 & io1 & evs1 & -> & Hl1 & G1 & H1); [lia | lia |].
        cbn [mbind option_bind].
        destruct (IH len1 io1) as (len' & rest & io' & evs & -> & G & Hs);
          [lia|].
        exists len', rest, io', ([EvGetc (byte.unsigned b) false] ++ evs1 ++ evs).
        split; [reflexivity|].
        split; [exact (steps_trans _ _ _ _ _ G0 (steps_trans _ _ _ _ _ G1 G))|].
        rewrite stops_unless_in_run_pass by reflexivity.
        destruct H1 as [Hnone | (c & Hsome)].
        -- rewrite stops_unless_in_run_pass by exact Hnone. exact Hs.
        -- unfold stops_unless_in_run. rewrite first_failure_app, Hsome.
           reflexivity.
      * destruct (fputc_steps DecLiteral (byte.unsigned b) io0)
          as (ok & io1 & -> & G1).
        pose proof (steps_trans _ _ _ _ _ G0 G1) as G01.
        destruct ok.
        -- rewrite fputc_not_EOF.
           destruct (IH ((len + 1) mod 0x100) io1)
             as (len' & rest & io' & evs & -> & G & Hs).
           { apply Z.mod_pos_bound. lia. }
           eexists len', rest, io', (_ ++ evs).
           split; [reflexivity|].
           split; [exact (steps_trans _ _ _ _ _ G01 G)|].
           rewrite stops_unless_in_run_pass by reflexivity. exact Hs.
        -- change (EOF =? EOF) with true. cbn iota.
           eexists len, inp, io1, _.
           split; [reflexivity|]. split; [exact G01 | reflexivity].
Qed.

(** How [decode]'s loop is left, for all streams: by the read that finds
    the end of the input, at a zero length byte, or after a refused write
    of a copied byte. *)
Lemma decode_loop_end bad inp : forall len io,
  0 <= len < 0x100 -> in_err io = false ->
  exists len' rest io' evs,
    decode_loop bad inp len io = Some (len', rest, io')
    /\ trace io' = trace io ++ evs
    /\ ((last evs = Some (EvGetc EOF bad) /\ in_err io' = bad)
        \/ (last evs = Some (EvGetc 0 false) /\ len' = 0 /\ in_err io' = false)
        \/ (exists c, last evs = Some (EvPutc DecLiteral c false)
                      /\ out_err io' = true /\ in_err io' = false)).
Proof.
  induction inp as [|b inp IH]; intros len io Hlen Hin.
  - exists len, (@nil byte), (fgetc_end bad io), [EvGetc EOF bad].
    split; [reflexivity|]. split; [reflexivity|]. left.
    split; [reflexivity|]. cbn. rewrite Hin. reflexivity.
  - rewrite decode_loop_cons. cbv zeta.
    pose proof (byte_range b) as Hb.
    set (io0 := log (EvGetc (byte.unsigned b) false) io).
    assert (forall len1 io1 evs1,
              0 <= len1 < 0x100 -> in_err io1 = false ->
              trace io1 = trace io ++ evs1 ->
              exists len' rest io' evs,
                decode_loop bad inp len1 io1 = Some (len', rest, io')
                /\ trace io' = trace io ++ evs
                /\ ((last evs = Some (EvGetc EOF bad) /\ in_err io' = bad)
                    \/ (last evs = Some (EvGetc 0 false) /\ len' = 0
                        /\ in_err io' = false)
                    \/ (exists c, last evs = Some (EvPutc DecLiteral c false)
                                  /\ out_err io' = true /\ in_err io' = false)))
      as Hgo.
    { intros len1 io1 evs1 Hl1 Hi1 Ht1.
      destruct (IH len1 io1 Hl1 Hi1) as (len' & rest & io' & evs & E & Ht & Hend).
      exists len', rest, io', (evs1 ++ evs). split; [exact E|].
      split; [rewrite Ht, Ht1, <- app_assoc; reflexivity|].
      assert (last (evs1 ++ evs) = last evs) as ->; [|exact Hend].
      destruct evs as [|e evs _] using rev_ind.
      - destruct Hend as [[H _] | [[H _] | (c & H & _)]]; discriminate.
      - rewrite app_assoc, !last_snoc. reflexivity. }
    destruct (Z.eqb_spec len 0) as [E0|E0].
    + destruct (Z.eqb_spec (byte.unsigned b) 0) as [Eb|Eb].
      * exists len, inp, io0, [EvGetc (byte.unsigned b) false].
        split; [reflexivity|]. split; [reflexivity|]. right. left.
        rewrite Eb. repeat split; assumption.
      * apply (Hgo _ io0 [EvGetc (byte.unsigned b) false]);
          [lia | exact Hin | reflexivity].
    + destruct (Z.ltb_spec len 0x80) as [E8|E8].
      * destruct (decode_run_any (Z.to_nat len) (byte.unsigned b) len io0)
          as (len1 & io1 & evs1 & -> & Hl1 & Hi1 & Ht1 & _); [lia | lia |].
        cbn [mbind option_bind].
        apply (Hgo _ io1 ([EvGetc (byte.unsigned b) false] ++ evs1));
          [lia | rewrite Hi1; exact Hin |].
        rewrite Ht1. subst io0. cbn. rewrite <- app_assoc. reflexivity.
      * destruct (fputc_any DecLiteral (byte.unsigned b) io0)
          as (ok & io1 & -> & Hi1 & Ht1 & He1).
        destruct ok.
        -- rewrite fputc_not_EOF.
           apply (Hgo _ io1 [EvGetc (byte.unsigned b) false;
                             EvPutc DecLiteral (byte.of_Z (byte.unsigned b)) true]);
             [apply Z.mod_pos_bound; lia | rewrite Hi1; exact Hin |].
           rewrite Ht1. subst io0. cbn. rewrite <- app_assoc. reflexivity.
        -- change (EOF =? EOF) with true. cbn iota.
           exists len, inp, io1,
             [EvGetc (byte.unsigned b) false;
              EvPutc DecLiteral (byte.of_Z (byte.unsigned b)) false].
           split; [reflexivity|].
           split; [rewrite Ht1; subst io0; cbn; rewrite <- app_assoc; reflexivity|].
           right. right. eexists. split; [reflexivity|].
           split; [rewrite He1; apply orb_true_r | rewrite Hi1; exact Hin].
Qed.

(** When nothing is refused and the input ends in end-of-file, the loop is
    left either by the read that finds the end of the input, or at a zero
    length byte with [len = 0]; no error indicator is set. *)
Lemma decode_loop_obliging_end inp : forall len io,
  0 <= len < 0x100 -> obliging io -> in_err io = false ->
  exists len' rest io' evs,
    decode_loop false inp len io = Some (len', rest, io')
    /\ trace io' = trace io ++ evs
    /\ out_err io' = false /\ in_err io' = false
    /\ (last evs = Some (EvGetc EOF false)
        \/ (len' = 0 /\ last evs = Some (EvGetc 0 false))).
Proof.
  induction inp as [|b inp IH]; intros len io Hlen Hio Hin.
  - exists len, (@nil byte), (fgetc_end false io), [EvGetc EOF false].
    split; [reflexivity|]. split; [reflexivity|].
    split; [apply Hio|]. split; [cbn; rewrite Hin; reflexivity|].
    left. reflexivity.
  - rewrite decode_loop_cons. cbv zeta.
    pose proof (byte_range b) as Hb.
    set (io0 := log (EvGetc (byte.unsigned b) false) io).
    pose proof (grows_log io (EvGetc (byte.unsigned b) false)) as G0.
    fold io0 in G0.
    pose proof (obliging_grows _ _ _ _ Hio G0) as Hio0.
    assert (forall len1 io1 bs evs1,
              0 <= len1 < 0x100 -> grows io0 io1 bs evs1 ->
              exists len' rest io' evs,
                decode_loop false inp len1 io1 = Some (len', rest, io')
                /\ trace io' = trace io ++ evs
                /\ out_err io' = false /\ in_err io' = false
                /\ (last evs = Some (EvGetc EOF false)
                    \/ (len' = 0 /\ last evs = Some (EvGetc 0 false)))) as Hgo.
    { intros len1 io1 bs evs1 Hl1 G1.
      destruct (IH len1 io1 Hl1) as (len' & rest & io' & evs & E & Ht & He & Hi & Hlast).
      { eapply obliging_grows; eassumption. }
      { rewrite (grows_in_err _ _ _ _ G1), (grows_in_err _ _ _ _ G0). exact Hin. }
      exists len', rest, io', (([EvGetc (byte.unsigned b) false] ++ evs1) ++ evs).
      split; [exact E|].
      split; [rewrite Ht, (grows_trace _ _ _ _ G1), (grows_trace _ _ _ _ G0),
                <- !app_assoc; reflexivity|].
      split; [exact He|]. split; [exact Hi|].
      assert (evs <> []) as Hne.
      { destruct Hlast as [H|[_ H]]; intros ->; discriminate. }
      destruct evs as [|e evs _] using rev_ind; [congruence|].
      rewrite app_assoc, last_snoc. rewrite last_snoc in Hlast. exact Hlast. }
    destruct (Z.eqb_spec len 0) as [E0|E0].
    + destruct (Z.eqb_spec (byte.unsigned b) 0) as [Eb|Eb].
      * exists len, inp, io0, [EvGetc (byte.unsigned b) false].
        split; [reflexivity|]. split; [reflexivity|].
        split; [apply Hio0|].
        split; [rewrite (grows_in_err _ _ _ _ G0); exact Hin|].
        right. rewrite Eb. split; [exact E0 | reflexivity].
      * apply (Hgo (byte.unsigned b) io0 [] []); [lia | apply grows_refl].
    + destruct (Z.ltb_spec len 0x80) as [E8|E8].
      * destruct (decode_run_obliging (Z.to_nat len) (byte.unsigned b) len io0 Hio0)
          as (io1 & -> & G1); [lia | lia |].
        cbn [mbind option_bind].
        eapply (Hgo 0 io1); [lia | exact G1].
      * destruct (fputc_obliging DecLiteral (byte.unsigned b) io0 Hio0)
          as (io1 & -> & G1).
        rewrite fputc_not_EOF.
        eapply (Hgo _ io1); [apply Z.mod_pos_bound; lia | exact G1].
Qed.

(** ** encode in general *)

Lemma encode_loop_total bad inp : forall st io,
  steady st -> is_Some (encode_loop bad inp st io).
Proof.
  induction inp as [|c inp IH]; intros st io Hst.
  - rewrite encode_loop_nil.
    destruct (encode_body_round EOF st (fgetc_end bad io) (window st) Hst)
      as (segs & w' & rep' & st' & _ & -> & _).
    { left. split; reflexivity. }
    cbn [mbind option_bind]. eexists. reflexivity.
  - rewrite encode_loop_cons.
    destruct (encode_body_round (byte.unsigned c) st
                (log (EvGetc (byte.unsigned c) false) io) (window st ++ [c]) Hst)
      as (segs & w' & rep' & st' & _ & -> & _ & _ & Hnext).
    { right. exists c. split; reflexivity. }
    cbn [mbind option_bind].
    destruct (round_flow _ _ _ _) eqn:Hflow.
    + apply IH. apply Hnext; [reflexivity | apply fputc_not_EOF].
    + eexists. reflexivity.
Qed.

Lemma reached_steady junk st io : reached junk st io -> steady st.
Proof.
  induction 1 as [io | st io c st' io' _ IH Hbody].
  - apply steady_start.
  - destruct (encode_body_round (byte.unsigned c) st
                (log (EvGetc (byte.unsigned c) false) io) (window st ++ [c]) IH)
      as (segs & w' & rep' & st1 & _ & E & _ & _ & Hnext).
    { right. exists c. split; reflexivity. }
    rewrite E in Hbody. injection Hbody as Hflow -> _.
    apply Hnext; [exact Hflow | apply fputc_not_EOF].
Qed.

Lemma encode_total junk bad inp io : is_Some (encode junk bad inp io).
Proof.
  unfold encode.
  destruct (encode_loop_total bad inp (Enc 0 false (fresh_buf junk) []) io
              (steady_start junk)) as [[[st rest] io1] ->].
  eexists. reflexivity.
Qed.

(** C10. [encode] never steps outside [buf]: on every input and for all
    streams it runs to its end without a faulting access; at every loop
    head the array has its 129 bytes and [0 <= len <= 128], so that [len]
    is at most 129 after the store of line 93; in run mode [len >= 2], so
    [buf[len - 2]] and [buf[len - 1]] are in the buffer; and the round from
    there, on any byte or at the end of the input, makes every access in
    bounds. *)
Theorem encode_buffer_safe (junk : nat -> byte) :
  (forall bad inp io, is_Some (encode junk bad inp io))
  /\ (forall st io,
        reached junk st io ->
        length (buf st) = 129%nat /\ 0 <= len st <= 128
        /\ (repeat st = true -> 2 <= len st)
        /\ forall ch io1,
             ch = EOF \/ (exists c, ch = byte.unsigned c) ->
             (exists st1, encode_store ch st = Some st1
                          /\ len st <= len st1 <= 129)
             /\ is_Some (encode_body ch st io1)).
Proof.
  split.
  - intros bad inp io. apply encode_total.
  - intros st io Hr. pose proof (reached_steady _ _ _ Hr) as Hst.
    destruct Hst as (Hb & Hl & Ht). split; [exact Hb|]. split; [exact Hl|].
    split.
    { intros E. rewrite E in Ht. apply tidy_run_length in Ht.
      pose proof (length_window st Hb). lia. }
    intros ch io1 Hch. split.
    + destruct Hch as [-> | (c & ->)].
      * exists st. split; [reflexivity | lia].
      * destruct (encode_store_window c st Hb Hl) as (b1 & -> & _).
        eexists. split; [reflexivity|]. cbn [len]. lia.
    + assert (exists w1, fed ch st w1) as (w1 & Hfed).
      { destruct Hch as [-> | (c & ->)].
        - exists (window st). left. split; reflexivity.
        - exists (window st ++ [c]). right. exists c. split; reflexivity. }
      destruct (encode_body_round ch st io1 w1 (conj Hb (conj Hl Ht)) Hfed)
        as (segs & w' & rep' & st' & _ & -> & _).
      eexists. reflexivity.
Qed.

Lemma encode_buffer_safe_witness :
  reached zeros (Enc 0 false (fresh_buf zeros) []) (fresh willing)
  /\ length (buf (Enc 0 false (fresh_buf zeros) [])) = 129%nat.
Proof.
  split; [apply reached_start|].
  exact (proj1 (proj2 (encode_buffer_safe zeros) _ _
                  (reached_start zeros (fresh willing)))).
Defined.

Lemma stops_after_segment_pass a b :
  first_failure a = None ->
  stops_after_segment (a ++ b) = stops_after_segment b.
Proof.
  intros H. unfold stops_after_segment.
  rewrite first_failure_app, after_failure_app, H. reflexivity.
Qed.

Lemma put_segment_any s io :
  exists e1 e2,
    trace (put_segment s io) = trace io ++ [e1; e2]
    /\ in_err (put_segment s io) = in_err io
    /\ out_err (put_segment s io) = out_err io || failed e1 || failed e2
    /\ stops_after_segment [e1; e2] = true.
Proof.
  destruct s as [n b | n bs]; cbn [put_segment].
  - destruct (fputc_any EncRunLen n io) as (ok1 & io1 & -> & Hi1 & Ht1 & He1).
    destruct (fputc_any EncRunByte (byte.unsigned b) io1)
      as (ok2 & io2 & -> & Hi2 & Ht2 & He2).
    eexists _, _. split; [rewrite Ht2, Ht1, <- app_assoc; reflexivity|].
    split; [congruence|]. split; [rewrite He2, He1; reflexivity|].
    destruct ok1, ok2; reflexivity.
  - destruct (fputc_any EncLitLen (0x100 - n) io) as (ok1 & io1 & -> & Hi1 & Ht1 & He1).
    destruct (fwrite_any EncLitData bs io1) as (ok2 & Hi2 & Ht2 & He2).
    eexists _, _. split; [rewrite Ht2, Ht1, <- app_assoc; reflexivity|].
    split; [congruence|]. split; [rewrite He2, He1; reflexivity|].
    destruct ok1, ok2; reflexivity.
Qed.

Lemma round_of_segs w eof rep w1 segs w' rep' :
  round_of w eof rep w1 segs w' rep' -> segs = [] \/ exists s, segs = [s].
Proof. intros H. destruct H; eauto. Qed.

Lemma flushed_nonempty rep flush w s :
  flushed rep flush w = [s] -> (flush =? 0) = false.
Proof. unfold flushed. destruct (flush =? 0); [discriminate | reflexivity]. Qed.

Lemma put_segment_steps s io :
  exists e1 e2,
    steps io (put_segment s io) [e1; e2]
    /\ in_err (put_segment s io) = in_err io
    /\ stops_after_segment [e1; e2] = true.
Proof.
  destruct (put_segment_any s io) as (e1 & e2 & Ht & Hi & He & Hs).
  exists e1, e2. split; [|split; [exact Hi | exact Hs]]. split; [exact Ht|].
  unfold has_failure. cbn. rewrite Hi, He.
  destruct (failed e1), (failed e2), (in_err io), (out_err io); reflexivity.
Qed.

(** What a round adds to the trace when no output has failed before it:
    nothing failed and the loop goes on, or the loop is left and at most
    the segment's data write follows the failed call. *)
Lemma round_trace eof rep w w1 segs w' rep' io :
  round_of w eof rep w1 segs w' rep' ->
  round_segs eof rep w1 io = (if eof && in_err io then [] else segs) ->
  in_err io = false \/ eof = true ->
  out_err io = false ->
  exists evs,
    steps io (round_io eof rep w1 io) evs
    /\ stops_after_segment evs = true
    /\ ((has_failure evs = false /\ eof && in_err io = false
         /\ round_flow eof rep w1 io = Next)
        \/ (round_flow eof rep w1 io = Break
            /\ (has_failure evs = true \/ eof && in_err io = true))).
Proof.
  intros Hr Hsegs Hin Hout. unfold round_flow, round_io. rewrite Hsegs.
  destruct (eof && in_err io) eqn:Estop.
  - exists []. split; [apply steps_refl|]. split; [reflexivity|].
    right. auto.
  - destruct (round_of_segs _ _ _ _ _ _ _ Hr) as [-> | (s & ->)].
    + exists []. cbn [put_segments fold_left].
      split; [apply steps_refl|]. split; [reflexivity|].
      left. rewrite Hout, andb_false_r. auto.
    + unfold round_segs in Hsegs. rewrite Estop in Hsegs.
      rewrite (flushed_nonempty _ _ _ _ Hsegs).
      cbn [negb andb put_segments fold_left].
      destruct (put_segment_steps s io) as (e1 & e2 & G & Hi' & Hs).
      exists [e1; e2]. split; [exact G|]. split; [exact Hs|].
      assert (in_err io = false) as Hi.
      { destruct Hin as [? | ->]; [assumption|]. exact Estop. }
      destruct G as [_ F]. rewrite Hi', Hi, Hout in F. cbn [orb] in F.
      rewrite F. destruct (has_failure [e1; e2]); auto.
Qed.

(** From streams on which nothing has failed, [encode]'s loop stops at the
    first failed call, but for the data write of the segment in hand. *)
Lemma encode_loop_stops bad inp : forall st io,
  steady st -> in_err io = false -> out_err io = false ->
  exists st' rest io' evs,
    encode_loop bad inp st io = Some (st', rest, io')
    /\ steps io io' evs
    /\ stops_after_segment evs = true.
Proof.
  induction inp as [|c inp IH]; intros st io Hst Hin Hout.
  - rewrite encode_loop_nil.
    destruct (encode_body_round EOF st (fgetc_end bad io) (window st) Hst)
      as (segs & w' & rep' & st' & Hr & -> & Hsegs & _).
    { left. split; reflexivity. }
    change (EOF =? EOF) with true in *.
    pose proof (steps_fgetc_end bad io) as G0.
    destruct (round_trace _ _ _ _ _ _ _ (fgetc_end bad io) Hr Hsegs
                (or_intror eq_refl) Hout)
      as (evs & G & Hs & Hcase).
    cbn [mbind option_bind].
    eexists st', [], _, ([EvGetc EOF bad] ++ evs).
    split; [reflexivity|].
    split; [exact (steps_trans _ _ _ _ _ G0 G)|].
    destruct bad.
    + cbn [andb in_err fgetc_end log] in Hsegs. rewrite orb_true_r in Hsegs.
      destruct G as [Ht _]. unfold round_io in Ht. rewrite Hsegs in Ht.
      cbn [put_segments fold_left] in Ht.
      assert (evs = []) as ->.
      { apply (f_equal length) in Ht. rewrite !length_app in Ht.
        destruct evs; [reflexivity | cbn in Ht; lia]. }
      reflexivity.
    + rewrite stops_after_segment_pass by reflexivity. exact Hs.
  - rewrite encode_loop_cons.
    set (io0 := log (EvGetc (byte.unsigned c) false) io).
    assert (steps io io0 [EvGetc (byte.unsigned c) false]) as G0
      by (apply steps_log; reflexivity).
    destruct (encode_body_round (byte.unsigned c) st io0 (window st ++ [c]) Hst)
      as (segs & w' & rep' & st' & Hr & -> & Hsegs & _ & Hnext).
    { right. exists c. split; reflexivity. }
    rewrite fputc_not_EOF in *.
    destruct (round_trace _ _ _ _ _ _ _ io0 Hr Hsegs (or_introl Hin) Hout)
      as (evs & G & Hs & Hcase).
    pose proof (steps_trans _ _ _ _ _ G0 G) as G01.
    cbn [mbind option_bind].
    destruct Hcase as [(Hnone & _ & Hflow) | [Hflow _]].
    + rewrite Hflow in *.
      destruct (steps_clean _ _ _ G01 Hin Hout) as [Hin' Hout'].
      { rewrite has_failure_app, Hnone. reflexivity. }
      destruct (IH st' (round_io false (repeat st) (window st ++ [c]) io0))
        as (st2 & rest & io2 & evs2 & -> & G2 & Hs2);
        [apply Hnext; reflexivity | exact Hin' | exact Hout' |].
      exists st2, rest, io2, (([EvGetc (byte.unsigned c) false] ++ evs) ++ evs2).
      split; [reflexivity|].
      split; [exact (steps_trans _ _ _ _ _ G01 G2)|].
      rewrite stops_after_segment_pass; [exact Hs2|].
      unfold has_failure in Hnone. rewrite first_failure_app. cbn.
      destruct (first_failure evs); [discriminate | reflexivity].
    + rewrite Hflow.
      eexists st', inp, _, ([EvGetc (byte.unsigned c) false] ++ evs).
      split; [reflexivity|]. split; [exact G01|].
      rewrite stops_after_segment_pass by reflexivity. exact Hs.
Qed.

(** ** What the codec functions return *)

Lemma decode_total bad inp io : is_Some (decode bad inp io).
Proof.
  unfold decode.
  destruct (decode_loop_any bad inp 0 io) as (len & rest & io' & evs & -> & _);
    [lia|].
  eexists. reflexivity.
Qed.

(** For all streams: the message "Unexpected end of stream." comes exactly
    when the loop is left at the end of the input with [len] not 0 and no
    write has been refused; an error on either stream is reported first
    (lines 71-76). *)
Lemma decode_unexpected_end bad inp a :
  exists len rest io',
    decode_loop bad inp 0 (fresh a) = Some (len, rest, io')
    /\ (printed (decode_status len rest io') = Some UnexpectedEnd
        <-> last (trace io') = Some (EvGetc EOF false) /\ len <> 0
            /\ out_err io' = false).
Proof.
  destruct (decode_loop_end bad inp 0 (fresh a))
    as (len & rest & io' & evs & E & Ht & Hend); [lia | reflexivity |].
  exists len, rest, io'. split; [exact E|].
  cbn [fresh trace app] in Ht. rewrite Ht. unfold decode_status.
  destruct Hend as [[Hl Hi] | [(Hl & H0 & Hi) | (c & Hl & He & Hi)]];
    rewrite Hl, Hi.
  - destruct bad.
    + cbn. split; [discriminate | intros [H _]; discriminate].
    + destruct (out_err io'); [split; [discriminate | intros (_ & _ & H);
                                                       discriminate]|].
      destruct (Z.eqb_spec len 0); cbn; split; try discriminate; tauto.
  - rewrite H0. destruct (out_err io'); cbn; split; try discriminate;
      intros [H _]; discriminate.
  - rewrite He. cbn. split; [discriminate | intros [H _]; discriminate].
Qed.

(** C7, as the code has it. [decode] and [encode] return one of two values:
    0, with nothing printed and no error indicator set, or [-EIO]; which of
    the failures it was (input error, output error and, for [decode], an
    unexpected end of the stream) shows in the message printed, not in the
    status. *)
Theorem status_is_zero_or_EIO (junk : nat -> byte) (bad : bool)
    (inp : list byte) (io : stdio) :
  (exists r,
     decode bad inp io = Some r
     /\ ((status r = 0 /\ printed r = None
          /\ in_err (streams r) = false /\ out_err (streams r) = false)
         \/ (status r = - EIO /\ printed r = Some InputError
             /\ in_err (streams r) = true)
         \/ (status r = - EIO /\ printed r = Some OutputError
             /\ in_err (streams r) = false /\ out_err (streams r) = true)
         \/ (status r = - EIO /\ printed r = Some UnexpectedEnd
             /\ in_err (streams r) = false /\ out_err (streams r) = false)))
  /\ (exists segs r,
        encode junk bad inp io = Some (segs, r)
        /\ ((status r = 0 /\ printed r = None
             /\ in_err (streams r) = false /\ out_err (streams r) = false)
            \/ (status r = - EIO /\ printed r = Some InputError
                /\ in_err (streams r) = true)
            \/ (status r = - EIO /\ printed r = Some OutputError
                /\ in_err (streams r) = false /\ out_err (streams r) = true))).
Proof.
  split.
  - unfold decode.
    destruct (decode_loop_any bad inp 0 io) as (len & rest & io' & evs & -> & _);
      [lia|].
    cbn [mbind option_bind]. eexists. split; [reflexivity|].
    unfold decode_status.
    destruct (in_err io') eqn:Ei; [right; left; auto|].
    destruct (out_err io') eqn:Eo; [right; right; left; auto|].
    destruct (negb (len =? 0)); cbn [status printed streams];
      [right; right; right; auto | left; auto].
  - unfold encode.
    destruct (encode_loop_total bad inp (Enc 0 false (fresh_buf junk) []) io
                (steady_start junk)) as [[[st rest] io1] ->].
    cbn [mbind option_bind]. eexists _, _. split; [reflexivity|].
    unfold encode_status.
    destruct (in_err io1) eqn:Ei; [right; left; auto|].
    destruct (out_err io1) eqn:Eo; [right; right; auto | left; auto].
Qed.

(** C7, as stated, fails: a truncated stream, an input error and an output
    error all make [decode] return the same status, so no function of the
    status tells them apart. *)
Lemma status_alone_does_not_tell :
  (exists r1 r2 r3,
     decode false [Byte.x03] (fresh willing) = Some r1
     /\ decode true [] (fresh willing) = Some r2
     /\ decode false [Byte.x81; Byte.x41] (fresh (room 0)) = Some r3
     /\ status r1 = status r2 /\ status r2 = status r3
     /\ printed r1 = Some UnexpectedEnd
     /\ printed r2 = Some InputError
     /\ printed r3 = Some OutputError)
  /\ ~ (exists tell : Z -> option diagnostic,
          forall bad inp io r,
            decode bad inp io = Some r -> printed r = tell (status r)).
Proof.
  split.
  - eexists _, _, _. repeat split; vm_compute; reflexivity.
  - intros (tell & H).
    pose proof (H false [Byte.x03] (fresh willing) _ eq_refl) as H1.
    pose proof (H true [] (fresh willing) _ eq_refl) as H2.
    vm_compute in H1, H2. congruence.
Qed.

(** C8, as the code has it. Started on streams without error, [encode]
    makes no read after its first failed call and no write either, but for
    the data of the segment whose length byte was refused; [decode] makes
    no call at all after a failed read or after a failed write of a byte
    it copies. Both return [-EIO] when a call has failed. *)
Theorem stop_on_first_error (junk : nat -> byte) (bad : bool)
    (inp : list byte) (a : nat -> bool) :
  (exists segs r,
     encode junk bad inp (fresh a) = Some (segs, r)
     /\ stops_after_segment (trace (streams r)) = true
     /\ (has_failure (trace (streams r)) = true <-> status r = - EIO))
  /\ (exists r,
        decode bad inp (fresh a) = Some r
        /\ stops_unless_in_run (trace (streams r)) = true
        /\ (has_failure (trace (streams r)) = true -> status r = - EIO)).
Proof.
  split.
  - unfold encode.
    destruct (encode_loop_stops bad inp (Enc 0 false (fresh_buf junk) [])
                (fresh a) (steady_start junk) eq_refl eq_refl)
      as (st & rest & io' & evs & -> & [Ht Hf] & Hs).
    cbn [mbind option_bind]. eexists _, _. split; [reflexivity|].
    cbn [fresh trace in_err out_err app orb] in Ht, Hf.
    assert (streams (encode_status rest io') = io') as ->
      by (unfold encode_status;
          destruct (in_err io'); [|destruct (out_err io')]; reflexivity).
    rewrite Ht. split; [exact Hs|]. rewrite <- Hf. unfold encode_status, EIO.
    destruct (in_err io'); [|destruct (out_err io')]; cbn; split;
      intros; (reflexivity || lia || discriminate).
  - unfold decode.
    destruct (decode_loop_stops bad inp 0 (fresh a))
      as (len & rest & io' & evs & -> & [Ht Hf] & Hs); [lia|].
    cbn [mbind option_bind]. eexists. split; [reflexivity|].
    cbn [fresh trace in_err out_err app orb] in Ht, Hf.
    assert (streams (decode_status len rest io') = io') as ->
      by (unfold decode_status;
          destruct (in_err io'); [|destruct (out_err io'); [|destruct (negb _)]];
          reflexivity).
    rewrite Ht. split; [exact Hs|]. rewrite <- Hf. unfold decode_status.
    destruct (in_err io'); [|destruct (out_err io')]; cbn;
      intros; (reflexivity || discriminate).
Qed.

(** C8, as stated, fails.  With an output that refuses everything,
    [encode] on "AAB" still offers the run's byte after the refused length
    byte, and [decode] on two runs goes on reading and writing to the end of
    its input after the first refused write. *)
Lemma stop_on_first_error_fails :
  (exists segs r,
     encode zeros false [Byte.x41; Byte.x41; Byte.x42] (fresh (room 0))
     = Some (segs, r)
     /\ status r = - EIO
     /\ stops_at_once (trace (streams r)) = false
     /\ after_failure (trace (streams r)) = [EvPutc EncRunByte Byte.x41 false])
  /\ (exists r,
        decode false [Byte.x02; Byte.x41; Byte.x02; Byte.x42] (fresh (room 0))
        = Some r
        /\ status r = - EIO
        /\ stops_at_once (trace (streams r)) = false
        /\ after_failure (trace (streams r))
           = [EvGetc 2 false; EvPutc DecRun Byte.x02 false;
              EvGetc 66 false; EvPutc DecRun Byte.x42 false;
              EvGetc EOF false]).
Proof.
  split.
  - eexists _, _. split; [vm_compute; reflexivity|]. repeat split.
  - eexists. split; [vm_compute; reflexivity|]. repeat split.
Qed.

(** ** main *)

Lemma run_op_total o e : is_Some (run_op o e).
Proof.
  destruct o; unfold run_op.
  - destruct (encode_total (buf_junk e) (in_bad e) (in_bytes e)
                (fresh (out_answers e))) as [[segs r] ->].
    eexists. reflexivity.
  - destruct (decode_total (in_bad e) (in_bytes e) (fresh (out_answers e)))
      as [r ->].
    eexists. reflexivity.
Qed.

Lemma main_total ls file e : is_Some (main ls file e).
Proof.
  unfold main, main_run. destruct (main_setup ls file e) as [code| |o keeps].
  - eexists. reflexivity.
  - eexists. reflexivity.
  - destruct (run_op_total o e) as [ret ->]. eexists. reflexivity.
Qed.

(** C9. In every run of [main] that gets to its last line with some value
    [ret], the exit status is [EXIT_SUCCESS] exactly when [ret] is not 0,
    that is when a check before the codec call refused to go on, or the
    codec returned an error, or the input file could not be removed after
    a success; and it is [EXIT_FAILURE] exactly when [ret] is 0, that is
    when the codec returned 0 and the input file was kept or removed. *)
Theorem main_exit_code_inverted (ls : list letter) (file : option string)
    (e : env) (ret : Z) :
  main_run ls file e = Some (Final ret) ->
  main ls file e = Some (exit_code ret)
  /\ (exit_code ret = EXIT_SUCCESS <-> ret <> 0)
  /\ (exit_code ret = EXIT_FAILURE <-> ret = 0)
  /\ (ret = 0 <->
      exists o keeps,
        main_setup ls file e = Ready o keeps
        /\ run_op o e = Some 0
        /\ (keeps = true \/ unlink_in e = None))
  /\ (ret <> 0 <->
      main_setup ls file e = Refused
      \/ exists o keeps st,
           main_setup ls file e = Ready o keeps
           /\ run_op o e = Some st
           /\ (st <> 0 \/ (keeps = false /\ unlink_in e <> None))).
Proof.
  intros Hrun.
  split; [unfold main; rewrite Hrun; reflexivity|].
  split; [unfold exit_code, EXIT_SUCCESS, EXIT_FAILURE;
          destruct (Z.eqb_spec ret 0); cbn; split; intros; lia|].
  split; [unfold exit_code, EXIT_SUCCESS, EXIT_FAILURE;
          destruct (Z.eqb_spec ret 0); cbn; split; intros; lia|].
  unfold main_run in Hrun.
  destruct (main_setup ls file e) as [code| |o keeps].
  - discriminate.
  - injection Hrun as <-. unfold EINVAL. split; split; intros H.
    + lia.
    + destruct H as (o & k & H & _). discriminate.
    + left. reflexivity.
    + lia.
  - destruct (run_op o e) as [st|] eqn:Eop; [|discriminate].
    cbn [mbind option_bind] in Hrun. injection Hrun as <-.
    unfold remove_input.
    destruct (Z.eqb_spec st 0) as [E0|E0]; cbn [andb];
      [destruct keeps; cbn [negb]; [|destruct (unlink_in e) as [errno|]]|].
    all: split; split; intros H.
    all: try (destruct H as (o' & k' & H & Hs & Hc); injection H as <- <-;
              rewrite Eop in Hs; injection Hs as Hs).
    all: try (destruct H as [H | (o' & k' & st' & H & Hs & Hc)];
              [discriminate|]; injection H as <- <-;
              rewrite Eop in Hs; injection Hs as <-).
    all: try lia.
    all: try (destruct Hc as [Hc | [Hc1 Hc2]]; first [lia | congruence]).
    all: try (destruct Hc; congruence).
    all: try (exists o; eexists; split; [reflexivity|];
              split; [rewrite Eop; f_equal; exact E0|]; auto; fail).
    all: try (right; exists o; eexists _, st; split; [reflexivity|];
              split; [exact Eop|];
              first [ left; exact E0
                    | right; split; [reflexivity | discriminate] ]).
Qed.

(** A file is given and kept, the codec succeeds: [ret] is 0 and the
    process exits with [EXIT_FAILURE]. *)
Lemma main_exit_code_inverted_witness :
  let e := Env true true None true true false None
             [Byte.x41; Byte.x41; Byte.x42] false willing zeros in
  main_run [Lk] (Some "notes.txt") e = Some (Final 0)
  /\ main [Lk] (Some "notes.txt") e = Some EXIT_FAILURE.
Proof.
  intros e.
  assert (main_run [Lk] (Some "notes.txt") e = Some (Final 0)) as H
    by (vm_compute; reflexivity).
  split; [exact H|].
  exact (proj1 (main_exit_code_inverted [Lk] (Some "notes.txt") e 0 H)).
Defined.

(** ** decode, piece by piece *)

Lemma last_app_Some {A} (l k : list A) x :
  last k = Some x -> last (l ++ k) = Some x.
Proof.
  destruct k as [|y k _] using rev_ind; [discriminate|].
  rewrite app_assoc, !last_snoc. auto.
Qed.

Lemma owed_range len : 0 <= owed len <= 127.
Proof.
  unfold owed. destruct (Z.ltb_spec 0 len); cbn [andb]; [|lia].
  destruct (Z.ltb_spec len 0x80); lia.
Qed.

Lemma owed_run len : 0 < len < 0x80 -> 2 * len - 127 <= owed len.
Proof.
  intros H. unfold owed. destruct (Z.ltb_spec 0 len); [|lia].
  destruct (Z.ltb_spec len 0x80); cbn [andb]; lia.
Qed.

Lemma owed_idle len : len <= 0 \/ 0x80 <= len -> owed len = 0.
Proof.
  intros H. unfold owed. destruct (Z.ltb_spec 0 len); cbn [andb]; [|reflexivity].
  destruct (Z.ltb_spec len 0x80); [lia | reflexivity].
Qed.

(** [decode]'s loop on [a ++ b], when nothing is refused: the bytes written
    and the calls made for [a] do not depend on the streams, and the loop
    goes on with [b] from where [a] left it, unless a zero length byte in
    [a] ended it.  The output for [a] is at most 127 bytes for each 2 bytes
    of [a]. *)
Lemma decode_loop_split a : forall len,
  0 <= len < 0x100 ->
  exists bs evs len1 stop,
    0 <= len1 < 0x100
    /\ (stop <> None -> len1 = 0 /\ last evs = Some (EvGetc 0 false))
    /\ 2 * Z.of_nat (length bs) + owed len1
       <= 127 * Z.of_nat (length a) + owed len
    /\ forall io, obliging io ->
         exists io1,
           grows io io1 bs evs
           /\ forall b bad,
                decode_loop bad (a ++ b) len io = resume bad stop b len1 io1.
Proof.
  induction a as [|c a IH]; intros len Hlen.
  - exists [], [], len, None. split; [lia|]. split; [congruence|].
    split; [simpl; lia|]. intros io Hio. exists io.
    split; [apply grows_refl | reflexivity].
  - pose proof (byte_range c) as Hc.
    destruct (Z.eqb_spec len 0) as [E0|E0].
    + destruct (Z.eqb_spec (byte.unsigned c) 0) as [Ec|Ec].
      * exists [], [EvGetc (byte.unsigned c) false], 0, (Some a).
        split; [lia|]. split; [rewrite Ec; split; reflexivity|].
        split; [subst len; cbn [length]; rewrite !owed_idle by lia; lia|].
        intros io Hio. exists (log (EvGetc (byte.unsigned c) false) io).
        split; [apply grows_log|]. intros b bad.
        change ((c :: a) ++ b) with (c :: (a ++ b)).
        rewrite decode_loop_cons. cbv zeta.
        subst len. rewrite Ec. reflexivity.
      * destruct (IH (byte.unsigned c)) as (bs & evs & len1 & stop & Hl1 & Hs & Hsz & Hgo);
          [lia|].
        exists bs, ([EvGetc (byte.unsigned c) false] ++ evs), len1, stop.
        split; [exact Hl1|]. split; [intros Hn; split; [apply Hs, Hn|];
                                     apply last_app_Some, (Hs Hn)|].
        split.
        { subst len. cbn [length].
          pose proof (owed_range (byte.unsigned c)).
          rewrite (owed_idle 0) by lia. lia. }
        intros io Hio.
        pose proof (grows_log io (EvGetc (byte.unsigned c) false)) as G0.
        destruct (Hgo _ (obliging_grows _ _ _ _ Hio G0)) as (io1 & G1 & E1).
        exists io1. split; [exact (grows_trans _ _ _ [] _ _ _ G0 G1)|].
        intros b bad. change ((c :: a) ++ b) with (c :: (a ++ b)).
        rewrite decode_loop_cons. cbv zeta.
        destruct (Z.eqb_spec len 0); [|contradiction].
        destruct (Z.eqb_spec (byte.unsigned c) 0); [contradiction|].
        apply E1.
    + destruct (Z.ltb_spec len 0x80) as [E8|E8].
      * destruct (IH 0) as (bs & evs & len1 & stop & Hl1 & Hs & Hsz & Hgo); [lia|].
        exists (replicate (Z.to_nat len) c ++ bs),
          (([EvGetc (byte.unsigned c) false]
            ++ replicate (Z.to_nat len) (EvPutc DecRun c true)) ++ evs),
          len1, stop.
        split; [exact Hl1|]. split; [intros Hn; split; [apply Hs, Hn|];
                                     apply last_app_Some, (Hs Hn)|].
        split.
        { rewrite length_app, length_replicate. cbn [length].
          pose proof (owed_run len). rewrite (owed_idle 0) in Hsz by lia. lia. }
        intros io Hio.
        pose proof (grows_log io (EvGetc (byte.unsigned c) false)) as G0.
        pose proof (obliging_grows _ _ _ _ Hio G0) as Hio0.
        destruct (decode_run_obliging (Z.to_nat len) (byte.unsigned c) len _ Hio0)
          as (io1 & Er & G1); [lia | lia |].
        rewrite byte.of_Z_unsigned in G1.
        pose proof (grows_trans _ _ _ [] _ _ _ G0 G1) as G01.
        destruct (Hgo _ (obliging_grows _ _ _ _ Hio G01)) as (io2 & G2 & E2).
        exists io2. split; [exact (grows_trans _ _ _ _ _ _ _ G01 G2)|].
        intros b bad. change ((c :: a) ++ b) with (c :: (a ++ b)).
        rewrite decode_loop_cons. cbv zeta.
        destruct (Z.eqb_spec len 0); [contradiction|].
        destruct (Z.ltb_spec len 0x80); [|lia].
        rewrite Er. cbn [mbind option_bind]. apply E2.
      * destruct (IH ((len + 1) mod 0x100))
          as (bs & evs & len1 & stop & Hl1 & Hs & Hsz & Hgo).
        { apply Z.mod_pos_bound. lia. }
        exists ([c] ++ bs),
          ([EvGetc (byte.unsigned c) false; EvPutc DecLiteral c true] ++ evs),
          len1, stop.
        split; [exact Hl1|]. split; [intros Hn; split; [apply Hs, Hn|];
                                     apply last_app_Some, (Hs Hn)|].
        split.
        { cbn [length app]. rewrite (owed_idle len) by lia.
          assert (owed ((len + 1) mod 0x100) = 0) as Hz.
          { destruct (Z.eq_dec len 255) as [->|]; [reflexivity|].
            rewrite Z.mod_small by lia. apply owed_idle. lia. }
          rewrite Hz in Hsz. lia. }
        intros io Hio.
        pose proof (grows_log io (EvGetc (byte.unsigned c) false)) as G0.
        pose proof (obliging_grows _ _ _ _ Hio G0) as Hio0.
        destruct (fputc_obliging DecLiteral (byte.unsigned c) _ Hio0)
          as (io1 & Ep & G1).
        rewrite byte.of_Z_unsigned in Ep, G1.
        pose proof (grows_trans _ _ _ [] _ [_] _ G0 G1) as G01.
        destruct (Hgo _ (obliging_grows _ _ _ _ Hio G01)) as (io2 & G2 & E2).
        exists io2. split; [exact (grows_trans _ _ _ _ _ _ _ G01 G2)|].
        intros b bad. change ((c :: a) ++ b) with (c :: (a ++ b)).
        rewrite decode_loop_cons. cbv zeta.
        destruct (Z.eqb_spec len 0); [contradiction|].
        destruct (Z.ltb_spec len 0x80); [lia|].
        rewrite Ep, fputc_not_EOF. apply E2.
Qed.

Lemma streams_decode_status len rest io :
  streams (decode_status len rest io) = io
  /\ unread (decode_status len rest io) = rest.
Proof.
  unfold decode_status.
  destruct (in_err io); [|destruct (out_err io); [|destruct (negb _)]];
    split; reflexivity.
Qed.

(** [decode] with working streams, told by the pieces of
    [decode_loop_split]. *)
Lemma decode_willing_split a :
  exists bs evs len1 stop io1,
    0 <= len1 < 0x100
    /\ (stop <> None -> len1 = 0 /\ last evs = Some (EvGetc 0 false))
    /\ 2 * Z.of_nat (length bs) <= 127 * Z.of_nat (length a)
    /\ obliging io1 /\ in_err io1 = false
    /\ out io1 = bs /\ trace io1 = evs
    /\ (forall b bad,
          decode_loop bad (a ++ b) 0 (fresh willing) = resume bad stop b len1 io1)
    /\ decode false a (fresh willing)
       = Some (match stop with
               | None =>
                   Result (if len1 =? 0 then 0 else - EIO)
                          (if len1 =? 0 then None else Some UnexpectedEnd)
                          [] (fgetc_end false io1)
               | Some rest => Result 0 None rest io1
               end).
Proof.
  destruct (decode_loop_split a 0) as (bs & evs & len1 & stop & Hl & Hs & Hsz & Hgo);
    [lia|].
  destruct (Hgo _ obliging_fresh) as (io1 & G & E).
  pose proof (obliging_grows _ _ _ _ obliging_fresh G) as Hio1.
  destruct G as [Ga Go Ge Gi Gt]. cbn in Go, Ge, Gi, Gt.
  exists bs, evs, len1, stop, io1. split; [exact Hl|]. split; [exact Hs|].
  split.
  { pose proof (owed_range len1). rewrite (owed_idle 0) in Hsz by lia. lia. }
  split; [exact Hio1|]. split; [exact Gi|]. split; [exact Go|].
  split; [exact Gt|]. split; [exact E|].
  unfold decode. rewrite <- (app_nil_r a) at 1. rewrite E.
  destruct stop as [rest|]; cbn [resume mbind option_bind].
  - rewrite app_nil_r. unfold decode_status. rewrite Gi, Ge.
    destruct (Hs ltac:(discriminate)) as [-> _]. reflexivity.
  - change (decode_loop false [] len1 io1)
      with (Some (len1, @nil byte, fgetc_end false io1)).
    cbn [mbind option_bind]. unfold decode_status. cbn [in_err out_err fgetc_end log].
    rewrite Gi, Ge. cbn [orb]. destruct (len1 =? 0); reflexivity.
Qed.

Lemma decode_finish inp io stop len1 io1 :
  decode_loop false inp 0 io = resume false stop [] len1 io1 ->
  obliging io1 -> in_err io1 = false -> (stop <> None -> len1 = 0) ->
  decode false inp io
  = Some (Result (if len1 =? 0 then 0 else - EIO)
                 (if len1 =? 0 then None else Some UnexpectedEnd)
                 (left_over stop)
                 (match stop with
                  | None => fgetc_end false io1
                  | Some _ => io1
                  end)).
Proof.
  intros E [He _] Hi Hs. unfold decode. rewrite E.
  destruct stop as [rest|]; cbn [resume left_over].
  - rewrite app_nil_r. cbn [mbind option_bind]. unfold decode_status.
    rewrite Hi, He, (Hs ltac:(discriminate)). reflexivity.
  - change (decode_loop false [] len1 io1)
      with (Some (len1, @nil byte, fgetc_end false io1)).
    cbn [mbind option_bind]. unfold decode_status.
    cbn [in_err out_err fgetc_end log]. rewrite Hi, He. cbn [orb].
    destruct (len1 =? 0); reflexivity.
Qed.

(** X1. Compressed streams compose: when [decode] accepts [a] and has read
    it to its end, [decode] on [a ++ b] writes what it writes for [a]
    followed by what it writes for [b], and returns what it returns for
    [b]. *)
Theorem decode_concat (a b : list byte) (ra : result) :
  decode false a (fresh willing) = Some ra ->
  status ra = 0 ->
  last (trace (streams ra)) = Some (EvGetc EOF false) ->
  exists rb r,
    decode false b (fresh willing) = Some rb
    /\ decode false (a ++ b) (fresh willing) = Some r
    /\ out (streams r) = out (streams ra) ++ out (streams rb)
    /\ status r = status rb /\ printed r = printed rb
    /\ unread r = unread rb.
Proof.
  intros Ea Hst Hlast.
  destruct (decode_willing_split a)
    as (bs & evs & len1 & stop & io1 & Hl & Hs & _ & Hio1 & Hi1 & Ho1 & Ht1 & E & Ea').
  rewrite Ea' in Ea. injection Ea as <-.
  destruct stop as [rest|].
  { cbn [streams] in Hlast. rewrite Ht1 in Hlast.
    destruct (Hs ltac:(discriminate)) as [_ Hl0]. rewrite Hl0 in Hlast.
    discriminate. }
  cbn [status] in Hst.
  destruct (Z.eqb_spec len1 0) as [->|]; [|unfold EIO in Hst; lia].
  destruct (decode_loop_split b 0) as (bsb & evb & lenb & stopb & Hlb & Hsb & _ & Hgo);
    [lia|].
  destruct (Hgo _ obliging_fresh) as (iob & Gb & Eb).
  destruct (Hgo _ Hio1) as (io2 & G2 & E2).
  specialize (Eb [] false). specialize (E2 [] false).
  rewrite app_nil_r in Eb, E2.
  specialize (E b false). cbn [resume] in E. rewrite E2 in E.
  pose proof (decode_finish b (fresh willing) stopb lenb iob Eb
                (obliging_grows _ _ _ _ obliging_fresh Gb)
                (grows_in_err _ _ _ _ Gb) (fun H => proj1 (Hsb H))) as Rb.
  pose proof (decode_finish (a ++ b) (fresh willing) stopb lenb io2 E
                (obliging_grows _ _ _ _ Hio1 G2)
                (eq_trans (grows_in_err _ _ _ _ G2) Hi1)
                (fun H => proj1 (Hsb H))) as R.
  eexists _, _. split; [exact Rb|]. split; [exact R|].
  cbn [streams status printed unread].
  split; [|repeat split].
  pose proof (grows_out _ _ _ _ Gb) as Hob. cbn in Hob.
  pose proof (grows_out _ _ _ _ G2) as Ho2.
  destruct stopb; cbn [out fgetc_end log]; rewrite Ho2, Hob; reflexivity.
Qed.

Lemma decode_concat_witness :
  exists ra,
    decode false [Byte.x02; Byte.x41] (fresh willing) = Some ra
    /\ exists rb r,
         decode false [Byte.xff; Byte.x42] (fresh willing) = Some rb
         /\ decode false ([Byte.x02; Byte.x41] ++ [Byte.xff; Byte.x42])
              (fresh willing) = Some r
         /\ out (streams r) = out (streams ra) ++ out (streams rb)
         /\ status r = status rb /\ printed r = printed rb
         /\ unread r = unread rb.
Proof.
  eexists. split; [vm_compute; reflexivity|].
  exact (decode_concat [Byte.x02; Byte.x41] [Byte.xff; Byte.x42] _
           eq_refl eq_refl eq_refl).
Defined.

(** X2. [decode] writes as it reads: what it has written for a prefix of
    its input is the beginning of what it writes for the whole. *)
Theorem decode_prefix (a b : list byte) :
  exists ra r more,
    decode false a (fresh willing) = Some ra
    /\ decode false (a ++ b) (fresh willing) = Some r
    /\ out (streams r) = out (streams ra) ++ more.
Proof.
  destruct (decode_willing_split a)
    as (bs & evs & len1 & stop & io1 & Hl & Hs & _ & Hio1 & Hi1 & Ho1 & Ht1 & E & Ea).
  specialize (E b false).
  destruct stop as [rest|].
  - eexists _, _, []. split; [exact Ea|].
    split.
    + unfold decode. rewrite E. cbn [resume mbind option_bind]. reflexivity.
    + rewrite (proj1 (streams_decode_status _ _ _)). cbn [streams].
      rewrite app_nil_r. reflexivity.
  - cbn [resume] in E.
    destruct (decode_loop_split b len1 Hl)
      as (bsb & evb & lenb & stopb & Hlb & Hsb & _ & Hgo).
    destruct (Hgo _ Hio1) as (io2 & G2 & E2).
    specialize (E2 [] false). rewrite app_nil_r in E2. rewrite E2 in E.
    assert (exists l rest io3,
              resume false stopb [] lenb io2 = Some (l, rest, io3)
              /\ out io3 = out io2) as (l & rest & io3 & Er & Ho3).
    { destruct stopb as [rest|]; cbn [resume].
      - exists 0, (rest ++ []), io2. split; reflexivity.
      - exists lenb, [], (fgetc_end false io2). split; reflexivity. }
    eexists _, _, bsb. split; [exact Ea|].
    split.
    + unfold decode. rewrite E, Er. cbn [mbind option_bind]. reflexivity.
    + rewrite (proj1 (streams_decode_status _ _ _)). cbn [streams].
      rewrite Ho3, (grows_out _ _ _ _ G2). reflexivity.
Qed.

(** X3. [decode] writes at most 127 bytes for every 2 bytes it is given. *)
Theorem decode_output_bound (inp : list byte) :
  exists r,
    decode false inp (fresh willing) = Some r
    /\ 2 * Z.of_nat (length (out (streams r)))
       <= 127 * Z.of_nat (length inp).
Proof.
  destruct (decode_willing_split inp)
    as (bs & evs & len1 & stop & io1 & _ & _ & Hsz & _ & _ & Ho1 & _ & _ & E).
  eexists. split; [exact E|].
  destruct stop; cbn [streams out fgetc_end log]; rewrite Ho1; exact Hsz.
Qed.

(** X4. A zero length byte after a stream that [decode] accepts and reads to
    its end stops the decoding: the output is the same, the status is 0
    and what follows the zero byte is not read. *)
Theorem decode_stops_at_zero (a junk : list byte) (ra : result) :
  decode false a (fresh willing) = Some ra ->
  status ra = 0 ->
  last (trace (streams ra)) = Some (EvGetc EOF false) ->
  exists r,
    decode false (a ++ Byte.x00 :: junk) (fresh willing) = Some r
    /\ status r = 0 /\ printed r = None
    /\ unread r = junk
    /\ out (streams r) = out (streams ra).
Proof.
  intros Ea Hst Hlast.
  destruct (decode_willing_split a)
    as (bs & evs & len1 & stop & io1 & Hl & Hs & _ & Hio1 & Hi1 & Ho1 & Ht1 & E & Ea').
  rewrite Ea' in Ea. injection Ea as <-.
  destruct stop as [rest|].
  { cbn [streams] in Hlast. rewrite Ht1 in Hlast.
    destruct (Hs ltac:(discriminate)) as [_ Hl0]. rewrite Hl0 in Hlast.
    discriminate. }
  cbn [status] in Hst.
  destruct (Z.eqb_spec len1 0) as [->|]; [|unfold EIO in Hst; lia].
  specialize (E (Byte.x00 :: junk) false). cbn [resume] in E.
  rewrite decode_loop_cons in E. cbv zeta in E.
  change (byte.unsigned Byte.x00) with 0 in E. cbn [Z.eqb] in E.
  eexists. split.
  - unfold decode. rewrite E. cbn [mbind option_bind]. reflexivity.
  - unfold decode_status. cbn [in_err out_err log]. rewrite Hi1.
    destruct Hio1 as [-> _]. cbn. repeat split.
Qed.

Lemma decode_stops_at_zero_witness :
  exists ra,
    decode false [Byte.x02; Byte.x41] (fresh willing) = Some ra
    /\ exists r,
         decode false ([Byte.x02; Byte.x41] ++ Byte.x00 :: [Byte.x07])
           (fresh willing) = Some r
         /\ status r = 0 /\ printed r = None
         /\ unread r = [Byte.x07]
         /\ out (streams r) = out (streams ra).
Proof.
  eexists. split; [vm_compute; reflexivity|].
  exact (decode_stops_at_zero [Byte.x02; Byte.x41] [Byte.x07] _
           eq_refl eq_refl eq_refl).
Defined.

(** ** The size of what encode writes *)

Lemma length_wire_expand s :
  in_bounds s ->
  (exists n, s = Run n (match s with Run _ b => b | _ => Byte.x00 end)
             /\ 2 <= n <= 127
             /\ length (wire s) = 2%nat
             /\ Z.of_nat (length (expand s)) = n)
  \/ (exists n bs, s = Literal n bs /\ 1 <= n <= 128
                   /\ Z.of_nat (length (wire s)) = n + 1
                   /\ Z.of_nat (length (expand s)) = n).
Proof.
  destruct s as [n b | n bs]; cbn [in_bounds]; intros H.
  - left. exists n. cbn. rewrite length_replicate. repeat split; lia.
  - right. exists n, bs. cbn [wire expand length]. repeat split; lia.
Qed.

(** The worst case: a copy of one byte (2 bytes for 1) has to be followed
    by a run (2 bytes for 2 at least), so 3 bytes of input take 4 of
    output at most, but for a last copy. *)
Lemma linked_weight prev segs :
  linked prev segs -> Forall in_bounds segs ->
  3 * Z.of_nat (length (flat_map wire segs))
  <= 4 * Z.of_nat (length (flat_map expand segs))
     + match segs with
       | Run _ _ :: _ => 0
       | _ => 2
       end.
Proof.
  revert prev. induction segs as [|s segs IH]; intros prev Hl Hb.
  - simpl. lia.
  - cbn [linked] in Hl. destruct Hl as [_ Hl].
    apply Forall_cons in Hb. destruct Hb as [Hs Hb].
    specialize (IH _ Hl Hb). cbn [flat_map]. rewrite !length_app.
    destruct (length_wire_expand s Hs)
      as [(n & -> & Hn & Hw & He) | (n & bs & -> & Hn & Hw & He)].
    + destruct segs as [|[]]; lia.
    + destruct segs as [|[m c|m cs] segs].
      * simpl in *. lia.
      * lia.
      * cbn [linked meets] in Hl. destruct Hl as [-> _]. lia.
Qed.

Lemma expand_weight segs :
  Forall in_bounds segs ->
  2 * Z.of_nat (length (flat_map expand segs))
  <= 127 * Z.of_nat (length (flat_map wire segs)).
Proof.
  induction 1 as [|s segs Hs _ IH]; [simpl; lia|].
  cbn [flat_map]. rewrite !length_app.
  destruct (length_wire_expand s Hs)
    as [(n & _ & Hn & Hw & He) | (n & bs & _ & Hn & Hw & He)]; lia.
Qed.

(** X5. What [encode] writes for [n] bytes is never longer than
    [(4 n + 2) / 3] bytes, and never shorter than [2 n / 127]. *)
Theorem encode_size_bounds (junk : nat -> byte) (S : list byte) :
  exists segs r,
    encode junk false S (fresh willing) = Some (segs, r)
    /\ 3 * Z.of_nat (length (out (streams r))) <= 4 * Z.of_nat (length S) + 2
    /\ 2 * Z.of_nat (length S) <= 127 * Z.of_nat (length (out (streams r))).
Proof.
  destruct (encode_obliging junk S) as (segs & io' & E & Ho & Hk & Hb & Hl).
  exists segs, (Result 0 None [] io'). split; [exact E|].
  cbn [streams]. rewrite Ho, <- Hk. split.
  - pose proof (linked_weight None segs Hl Hb). destruct segs as [|[]]; lia.
  - apply expand_weight. exact Hb.
Qed.

(** X6. Encoded streams can be put one after the other: decoding what
    [encode] wrote for [S1] followed by what it wrote for [S2] gives
    [S1 ++ S2]. *)
Theorem decode_encode_concat (junk1 junk2 : nat -> byte) (S1 S2 : list byte) :
  exists segs1 r1 segs2 r2 r,
    encode junk1 false S1 (fresh willing) = Some (segs1, r1)
    /\ encode junk2 false S2 (fresh willing) = Some (segs2, r2)
    /\ decode false (out (streams r1) ++ out (streams r2)) (fresh willing)
       = Some r
    /\ status r = 0 /\ printed r = None /\ unread r = []
    /\ out (streams r) = S1 ++ S2.
Proof.
  destruct (encode_obliging junk1 S1) as (segs1 & io1 & E1 & Ho1 & Hk1 & Hb1 & _).
  destruct (encode_obliging junk2 S2) as (segs2 & io2 & E2 & Ho2 & Hk2 & Hb2 & _).
  destruct (decode_wire (segs1 ++ segs2) None) as (io3 & Ed & Hi & He & Hout & _).
  { apply Forall_app. split;
      (eapply Forall_impl; [eassumption | apply in_bounds_well_formed]). }
  cbn [terminator left_over] in Ed. rewrite app_nil_r, flat_map_app in Ed.
  eexists segs1, _, segs2, _, (Result 0 None [] io3).
  split; [exact E1|]. split; [exact E2|]. cbn [streams]. rewrite Ho1, Ho2.
  split.
  { unfold decode. rewrite Ed. cbn [mbind option_bind].
    unfold decode_status. rewrite Hi, He. reflexivity. }
  repeat split. cbn [streams]. rewrite Hout, flat_map_app, Hk1, Hk2.
  reflexivity.
Qed.

(** ** encode and the bytes of buf it never stored *)

Lemma encode_body_akin ch st1 st2 io :
  steady st1 -> steady st2 -> akin st1 st2 ->
  ch = EOF \/ (exists c, ch = byte.unsigned c) ->
  exists fl st1' st2' io',
    encode_body ch st1 io = Some (fl, st1', io')
    /\ encode_body ch st2 io = Some (fl, st2', io')
    /\ emitted st1' = emitted st2'
    /\ (fl = Next -> (ch =? EOF) = false ->
        steady st1' /\ steady st2' /\ akin st1' st2').
Proof.
  intros H1 H2 (Hlen & Hrep & Hem & Hwin) Hch.
  assert (exists w, fed ch st1 w /\ fed ch st2 w) as (w & F1 & F2).
  { destruct Hch as [-> | (c & ->)].
    - exists (window st1). split; left; split; auto.
    - exists (window st1 ++ [c]). split; right; exists c; split; auto.
      rewrite Hwin. reflexivity. }
  destruct (encode_body_round ch st1 io w H1 F1)
    as (segs1 & w1' & rep1' & st1' & _ & E1 & _ & Hem1 & Hn1).
  destruct (encode_body_round ch st2 io w H2 F2)
    as (segs2 & w2' & rep2' & st2' & _ & E2 & _ & Hem2 & Hn2).
  cbv zeta in *. rewrite <- Hrep in E2, Hem2, Hn2.
  exists (round_flow (ch =? EOF) (repeat st1) w io), st1', st2',
    (round_io (ch =? EOF) (repeat st1) w io).
  split; [exact E1|]. split; [exact E2|].
  split; [rewrite Hem1, Hem2, Hem; reflexivity|].
  intros Hfl Heof.
  destruct (Hn1 Hfl Heof) as (S1 & W1 & R1).
  destruct (Hn2 Hfl Heof) as (S2 & W2 & R2).
  split; [exact S1|]. split; [exact S2|].
  destruct H1 as (Hb1 & Hl1 & Ht1), H2 as (Hb2 & Hl2 & Ht2).
  assert (repeat st1 = true -> 2 <= Z.of_nat (length w)) as Hr1.
  { intros E. rewrite E in Ht1. apply tidy_run_length in Ht1.
    destruct F1 as [[_ ->] | (c & _ & ->)]; rewrite ?length_app; cbn [length]; lia. }
  destruct (encode_body_window ch st1 io w Hb1 Hl1 F1 Hr1)
    as (x1 & X1 & _ & Y1).
  destruct (encode_body_window ch st2 io w Hb2 Hl2 F2
              ltac:(rewrite <- Hrep; exact Hr1))
    as (x2 & X2 & _ & Y2).
  cbv zeta in *. rewrite <- Hrep in X2, Y2.
  rewrite E1 in X1. injection X1 as <-.
  rewrite E2 in X2. injection X2 as <-.
  destruct (Y1 Hfl) as (_ & Ra & La & Wa).
  destruct (Y2 Hfl) as (_ & Rb & Lb & Wb).
  split; [congruence|]. split; [congruence|].
  split; [rewrite Hem1, Hem2, Hem; reflexivity | congruence].
Qed.

Lemma encode_loop_akin bad inp : forall st1 st2 io,
  steady st1 -> steady st2 -> akin st1 st2 ->
  exists st1' st2' rest io',
    encode_loop bad inp st1 io = Some (st1', rest, io')
    /\ encode_loop bad inp st2 io = Some (st2', rest, io')
    /\ emitted st1' = emitted st2'.
Proof.
  induction inp as [|c inp IH]; intros st1 st2 io H1 H2 Hak.
  - rewrite !encode_loop_nil.
    destruct (encode_body_akin EOF st1 st2 (fgetc_end bad io) H1 H2 Hak)
      as (fl & st1' & st2' & io' & -> & -> & Hem & _); [left; reflexivity|].
    cbn [mbind option_bind]. eexists _, _, _, _. repeat split. exact Hem.
  - rewrite !encode_loop_cons.
    destruct (encode_body_akin (byte.unsigned c) st1 st2
                (log (EvGetc (byte.unsigned c) false) io) H1 H2 Hak)
      as (fl & st1' & st2' & io' & -> & -> & Hem & Hn); [right; eauto|].
    cbn [mbind option_bind]. destruct fl.
    + destruct (Hn eq_refl (fputc_not_EOF c)) as (S1 & S2 & Hak').
      apply IH; assumption.
    + eexists _, _, _, _. repeat split. exact Hem.
Qed.

(** X7. [encode] never uses a byte of [buf] it has not stored: whatever the
    array holds at the start, segments, status, message, output and calls
    are the same. *)
Theorem encode_ignores_junk (junk1 junk2 : nat -> byte) (bad : bool)
    (inp : list byte) (io : stdio) :
  encode junk1 bad inp io = encode junk2 bad inp io.
Proof.
  unfold encode.
  destruct (encode_loop_akin bad inp (Enc 0 false (fresh_buf junk1) [])
              (Enc 0 false (fresh_buf junk2) []) io
              (steady_start junk1) (steady_start junk2))
    as (st1' & st2' & rest & io' & -> & -> & Hem).
  { repeat split. }
  cbn [mbind option_bind]. rewrite Hem. reflexivity.
Qed.

(** ** encode when the input fails *)

Lemma encode_body_read_error st io :
  in_err io = true -> encode_body EOF st io = Some (Break, st, io).
Proof.
  intros H. unfold encode_body. cbn [encode_store Z.eqb EOF negb].
  change (encode_store (-1) st) with (Some st). cbn [mbind option_bind].
  change (-1 =? -1) with true. rewrite H. reflexivity.
Qed.

(** The loop with working output and an input that ends in a read error:
    the segments written stand for all the bytes read but those still in
    the buffer. *)
Lemma encode_loop_read_error inp : forall st io,
  steady st -> obliging io -> in_err io = false ->
  exists st' io' segs evs,
    encode_loop true inp st io = Some (st', [], fgetc_end true io')
    /\ emitted st' = emitted st ++ segs
    /\ flat_map expand segs ++ window st' = window st ++ inp
    /\ steady st'
    /\ Forall in_bounds segs
    /\ grows io io' (flat_map wire segs) evs.
Proof.
  induction inp as [|c inp IH]; intros st io Hst Hio Hin.
  - rewrite encode_loop_nil, encode_body_read_error
      by (cbn; apply orb_true_r).
    cbn [mbind option_bind]. exists st, io, [], [].
    split; [reflexivity|]. rewrite !app_nil_r.
    repeat split; try assumption; try apply Hst; try constructor;
      rewrite ?app_nil_r; reflexivity.
  - rewrite encode_loop_cons.
    set (io0 := log (EvGetc (byte.unsigned c) false) io).
    pose proof (grows_log io (EvGetc (byte.unsigned c) false)) as G0.
    fold io0 in G0.
    destruct (encode_body_round (byte.unsigned c) st io0 (window st ++ [c]) Hst)
      as (segs & w' & rep' & st' & Hr & -> & Hsegs & Hem & Hnext).
    { right. exists c. split; reflexivity. }
    rewrite fputc_not_EOF in *. cbn [andb] in Hsegs. rewrite Hsegs in Hem.
    pose proof (obliging_grows _ _ _ _ Hio G0) as Hio0.
    assert (grows io0 (round_io false (repeat st) (window st ++ [c]) io0)
              (flat_map wire segs) (flat_map writing segs)) as G1.
    { unfold round_io. rewrite Hsegs. apply put_segments_obliging. exact Hio0. }
    pose proof (obliging_grows _ _ _ _ Hio0 G1) as Hio1.
    assert (round_flow false (repeat st) (window st ++ [c]) io0 = Next) as Hflow.
    { unfold round_flow. cbn [andb]. destruct Hio1 as [-> _].
      rewrite andb_false_r. reflexivity. }
    rewrite Hflow in *. cbn [mbind option_bind].
    destruct (Hnext eq_refl eq_refl) as (Hst' & Hw' & Hrep').
    destruct (IH st' _ Hst' Hio1)
      as (st2 & io2 & segs2 & evs2 & -> & Hem2 & Hk2 & Hst2 & Hb2 & G2).
    { rewrite (grows_in_err _ _ _ _ G1), (grows_in_err _ _ _ _ G0). exact Hin. }
    exists st2, io2, (segs ++ segs2),
      (([EvGetc (byte.unsigned c) false] ++ flat_map writing segs) ++ evs2).
    split; [reflexivity|].
    split; [rewrite Hem2, Hem, app_assoc; reflexivity|].
    split.
    { rewrite flat_map_app, <- app_assoc, Hk2, Hw'.
      rewrite app_assoc, (round_keeps _ _ _ _ _ _ _ Hr), <- app_assoc.
      reflexivity. }
    split; [exact Hst2|].
    split; [apply Forall_app; split; [eapply round_bounds; exact Hr | exact Hb2]|].
    rewrite flat_map_app.
    pose proof (grows_trans _ _ _ _ _ _ _ G0 G1) as G01.
    apply (grows_trans _ _ _ _ _ _ _ G01 G2).
Qed.

(** X8. When reading fails, [encode] returns [-EIO] with "Input error." and
    writes nothing more: the bytes still in its buffer, at most 128, are
    dropped, and what it has written is a complete stream that decodes to
    the bytes read before them. *)
Theorem encode_read_error (junk : nat -> byte) (S : list byte) :
  exists segs r tail,
    encode junk true S (fresh willing) = Some (segs, r)
    /\ status r = - EIO /\ printed r = Some InputError
    /\ out (streams r) = flat_map wire segs
    /\ S = flat_map expand segs ++ tail
    /\ (length tail <= 128)%nat
    /\ exists r',
         decode false (out (streams r)) (fresh willing) = Some r'
         /\ status r' = 0
         /\ out (streams r') ++ tail = S.
Proof.
  destruct (encode_loop_read_error S (Enc 0 false (fresh_buf junk) [])
              (fresh willing) (steady_start junk) obliging_fresh eq_refl)
    as (st' & io' & segs & evs & E & Hem & Hk & Hst & Hb & G).
  exists segs, (Result (- EIO) (Some InputError) [] (fgetc_end true io')),
    (window st').
  unfold encode. rewrite E. cbn [mbind option_bind].
  split.
  { unfold encode_status. cbn [in_err fgetc_end log].
    rewrite orb_true_r, Hem. reflexivity. }
  split; [reflexivity|]. split; [reflexivity|].
  cbn [streams out fgetc_end log]. rewrite (grows_out _ _ _ _ G).
  cbn [fresh out app].
  split; [reflexivity|].
  split; [rewrite Hk; reflexivity|].
  split; [destruct Hst as (_ & _ & Ht); apply (tidy_length _ _ Ht)|].
  destruct (decode_wire segs None) as (io2 & Ed & Hi & He & Hout & _).
  { eapply Forall_impl; [exact Hb | apply in_bounds_well_formed]. }
  cbn [terminator left_over] in Ed. rewrite app_nil_r in Ed.
  exists (Result 0 None [] io2). split.
  { unfold decode. rewrite Ed. cbn [mbind option_bind].
    unfold decode_status. rewrite Hi, He. reflexivity. }
  split; [reflexivity|]. cbn [streams]. rewrite Hout, Hk. reflexivity.
Qed.

(** ** Runs that end without error, whatever the output might have refused *)

Lemma alike_log e io iow : alike io iow -> alike (log e io) (log e iow).
Proof.
  intros (Ho & He & Hi & Ht). repeat split; cbn; congruence.
Qed.

Lemma alike_fgetc_end bad io iow :
  alike io iow -> alike (fgetc_end bad io) (fgetc_end bad iow).
Proof.
  intros (Ho & He & Hi & Ht). repeat split; cbn; congruence.
Qed.

Lemma obliging_log e io : obliging io -> obliging (log e io).
Proof. intros H. exact (obliging_grows _ _ _ _ H (grows_log io e)). Qed.

Lemma obliging_fgetc_end bad io : obliging io -> obliging (fgetc_end bad io).
Proof. intros [He Ha]. split; [exact He | exact Ha]. Qed.

(** A byte offered to both: accepted by both, or refused by the first. *)
Lemma offer_alike b io iow :
  alike io iow -> obliging iow ->
  exists (ok : bool) io1 iow1,
    offer b io = (ok, io1) /\ offer b iow = (true, iow1)
    /\ obliging iow1
    /\ (if ok then alike io1 iow1 else out_err io1 = true).
Proof.
  intros (Ho & He & Hi & Ht) [Hew Ha]. unfold offer. rewrite (Ha (offered iow)).
  destruct (answers io (offered io)).
  - eexists true, _, _. split; [reflexivity|]. split; [reflexivity|].
    split; [split; [exact Hew | exact Ha]|].
    repeat split; cbn; congruence.
  - eexists false, _, _. split; [reflexivity|]. split; [reflexivity|].
    split; [split; [exact Hew | exact Ha]|]. reflexivity.
Qed.

Lemma fputc_alike s c io iow :
  alike io iow -> obliging iow ->
  exists (ok : bool) io1 iow1,
    fputc s c io = ((if ok then byte.unsigned (byte.of_Z c) else EOF), io1)
    /\ fputc s c iow = (byte.unsigned (byte.of_Z c), iow1)
    /\ obliging iow1
    /\ (if ok then alike io1 iow1 else out_err io1 = true).
Proof.
  intros Hal Hob. unfold fputc.
  destruct (offer_alike (byte.of_Z c) io iow Hal Hob)
    as (ok & io1 & iow1 & -> & -> & Hob1 & H).
  exists ok, (log (EvPutc s (byte.of_Z c) ok) io1),
    (log (EvPutc s (byte.of_Z c) true) iow1).
  split; [reflexivity|]. split; [reflexivity|].
  split; [apply obliging_log; exact Hob1|].
  destruct ok; [apply alike_log; exact H | exact H].
Qed.

Lemma offer_all_alike bs : forall io iow,
  alike io iow -> obliging iow ->
  exists (ok : bool) io1 iow1,
    offer_all bs io = (ok, io1) /\ offer_all bs iow = (true, iow1)
    /\ obliging iow1
    /\ (if ok then alike io1 iow1 else out_err io1 = true).
Proof.
  induction bs as [|b bs IH]; intros io iow Hal Hob.
  - exists true, io, iow. repeat split; try apply Hob; apply Hal.
  - cbn [offer_all].
    destruct (offer_alike b io iow Hal Hob)
      as (ok & io1 & iow1 & -> & -> & Hob1 & H).
    destruct ok.
    + apply IH; assumption.
    + destruct (IH iow1 iow1) as (ok & x & iow2 & _ & -> & Hob2 & _);
        [repeat split | exact Hob1 |].
      exists false, io1, iow2. repeat split; try apply Hob2. exact H.
Qed.

Lemma out_err_offer b io : out_err io = true -> out_err (offer b io).2 = true.
Proof. intros H. unfold offer. destruct (answers io (offered io)); auto. Qed.

Lemma out_err_fputc s c io : out_err io = true -> out_err (fputc s c io).2 = true.
Proof.
  intros H. unfold fputc. pose proof (out_err_offer (byte.of_Z c) io H) as H1.
  destruct (offer (byte.of_Z c) io). exact H1.
Qed.

Lemma out_err_offer_all bs : forall io,
  out_err io = true -> out_err (offer_all bs io).2 = true.
Proof.
  induction bs as [|b bs IH]; intros io H; [exact H|]. cbn [offer_all].
  pose proof (out_err_offer b io H) as H1.
  destruct (offer b io) as [[] io1]; [apply IH|]; exact H1.
Qed.

Lemma out_err_fwrite s bs io : out_err io = true -> out_err (fwrite s bs io) = true.
Proof.
  intros H. unfold fwrite. pose proof (out_err_offer_all bs io H) as H1.
  destruct (offer_all bs io). exact H1.
Qed.

(** A segment put on both: the same on both, or an error on the first. *)
Lemma put_segment_alike s io iow :
  alike io iow -> obliging iow ->
  obliging (put_segment s iow)
  /\ (out_err (put_segment s io) = true
      \/ alike (put_segment s io) (put_segment s iow)).
Proof.
  intros Hal Hob. destruct s as [n b | n bs]; cbn [put_segment].
  - destruct (fputc_alike EncRunLen n io iow Hal Hob)
      as (ok1 & io1 & iow1 & E1 & -> & Hob1 & H1).
    rewrite E1. destruct ok1.
    + destruct (fputc_alike EncRunByte (byte.unsigned b) io1 iow1 H1 Hob1)
        as (ok2 & io2 & iow2 & E2 & -> & Hob2 & H2).
      rewrite E2. split; [exact Hob2|]. destruct ok2; [right | left]; exact H2.
    + pose proof (out_err_fputc EncRunByte (byte.unsigned b) io1 H1) as H2.
      destruct (fputc EncRunByte (byte.unsigned b) io1).
      destruct (fputc_alike EncRunByte (byte.unsigned b) iow1 iow1)
        as (ok & x & iow2 & _ & -> & Hob2 & _);
        [repeat split | exact Hob1 |].
      split; [exact Hob2 | left; exact H2].
  - destruct (fputc_alike EncLitLen (0x100 - n) io iow Hal Hob)
      as (ok1 & io1 & iow1 & E1 & -> & Hob1 & H1).
    rewrite E1.
    assert (obliging (fwrite EncLitData bs iow1)) as Hob2.
    { exact (obliging_grows _ _ _ _ Hob1 (fwrite_obliging _ _ _ Hob1)). }
    split; [exact Hob2|]. destruct ok1.
    + unfold fwrite.
      destruct (offer_all_alike bs io1 iow1 H1 Hob1)
        as (ok2 & io2 & iow2 & -> & -> & _ & H2).
      destruct ok2; [right; apply alike_log; exact H2 | left; exact H2].
    + left. apply out_err_fwrite. exact H1.
Qed.

(** What a round does to the streams: nothing, or one segment put. *)
Lemma encode_flush_shape ch st :
  (forall io, (if repeat st then encode_repeat ch st io
               else encode_copy ch st io) = None)
  \/ exists flush st2,
       (flush = 0
        /\ forall io, (if repeat st then encode_repeat ch st io
                       else encode_copy ch st io) = Some (flush, st2, io))
       \/ (flush <> 0
           /\ exists seg,
                forall io, (if repeat st then encode_repeat ch st io
                            else encode_copy ch st io)
                           = Some (flush, st2, put_segment seg io)).
Proof.
  destruct (repeat st).
  - unfold encode_repeat.
    destruct (buf_get (buf st) (len st - 2)) as [a|]; [|left; reflexivity].
    destruct (buf_get (buf st) (len st - 1)) as [b|]; [|left; reflexivity].
    cbn [mbind option_bind].
    destruct (if negb (byte.unsigned a =? byte.unsigned b)
              then (len st - 1, false)
              else if (len st =? 127) || (ch =? EOF) then (len st, false)
                   else (0, true)) as [flush rep].
    destruct (Z.eqb_spec flush 0) as [-> | Hf]; cbn [negb].
    + right. eexists 0, _. left. split; [reflexivity|]. intros io. reflexivity.
    + destruct (buf_get (buf st) 0) as [c|]; [|left; reflexivity].
      right. eexists flush, _. right. split; [exact Hf|].
      exists (Run flush c). intros io. reflexivity.
  - unfold encode_copy.
    destruct (if 2 <=? len st
              then a ← buf_get (buf st) (len st - 2);
                   b ← buf_get (buf st) (len st - 1);
                   Some (byte.unsigned a =? byte.unsigned b)
              else Some false) as [same|]; [|left; reflexivity].
    cbn [mbind option_bind].
    destruct (if same then (len st - 2, true)
              else if len st =? 129 then (128, false)
                   else if ch =? EOF then (len st, false) else (0, false))
      as [flush rep].
    destruct (Z.eqb_spec flush 0) as [-> | Hf]; cbn [negb].
    + right. eexists 0, _. left. split; [reflexivity|]. intros io. reflexivity.
    + destruct (buf_prefix (buf st) flush) as [bs|]; [|left; reflexivity].
      right. eexists flush, _. right. split; [exact Hf|].
      exists (Literal flush bs). intros io. reflexivity.
Qed.

(** One round on two streams that agree so far, the second of which accepts
    all: the rounds agree, or the first ends in an output error. *)
Lemma encode_body_alike ch st io iow fl st' iow' :
  alike io iow -> obliging iow ->
  encode_body ch st iow = Some (fl, st', iow') ->
  obliging iow'
  /\ ((exists st0 io',
         encode_body ch st io = Some (Break, st0, io') /\ out_err io' = true)
      \/ exists io',
           encode_body ch st io = Some (fl, st', io') /\ alike io' iow').
Proof.
  intros Hal Hob. unfold encode_body.
  destruct (encode_store ch st) as [st1|]; [|discriminate].
  cbn [mbind option_bind].
  assert (in_err io = in_err iow) as -> by apply Hal.
  destruct ((ch =? EOF) && in_err iow).
  { intros [= <- <- <-]. split; [exact Hob|]. right. eauto. }
  destruct (encode_flush_shape ch st1)
    as [Hn | (flush & st2 & [(-> & Hs) | (Hf & seg & Hs)])].
  - rewrite Hn. discriminate.
  - rewrite !Hs. cbn [mbind option_bind encode_shift Z.eqb negb].
    intros [= <- <- <-]. split; [exact Hob|]. right. eauto.
  - rewrite !Hs. cbn [mbind option_bind]. unfold encode_shift.
    destruct (Z.eqb_spec flush 0) as [? | _]; [contradiction|]. cbn [negb].
    destruct (put_segment_alike seg io iow Hal Hob) as (Hob' & Hp).
    assert (out_err (put_segment seg iow) = false) as -> by apply Hob'.
    destruct (buf_move (buf st2) flush (len st2 - flush)) as [b3|];
      [|discriminate].
    cbn [mbind option_bind]. intros [= <- <- <-]. split; [exact Hob'|].
    destruct Hp as [He | Hal'].
    + left. rewrite He. eauto.
    + right. assert (out_err (put_segment seg io) = false) as ->.
      { destruct Hal' as (_ & -> & _). apply Hob'. }
      eauto.
Qed.

Lemma encode_loop_alike bad inp : forall st io iow st' rest iow',
  alike io iow -> obliging iow ->
  encode_loop bad inp st iow = Some (st', rest, iow') ->
  (exists st0 rest0 io',
     encode_loop bad inp st io = Some (st0, rest0, io') /\ out_err io' = true)
  \/ exists io',
       encode_loop bad inp st io = Some (st', rest, io') /\ alike io' iow'.
Proof.
  induction inp as [|c inp IH]; intros st io iow st' rest iow' Hal Hob.
  - rewrite !encode_loop_nil.
    destruct (encode_body EOF st (fgetc_end bad iow)) as [[[fl st1] iow1]|] eqn:E;
      [|discriminate].
    cbn [mbind option_bind]. intros [= <- <- <-].
    destruct (encode_body_alike EOF st (fgetc_end bad io) (fgetc_end bad iow)
                fl st1 iow1 (alike_fgetc_end bad io iow Hal)
                (obliging_fgetc_end bad iow Hob) E)
      as (_ & [(st0 & io' & -> & He) | (io' & -> & Hal')]);
      cbn [mbind option_bind]; [left | right]; eauto.
  - rewrite !encode_loop_cons.
    set (ev := EvGetc (byte.unsigned c) false).
    destruct (encode_body (byte.unsigned c) st (log ev iow))
      as [[[fl st1] iow1]|] eqn:E; [|discriminate].
    cbn [mbind option_bind]. intros Hl.
    destruct (encode_body_alike (byte.unsigned c) st (log ev io) (log ev iow)
                fl st1 iow1 (alike_log ev io iow Hal) (obliging_log ev iow Hob) E)
      as (Hob1 & [(st0 & io' & -> & He) | (io' & -> & Hal')]);
      cbn [mbind option_bind].
    + left. eauto.
    + destruct fl.
      * exact (IH st1 io' iow1 st' rest iow' Hal' Hob1 Hl).
      * injection Hl as <- <- <-. right. eauto.
Qed.

(** [encode] that returns 0, on any output: the run is the one an output
    that accepts all would have seen. *)
Lemma encode_zero (junk : nat -> byte) (bad : bool) (a : nat -> bool)
    (inp : list byte) (segs : list segment) (r : result) :
  encode junk bad inp (fresh a) = Some (segs, r) ->
  status r = 0 ->
  bad = false /\ printed r = None /\ unread r = []
  /\ out (streams r) = flat_map wire segs
  /\ flat_map expand segs = inp
  /\ Forall in_bounds segs.
Proof.
  intros E Hs. unfold encode in E.
  set (st0 := Enc 0 false (fresh_buf junk) []) in E.
  destruct (encode_loop bad inp st0 (fresh a)) as [[[st1 rest] io1]|] eqn:El;
    [|discriminate].
  cbn [mbind option_bind] in E. injection E as <- <-.
  assert (in_err io1 = false /\ out_err io1 = false) as [Hi He].
  { unfold encode_status in Hs.
    destruct (in_err io1); [discriminate|].
    destruct (out_err io1); [discriminate|]. split; reflexivity. }
  assert (alike (fresh a) (fresh willing)) as Hal by (repeat split).
  destruct bad.
  { exfalso.
    destruct (encode_loop_read_error inp st0 (fresh willing)
                (steady_start junk) obliging_fresh eq_refl)
      as (stw & iow & sw & evs & Ew & _).
    destruct (encode_loop_alike true inp st0 (fresh a) (fresh willing) _ _ _
                Hal obliging_fresh Ew)
      as [(s & x & io' & E' & He') | (io' & E' & Hal')];
      rewrite El in E'; injection E' as -> -> ->.
    - congruence.
    - destruct Hal' as (_ & _ & Hi' & _). cbn in Hi'.
      rewrite orb_true_r in Hi'. congruence. }
  destruct (encode_loop_obliging inp st0 (fresh willing) None
              (steady_start junk) I obliging_fresh eq_refl)
    as (stw & iow & sw & evs & Ew & Hem & Hk & Hb & _ & G).
  destruct (encode_loop_alike false inp st0 (fresh a) (fresh willing) _ _ _
              Hal obliging_fresh Ew)
    as [(s & x & io' & E' & He') | (io' & E' & Hal')];
    rewrite El in E'; injection E' as -> -> ->; [congruence|].
  destruct Hal' as (Ho & _ & _ & _).
  assert (out io' = flat_map wire sw) as Hout.
  { rewrite Ho. destruct G as [_ Go _ _ _]. exact Go. }
  assert (emitted stw = sw) as Hsegs by exact Hem.
  assert (flat_map expand sw = inp) as Hexp by exact Hk.
  unfold encode_status. rewrite Hi, He. cbn [printed unread streams].
  rewrite Hsegs. repeat split; assumption.
Qed.

(** X9. Status 0 from [encode] can be trusted, whatever the output stream
    might refuse and however the input ends: the input ended without a
    read error, nothing of it is left unread, what was written is the wire
    form of the segments emitted, and decoding it gives the input back. *)
Theorem encode_success_faithful (junk : nat -> byte) (bad : bool)
    (a : nat -> bool) (inp : list byte) (segs : list segment) (r : result) :
  encode junk bad inp (fresh a) = Some (segs, r) ->
  status r = 0 ->
  bad = false /\ printed r = None /\ unread r = []
  /\ out (streams r) = flat_map wire segs
  /\ flat_map expand segs = inp
  /\ exists r',
       decode false (out (streams r)) (fresh willing) = Some r'
       /\ status r' = 0 /\ printed r' = None /\ unread r' = []
       /\ out (streams r') = inp.
Proof.
  intros E Hs.
  destruct (encode_zero junk bad a inp segs r E Hs)
    as (Hbad & Hp & Hu & Hout & Hexp & Hb).
  split; [exact Hbad|]. split; [exact Hp|]. split; [exact Hu|].
  split; [exact Hout|]. split; [exact Hexp|].
  rewrite Hout.
  destruct (decode_wire segs None) as (io2 & Ed & Hi2 & He2 & Hout2 & _).
  { eapply Forall_impl; [exact Hb | apply in_bounds_well_formed]. }
  cbn [terminator left_over] in Ed. rewrite app_nil_r in Ed.
  exists (Result 0 None [] io2). split.
  { unfold decode. rewrite Ed. cbn [mbind option_bind].
    unfold decode_status. rewrite Hi2, He2. reflexivity. }
  repeat split. cbn [streams]. rewrite Hout2. exact Hexp.
Qed.

Lemma encode_success_faithful_witness :
  exists segs r,
    encode zeros false [Byte.x41; Byte.x41; Byte.x42] (fresh (room 4))
    = Some (segs, r)
    /\ status r = 0
    /\ out (streams r) = flat_map wire segs
    /\ flat_map expand segs = [Byte.x41; Byte.x41; Byte.x42].
Proof.
  assert (exists segs r,
            encode zeros false [Byte.x41; Byte.x41; Byte.x42] (fresh (room 4))
            = Some (segs, r) /\ status r = 0) as (segs & r & E & Hs)
    by (eexists _, _; split; [vm_compute; reflexivity | reflexivity]).
  exists segs, r. split; [exact E|]. split; [exact Hs|].
  pose proof (encode_success_faithful zeros false (room 4)
                [Byte.x41; Byte.x41; Byte.x42] segs r E Hs)
    as (_ & _ & _ & Ho & He & _).
  split; [exact Ho | exact He].
Defined.

(** ** decode: what status 0 tells *)

(** An output error, once set, stays set for the rest of [decode]. *)
Lemma out_err_decode_run fuel ch : forall len io l io',
  out_err io = true -> decode_run fuel ch len io = Some (l, io') ->
  out_err io' = true.
Proof.
  induction fuel as [|fuel IH]; intros len io l io' He; [discriminate|].
  cbn [decode_run]. pose proof (out_err_fputc DecRun ch io He) as H1.
  destruct (fputc DecRun ch io) as [r io1]. cbn [snd] in H1.
  destruct (r =? EOF); [intros [= <- <-]; exact H1|].
  destruct (len - 1 =? 0); [intros [= <- <-]; exact H1|].
  apply IH. exact H1.
Qed.

Lemma out_err_decode_loop bad inp : forall len io l rest io',
  out_err io = true -> decode_loop bad inp len io = Some (l, rest, io') ->
  out_err io' = true.
Proof.
  induction inp as [|c inp IH]; intros len io l rest io' He.
  - intros [= <- <- <-]. exact He.
  - rewrite decode_loop_cons. cbv zeta.
    set (io0 := log (EvGetc (byte.unsigned c) false) io).
    assert (out_err io0 = true) as H0 by exact He.
    destruct (len =? 0).
    { destruct (byte.unsigned c =? 0); [intros [= <- <- <-]; exact H0|].
      apply IH. exact H0. }
    destruct (len <? 128).
    { destruct (decode_run (Z.to_nat len) (byte.unsigned c) len io0)
        as [[l1 io1]|] eqn:Er; [|discriminate].
      cbn [mbind option_bind]. apply IH.
      exact (out_err_decode_run _ _ _ _ _ _ H0 Er). }
    pose proof (out_err_fputc DecLiteral (byte.unsigned c) io0 H0) as H1.
    destruct (fputc DecLiteral (byte.unsigned c) io0) as [r io1].
    cbn [snd] in H1.
    destruct (r =? EOF); [intros [= <- <- <-]; exact H1|].
    apply IH. exact H1.
Qed.

(** A run written to two streams that agree so far, the second of which
    accepts all. *)
Lemma decode_run_alike fuel ch : forall len io iow l io',
  alike io iow -> obliging iow -> 1 <= len ->
  decode_run fuel ch len io = Some (l, io') ->
  out_err io' = true
  \/ l = 0 /\ exists iow',
       decode_run fuel ch len iow = Some (0, iow')
       /\ obliging iow' /\ alike io' iow'.
Proof.
  induction fuel as [|fuel IH]; intros len io iow l io' Hal Hob Hlen;
    [discriminate|].
  cbn [decode_run].
  destruct (fputc_alike DecRun ch io iow Hal Hob)
    as (ok & io1 & iow1 & -> & -> & Hob1 & H1).
  rewrite fputc_not_EOF. destruct ok.
  - rewrite fputc_not_EOF.
    destruct (Z.eqb_spec (len - 1) 0) as [E | E].
    + intros [= <- <-]. right. split; [exact E|]. rewrite E. eauto.
    + apply IH; [exact H1 | exact Hob1 | lia].
  - change (EOF =? EOF) with true. intros [= <- <-]. left. exact H1.
Qed.

Lemma decode_loop_alike bad inp : forall len io iow l rest io',
  alike io iow -> obliging iow -> 0 <= len < 0x100 ->
  decode_loop bad inp len io = Some (l, rest, io') ->
  out_err io' = true
  \/ exists iow',
       decode_loop bad inp len iow = Some (l, rest, iow')
       /\ obliging iow' /\ alike io' iow'.
Proof.
  induction inp as [|c inp IH]; intros len io iow l rest io' Hal Hob Hlen.
  - intros [= <- <- <-]. right. exists (fgetc_end bad iow).
    split; [reflexivity|].
    split; [apply obliging_fgetc_end, Hob | apply alike_fgetc_end, Hal].
  - rewrite !decode_loop_cons. cbv zeta.
    set (ev := EvGetc (byte.unsigned c) false).
    pose proof (alike_log ev io iow Hal) as Hal0.
    pose proof (obliging_log ev iow Hob) as Hob0.
    pose proof (byte_range c) as Hc.
    destruct (Z.eqb_spec len 0) as [E0 | E0].
    { destruct (byte.unsigned c =? 0).
      - intros [= <- <- <-]. right. eauto.
      - apply IH; [exact Hal0 | exact Hob0 | lia]. }
    destruct (Z.ltb_spec len 128) as [E8 | E8].
    { destruct (decode_run (Z.to_nat len) (byte.unsigned c) len (log ev io))
        as [[l1 io1]|] eqn:Er; [|discriminate].
      cbn [mbind option_bind]. intros El.
      destruct (decode_run_alike (Z.to_nat len) (byte.unsigned c) len
                  (log ev io) (log ev iow) l1 io1 Hal0 Hob0 ltac:(lia) Er)
        as [He | (-> & iow1 & -> & Hob1 & Hal1)].
      - left. exact (out_err_decode_loop _ _ _ _ _ _ _ He El).
      - cbn [mbind option_bind].
        exact (IH 0 io1 iow1 l rest io' Hal1 Hob1 ltac:(lia) El). }
    destruct (fputc_alike DecLiteral (byte.unsigned c) _ _ Hal0 Hob0)
      as (ok & io1 & iow1 & -> & -> & Hob1 & H1).
    rewrite fputc_not_EOF. destruct ok.
    + rewrite fputc_not_EOF.
      apply IH; [exact H1 | exact Hob1 | apply Z.mod_pos_bound; lia].
    + change (EOF =? EOF) with true. intros [= <- <- <-]. left. exact H1.
Qed.

(** A literal cut short by the end of the input leaves [len] short of 0;
    the bytes that came have been written. *)
Lemma decode_loop_short bad inp : forall len io,
  obliging io -> 0x80 <= len -> len + Z.of_nat (length inp) < 0x100 ->
  exists io1,
    obliging io1 /\ out io1 = out io ++ inp
    /\ decode_loop bad inp len io
       = Some (len + Z.of_nat (length inp), [], fgetc_end bad io1).
Proof.
  induction inp as [|c inp IH]; intros len io Hio Hlen Hsum.
  - exists io. split; [exact Hio|]. split; [rewrite app_nil_r; reflexivity|].
    cbn [decode_loop length]. rewrite Z.add_0_r. reflexivity.
  - rewrite decode_loop_cons. cbv zeta.
    destruct (Z.eqb_spec len 0); [lia|].
    destruct (Z.ltb_spec len 128); [lia|].
    destruct (fputc_obliging DecLiteral (byte.unsigned c)
                (log (EvGetc (byte.unsigned c) false) io)) as (io1 & -> & G1).
    { apply obliging_log, Hio. }
    rewrite byte.of_Z_unsigned in G1.
    rewrite fputc_not_EOF. cbn [length] in Hsum.
    rewrite Z.mod_small by lia.
    destruct (IH (len + 1) io1) as (io2 & Hio2 & Ho2 & ->); [|lia|lia|].
    { eapply obliging_grows; [apply obliging_log, Hio | exact G1]. }
    exists io2. split; [exact Hio2|]. split.
    + rewrite Ho2. destruct G1 as [_ Go _ _ _]. rewrite Go. cbn [log out].
      rewrite <- app_assoc. reflexivity.
    + cbn [length]. do 3 f_equal. lia.
Qed.

(** From a length byte that is not 0: a whole segment follows, or the input
    ends within the segment and [len] is left other than 0. *)
Lemma decode_segment_or_short bad c inp io :
  obliging io -> byte.unsigned c <> 0 ->
  (exists l io1,
     decode_loop bad (c :: inp) 0 io = Some (l, [], fgetc_end bad io1)
     /\ l <> 0 /\ obliging io1 /\ out io1 = out io ++ inp
     /\ exists s, well_formed s /\ cut_short s (c :: inp))
  \/ exists s inp' io1,
       well_formed s /\ c :: inp = wire s ++ inp'
       /\ (length inp' < length inp)%nat
       /\ obliging io1 /\ out io1 = out io ++ expand s
       /\ decode_loop bad (c :: inp) 0 io = decode_loop bad inp' 0 io1.
Proof.
  intros Hio Hc. pose proof (byte_range c) as Hr.
  set (n := byte.unsigned c) in *.
  assert (c = byte.of_Z n) as Ec by (symmetry; apply byte.of_Z_unsigned).
  assert (forall s inp', well_formed s -> c :: inp = wire s ++ inp' ->
          (length inp' < length inp)%nat ->
          exists s inp' io1,
            well_formed s /\ c :: inp = wire s ++ inp'
            /\ (length inp' < length inp)%nat
            /\ obliging io1 /\ out io1 = out io ++ expand s
            /\ decode_loop bad (c :: inp) 0 io = decode_loop bad inp' 0 io1)
    as Hseg.
  { intros s inp' Hs Hw Hl.
    destruct (decode_loop_segment bad s io Hs Hio) as (io1 & G & E).
    exists s, inp', io1. split; [exact Hs|]. split; [exact Hw|].
    split; [exact Hl|]. split; [exact (obliging_grows _ _ _ _ Hio G)|].
    split; [apply G|]. rewrite Hw. apply E. }
  destruct (Z.ltb_spec n 128) as [E8 | E8].
  - destruct inp as [|b inp].
    + left. exists n, (log (EvGetc n false) io).
      split.
      { rewrite decode_loop_cons. cbv zeta. fold n.
        destruct (Z.eqb_spec n 0); [contradiction|]. reflexivity. }
      split; [exact Hc|]. split; [apply obliging_log, Hio|].
      split; [cbn [log out]; rewrite app_nil_r; reflexivity|].
      exists (Run n Byte.x00). split; [cbn; lia|].
      split; [discriminate|]. exists [Byte.x00]. split; [discriminate|].
      cbn [wire app]. rewrite <- Ec. reflexivity.
    + right. apply (Hseg (Run n b) inp).
      * cbn. lia.
      * cbn [wire app]. rewrite <- Ec. reflexivity.
      * cbn [length]. lia.
  - destruct (Z.ltb_spec (Z.of_nat (length inp)) (0x100 - n)) as [Es | Es].
    + left. destruct (decode_loop_short bad inp n (log (EvGetc n false) io))
        as (io1 & Hio1 & Ho1 & E); [apply obliging_log, Hio | lia | lia |].
      exists (n + Z.of_nat (length inp)), io1.
      split.
      { rewrite decode_loop_cons. cbv zeta. fold n.
        destruct (Z.eqb_spec n 0); [contradiction|]. exact E. }
      split; [lia|]. split; [exact Hio1|]. split; [exact Ho1|].
      set (k := Z.to_nat (0x100 - n - Z.of_nat (length inp))).
      exists (Literal (0x100 - n) (inp ++ replicate k Byte.x00)).
      split.
      { cbn. split; [lia|]. rewrite length_app, length_replicate. lia. }
      split; [discriminate|]. exists (replicate k Byte.x00). split.
      { destruct k eqn:Ek; [lia | discriminate]. }
      cbn [wire]. replace (0x100 - (0x100 - n)) with n by lia.
      rewrite <- Ec. reflexivity.
    + right. set (k := Z.to_nat (0x100 - n)).
      apply (Hseg (Literal (0x100 - n) (take k inp)) (drop k inp)).
      * cbn. split; [lia|]. rewrite length_take. lia.
      * cbn [wire]. replace (0x100 - (0x100 - n)) with n by lia.
        rewrite <- Ec. cbn [app]. rewrite take_drop. reflexivity.
      * rewrite length_drop. lia.
Qed.

(** A run of the loop that ends with [len = 0] and no read error, on an
    output that accepts all, has read a sequence of well-formed segments
    up to the end of the input or up to a zero length byte. *)
Lemma decode_loop_parse bad (m : nat) : forall inp io rest io',
  (length inp <= m)%nat -> obliging io ->
  decode_loop bad inp 0 io = Some (0, rest, io') ->
  exists segs e,
    Forall well_formed segs
    /\ inp = flat_map wire segs ++ terminator e
    /\ rest = left_over e
    /\ out io' = out io ++ flat_map expand segs.
Proof.
  induction m as [|m IH]; intros inp io rest io' Hm Hio.
  - destruct inp; [|cbn in Hm; lia].
    intros [= <- <-]. exists [], None. cbn. rewrite app_nil_r. auto.
  - destruct inp as [|c inp].
    { intros [= <- <-]. exists [], None. cbn. rewrite app_nil_r. auto. }
    destruct (Z.eqb_spec (byte.unsigned c) 0) as [Ec | Ec].
    { rewrite decode_loop_cons. cbv zeta. rewrite Ec.
      intros [= <- <-]. exists [], (Some inp).
      split; [constructor|]. split.
      - cbn. f_equal. rewrite <- (byte.of_Z_unsigned c), Ec. reflexivity.
      - split; [reflexivity|]. cbn. rewrite app_nil_r. reflexivity. }
    destruct (decode_segment_or_short bad c inp io Hio Ec)
      as [(l & io1 & -> & Hl & _) | (s & inp' & io1 & Hs & Hw & Hlen & Hio1 & Ho & ->)].
    { intros [= E _ _]. contradiction. }
    intros E.
    destruct (IH inp' io1 rest io' ltac:(cbn in Hm; lia) Hio1 E)
      as (segs & e & Hsegs & Hi & Hr & Hout).
    exists (s :: segs), e. split; [constructor; assumption|].
    split; [cbn [flat_map]; rewrite <- app_assoc, <- Hi; exact Hw|].
    split; [exact Hr|].
    cbn [flat_map]. rewrite Hout, Ho, app_assoc. reflexivity.
Qed.

(** [decode] that returns 0, on any output: the run is the one an output
    that accepts all would have seen. *)
Lemma decode_zero (bad : bool) (a : nat -> bool) (inp : list byte)
    (r : result) :
  decode bad inp (fresh a) = Some r ->
  status r = 0 ->
  printed r = None
  /\ exists iow,
       decode_loop bad inp 0 (fresh willing) = Some (0, unread r, iow)
       /\ alike (streams r) iow
       /\ in_err iow = false /\ out_err iow = false.
Proof.
  intros E Hs. unfold decode in E.
  destruct (decode_loop bad inp 0 (fresh a)) as [[[l rest] io1]|] eqn:El;
    [|discriminate].
  cbn [mbind option_bind] in E. injection E as <-.
  unfold decode_status in *.
  destruct (in_err io1) eqn:Hi; [discriminate|].
  destruct (out_err io1) eqn:He; [discriminate|].
  destruct (Z.eqb_spec l 0) as [-> | Hl]; [|discriminate].
  cbn [negb printed unread streams]. split; [reflexivity|].
  assert (alike (fresh a) (fresh willing)) as Hal by (repeat split).
  destruct (decode_loop_alike bad inp 0 (fresh a) (fresh willing) 0 rest io1
              Hal obliging_fresh ltac:(lia) El)
    as [He' | (iow & Ew & _ & Hal')]; [congruence|].
  exists iow. split; [exact Ew|]. split; [exact Hal'|].
  destruct Hal' as (_ & He' & Hi' & _). split; congruence.
Qed.

(** X10. Status 0 from [decode] can be trusted, whatever the output stream
    might refuse and however the input ends: the input is the wire form of
    a sequence of well-formed segments followed by its end or by a zero
    length byte, the output is what those segments stand for, no call has
    failed, and what is left unread is what came after the zero byte. *)
Theorem decode_success_sound (bad : bool) (a : nat -> bool)
    (inp : list byte) (r : result) :
  decode bad inp (fresh a) = Some r ->
  status r = 0 ->
  printed r = None
  /\ has_failure (trace (streams r)) = false
  /\ exists segs e,
       Forall well_formed segs
       /\ inp = flat_map wire segs ++ terminator e
       /\ unread r = left_over e
       /\ out (streams r) = flat_map expand segs.
Proof.
  intros E Hs.
  destruct (decode_zero bad a inp r E Hs) as (Hp & iow & Ew & Hal & Hiw & Hew).
  split; [exact Hp|].
  destruct Hal as (Ho & _ & _ & Ht).
  split.
  { destruct (decode_loop_stops bad inp 0 (fresh willing))
      as (l & rest & iow' & evs & E1 & [Ht1 Hf] & _); [lia|].
    rewrite Ew in E1. injection E1 as <- <- <-.
    rewrite Ht, Ht1. cbn [fresh trace app].
    rewrite Hiw, Hew in Hf. cbn in Hf. symmetry. exact Hf. }
  destruct (decode_loop_parse bad (length inp) inp (fresh willing)
              (unread r) iow (le_n _) obliging_fresh Ew)
    as (segs & e & Hsegs & Hin & Hr & Hout).
  exists segs, e. split; [exact Hsegs|]. split; [exact Hin|].
  split; [exact Hr|]. rewrite Ho, Hout. reflexivity.
Qed.

Lemma decode_success_sound_witness :
  exists r,
    decode true [Byte.x02; Byte.x41; Byte.x00; Byte.x07] (fresh (room 2))
    = Some r
    /\ status r = 0
    /\ exists segs e,
         Forall well_formed segs
         /\ [Byte.x02; Byte.x41; Byte.x00; Byte.x07]
            = flat_map wire segs ++ terminator e
         /\ unread r = left_over e
         /\ out (streams r) = flat_map expand segs.
Proof.
  eexists. split; [vm_compute; reflexivity|].
  split; [reflexivity|].
  pose proof (decode_success_sound true (room 2)
                [Byte.x02; Byte.x41; Byte.x00; Byte.x07] _ eq_refl eq_refl)
    as (_ & _ & H).
  exact H.
Defined.

(** ** main: the name of the output file *)

Lemma string_length_append (s t : string) :
  String.length (String.append s t) = (String.length s + String.length t)%nat.
Proof. induction s as [|c s IH]; simpl; [reflexivity | rewrite IH; reflexivity]. Qed.

Lemma substring_all (s : string) : String.substring 0 (String.length s) s = s.
Proof. induction s as [|c s IH]; simpl; [reflexivity | rewrite IH; reflexivity]. Qed.

Lemma substring_append_l (s t : string) :
  String.substring 0 (String.length s) (String.append s t) = s.
Proof.
  induction s as [|c s IH]; simpl; [destruct t; reflexivity | rewrite IH; reflexivity].
Qed.

Lemma substring_append_r (s t : string) :
  String.substring (String.length s) (String.length t) (String.append s t) = t.
Proof. induction s as [|c s IH]; simpl; [apply substring_all | exact IH]. Qed.

Lemma substring_split (s : string) : forall n : nat,
  (n <= String.length s)%nat ->
  String.append (String.substring 0 n s)
    (String.substring n (String.length s - n) s) = s.
Proof.
  induction s as [|c s IH]; intros n Hn.
  - destruct n; reflexivity.
  - destruct n as [|n]; simpl.
    + rewrite substring_all. reflexivity.
    + change (String c (String.append (String.substring 0 n s)
                         (String.substring n (String.length s - n) s))
              = String c s).
      rewrite IH by (simpl in Hn; lia). reflexivity.
Qed.

Lemma length_substring_0 (s : string) : forall n : nat,
  (n <= String.length s)%nat -> String.length (String.substring 0 n s) = n.
Proof.
  induction s as [|c s IH]; intros n Hn.
  - destruct n; [reflexivity | cbn in Hn; lia].
  - destruct n as [|n]; [reflexivity|]. cbn. f_equal. apply IH. cbn in Hn. lia.
Qed.

(** X11. A file compressed and then decompressed gets its name back: the name
    [main] makes when it encodes a file with a name that is not empty
    passes the suffix test of the decoding branch, and the name made from
    it there is the first name. *)
Theorem output_name_encode_decode (fnin : string) :
  fnin <> ""%string ->
  has_rle_suffix (output_name OpEncode fnin) = true
  /\ output_name OpDecode (output_name OpEncode fnin) = fnin.
Proof.
  intros Hne. unfold has_rle_suffix, output_name.
  rewrite string_length_append. change (String.length ".rle") with 4%nat.
  replace (String.length fnin + 4 - 4)%nat with (String.length fnin) by lia.
  rewrite substring_append_l. split; [|reflexivity].
  apply andb_true_intro. split.
  - apply Nat.ltb_lt. destruct fnin; [contradiction | cbn; lia].
  - change 4%nat with (String.length ".rle") at 1.
    rewrite substring_append_r. reflexivity.
Qed.

Lemma output_name_encode_decode_witness :
  "a"%string <> ""%string
  /\ has_rle_suffix (output_name OpEncode "a") = true
  /\ output_name OpDecode (output_name OpEncode "a") = "a"%string.
Proof.
  assert ("a"%string <> ""%string) as H by discriminate.
  split; [exact H | exact (output_name_encode_decode "a" H)].
Defined.

(** X12. A file decompressed and then compressed gets its name back: for a
    name that passes the suffix test of the decoding branch, the name made
    there is not empty, is shorter by four characters, and adding ".rle"
    to it as the encoding branch does gives the first name. *)
Theorem output_name_decode_encode (fnin : string) :
  has_rle_suffix fnin = true ->
  output_name OpDecode fnin <> ""%string
  /\ String.length (output_name OpDecode fnin) = (String.length fnin - 4)%nat
  /\ output_name OpEncode (output_name OpDecode fnin) = fnin.
Proof.
  unfold has_rle_suffix, output_name. intros H.
  apply andb_prop in H. destruct H as [Hl Hs].
  apply Nat.ltb_lt in Hl. apply String.eqb_eq in Hs.
  assert (String.length (String.substring 0 (String.length fnin - 4) fnin)
          = (String.length fnin - 4)%nat) as Hlen
    by (apply length_substring_0; lia).
  split.
  { intros E. rewrite E in Hlen. cbn in Hlen. lia. }
  split; [exact Hlen|].
  pose proof (substring_split fnin (String.length fnin - 4) ltac:(lia)) as Hsp.
  replace (String.length fnin - (String.length fnin - 4))%nat with 4%nat
    in Hsp by lia.
  rewrite Hs in Hsp. exact Hsp.
Qed.

Lemma output_name_decode_encode_witness :
  has_rle_suffix "a.rle" = true
  /\ output_name OpDecode "a.rle" <> ""%string
  /\ String.length (output_name OpDecode "a.rle") = (String.length "a.rle" - 4)%nat
  /\ output_name OpEncode (output_name OpDecode "a.rle") = "a.rle"%string.
Proof.
  split; [reflexivity | exact (output_name_decode_encode "a.rle" eq_refl)].
Defined.

(** ** main: the options *)

Lemma given_nil (l : letter) : bool_decide (l ∈ @nil letter) = false.
Proof. apply bool_decide_eq_false_2, not_elem_of_nil. Qed.

Lemma given_cons (l x : letter) (ls : list letter) :
  bool_decide (l ∈ x :: ls) = bool_decide (l = x) || bool_decide (l ∈ ls).
Proof.
  destruct (decide (l = x)) as [-> | Hne].
  - rewrite (bool_decide_eq_true_2 (x ∈ x :: ls)) by apply list_elem_of_here.
    rewrite (bool_decide_eq_true_2 (x = x)) by reflexivity. reflexivity.
  - rewrite (bool_decide_eq_false_2 (l = x)) by exact Hne. cbn [orb].
    apply bool_decide_ext. rewrite elem_of_cons. tauto.
Qed.

Lemma getopts_inr (ls : list letter) : forall f0 f,
  getopts ls f0 = inr f
  <-> ((Lh ∉ ls) /\ (LV ∉ ls) /\ (Lunknown ∉ ls)) /\ f = flags_of ls f0.
Proof.
  induction ls as [|l ls IH]; intros f0 f.
  - cbn [getopts]. unfold flags_of. rewrite !given_nil, !orb_false_r.
    destruct f0 as [c o fo k]. cbn.
    split.
    + intros [= <-]. repeat split; apply not_elem_of_nil.
    + intros [_ ->]. reflexivity.
  - unfold flags_of. rewrite !given_cons, !not_elem_of_cons.
    destruct l; cbn [getopts];
      try (split; [discriminate |
                   intros [((H1 & _) & (H2 & _) & (H3 & _)) _]; exfalso;
                   first [exact (H1 eq_refl) | exact (H2 eq_refl)
                         | exact (H3 eq_refl)]]);
      rewrite (IH _ f); unfold flags_of;
      repeat match goal with
             | |- context [bool_decide (?a = ?b)] =>
                 let v := eval vm_compute in (bool_decide (a = b)) in
                 change (bool_decide (a = b)) with v
             end;
      cbn [to_stdout op force keep orb]; rewrite ?orb_true_r;
      destruct (bool_decide (Ld ∈ ls));
      (split; [intros [(H1 & H2 & H3) ->]; split;
                 [repeat split; first [discriminate | assumption]
                 | reflexivity]
              | intros [((_ & H1) & (_ & H2) & (_ & H3)) ->]; split;
                 [repeat split; assumption | reflexivity]]).
Qed.

(** X13. The flags the option loop sets depend only on which letters are
    given, not on their order or on how often each comes. *)
Theorem getopts_same_letters (ls ls' : list letter) (f0 f : flags) :
  (forall l, l ∈ ls <-> l ∈ ls') ->
  getopts ls f0 = inr f ->
  getopts ls' f0 = inr f.
Proof.
  intros Hsame H. apply getopts_inr in H. destruct H as [(Hh & HV & Hu) ->].
  apply getopts_inr. split.
  - rewrite <- !Hsame. auto.
  - unfold flags_of.
    rewrite (bool_decide_ext _ _ (Hsame Lc)), (bool_decide_ext _ _ (Hsame Ld)),
      (bool_decide_ext _ _ (Hsame Lf)), (bool_decide_ext _ _ (Hsame Lk)).
    reflexivity.
Qed.

Lemma getopts_same_letters_witness :
  (forall l, l ∈ [Lk; Ld; Lk; Lf] <-> l ∈ [Lf; Lk; Ld])
  /\ getopts [Lf; Lk; Ld] no_flags = inr (Flags false OpDecode true true).
Proof.
  assert (forall l, l ∈ [Lk; Ld; Lk; Lf] <-> l ∈ [Lf; Lk; Ld]) as H.
  { intros l. rewrite !elem_of_cons, !elem_of_nil. tauto. }
  split; [exact H|].
  exact (getopts_same_letters [Lk; Ld; Lk; Lf] [Lf; Lk; Ld] no_flags _ H eq_refl).
Defined.

(** ** main: when the input file is removed *)

(** What it takes for [main] to reach the call of the codec. *)
Lemma main_setup_ready ls file e o keeps :
  main_setup ls file e = Ready o keeps
  <-> exists f,
        getopts ls no_flags = inr f
        /\ o = op f
        /\ keeps = keep f || String.eqb (default "-"%string file) "-"
        /\ (String.eqb (default "-"%string file) "-" = true
            \/ fopen_in e = true)
        /\ (to_stdout f = true
            \/ String.eqb (default "-"%string file) "-" = true
            \/ output_opens e f (default "-"%string file) = true)
        /\ (op f = OpDecode \/ tty_out e = false \/ force f = true).
Proof.
  unfold main_setup, no_flags.
  destruct (getopts ls (Flags false OpEncode false false)) as [code | f].
  { split; [discriminate | intros (f & [=] & _)]. }
  assert (match file with Some s => s | None => "-"%string end
          = default "-"%string file) as -> by (destruct file; reflexivity).
  cbv zeta.
  set (fnin := default "-"%string file).
  split.
  - destruct (String.eqb fnin "-") eqn:Ed, (fopen_in e) eqn:Eopen,
      (to_stdout f) eqn:Ec, (output_opens e f fnin) eqn:Eout,
      (op f) eqn:Eo, (tty_out e) eqn:Et, (force f) eqn:Ef;
      cbn; try discriminate;
      intros [= <- <-]; exists f;
      rewrite ?Eopen, ?Ec, ?Eout, ?Eo, ?Et, ?Ef; auto 10.
  - intros (f' & [= <-] & -> & -> & H1 & H2 & H3).
    destruct (String.eqb fnin "-") eqn:Ed, (fopen_in e) eqn:Eopen,
      (to_stdout f) eqn:Ec, (output_opens e f fnin) eqn:Eout,
      (op f) eqn:Eo, (tty_out e) eqn:Et, (force f) eqn:Ef;
      cbn; try reflexivity; exfalso;
      destruct H1 as [H1 | H1], H2 as [H2 | [H2 | H2]], H3 as [H3 | [H3 | H3]];
      congruence.
Qed.

(** X14. [main] calls [unlink] on its input only when -k is not among the
    options, the input is a named file other than "-", and the codec has
    returned 0.  Encoding, the bytes the output has taken are then the wire
    form of segments that stand for the whole input.  Decoding, the input
    is then a sequence of well-formed segments up to its end or up to a
    zero length byte, and the bytes the output has taken are what those
    segments stand for; what follows a zero length byte has been neither
    read nor decoded, and goes with the file. *)
Theorem main_unlinks_only_after_success (ls : list letter)
    (file : option string) (e : env) :
  input_unlinked ls file e = Some true ->
  (Lk ∉ ls)
  /\ (exists name, file = Some name /\ name <> "-"%string)
  /\ if bool_decide (Ld ∈ ls) then
       exists r segs t,
         decode (in_bad e) (in_bytes e) (fresh (out_answers e)) = Some r
         /\ status r = 0
         /\ Forall well_formed segs
         /\ in_bytes e = flat_map wire segs ++ terminator t
         /\ unread r = left_over t
         /\ out (streams r) = flat_map expand segs
     else
       exists segs r,
         encode (buf_junk e) (in_bad e) (in_bytes e) (fresh (out_answers e))
         = Some (segs, r)
         /\ status r = 0
         /\ in_bad e = false /\ unread r = []
         /\ out (streams r) = flat_map wire segs
         /\ flat_map expand segs = in_bytes e.
Proof.
  intros H. unfold input_unlinked in H.
  destruct (main_setup ls file e) as [code | | o keeps] eqn:Es;
    try discriminate.
  apply main_setup_ready in Es.
  destruct Es as (f & Eg & -> & -> & _).
  destruct (run_op (op f) e) as [ret|] eqn:Er; [|discriminate].
  cbn [mbind option_bind] in H. injection H as H. unfold unlinks in H.
  apply andb_prop in H. destruct H as [Hret Hk].
  apply Z.eqb_eq in Hret. subst ret.
  apply negb_true_iff in Hk. apply orb_false_elim in Hk.
  destruct Hk as [Hkeep Hdash].
  apply getopts_inr in Eg. destruct Eg as [_ ->].
  unfold flags_of, no_flags in Hkeep, Er. cbn [keep op orb] in Hkeep, Er.
  split; [exact (proj1 (bool_decide_eq_false _) Hkeep)|].
  split.
  { destruct file as [name|]; [|discriminate Hdash].
    exists name. split; [reflexivity|]. intros ->. discriminate Hdash. }
  destruct (bool_decide (Ld ∈ ls)); unfold run_op in Er.
  - destruct (decode (in_bad e) (in_bytes e) (fresh (out_answers e)))
      as [r|] eqn:Ed; [|discriminate].
    cbn [mbind option_bind] in Er. injection Er as Hs.
    destruct (decode_zero _ _ _ _ Ed Hs) as (_ & iow & Ew & (Ho & _) & _).
    destruct (decode_loop_parse (in_bad e) (length (in_bytes e)) (in_bytes e)
                (fresh willing) (unread r) iow (le_n _) obliging_fresh Ew)
      as (segs & t & Hsegs & Hin & Hu & Hout).
    exists r, segs, t. split; [reflexivity|]. split; [exact Hs|].
    split; [exact Hsegs|]. split; [exact Hin|]. split; [exact Hu|].
    rewrite Ho, Hout. reflexivity.
  - destruct (encode (buf_junk e) (in_bad e) (in_bytes e)
                (fresh (out_answers e))) as [[segs r]|] eqn:Ee; [|discriminate].
    cbn [mbind option_bind] in Er. injection Er as Hs.
    destruct (encode_zero _ _ _ _ _ _ Ee Hs) as (Hb & _ & Hu & Hout & Hexp & _).
    exists segs, r. repeat split; assumption.
Qed.

(** Decoding "notes.rle" that holds 00 41 42: the zero length byte ends
    the decoding with status 0, nothing is written, 41 42 is never read,
    and the file is removed. *)
Lemma main_unlinks_only_after_success_witness :
  let e := Env true true None true true false None
             [Byte.x00; Byte.x41; Byte.x42] false willing zeros in
  input_unlinked [Ld] (Some "notes.rle") e = Some true
  /\ (Lk ∉ [Ld])
  /\ (exists name, Some "notes.rle"%string = Some name /\ name <> "-"%string)
  /\ exists r segs t,
       decode false [Byte.x00; Byte.x41; Byte.x42] (fresh willing) = Some r
       /\ status r = 0
       /\ Forall well_formed segs
       /\ [Byte.x00; Byte.x41; Byte.x42] = flat_map wire segs ++ terminator t
       /\ unread r = left_over t
       /\ out (streams r) = flat_map expand segs.
Proof.
  intros e.
  assert (input_unlinked [Ld] (Some "notes.rle") e = Some true) as H
    by (vm_compute; reflexivity).
  split; [exact H|].
  pose proof (main_unlinks_only_after_success [Ld] (Some "notes.rle") e H)
    as (Hk & Hn & Hd).
  split; [exact Hk|]. split; [exact Hn|]. exact Hd.
Defined.

(** The same input on its own: status 0, nothing written, two bytes
    unread. *)
Example decode_zero_first :
  exists r,
    decode false [Byte.x00; Byte.x41; Byte.x42] (fresh willing) = Some r
    /\ status r = 0 /\ out (streams r) = []
    /\ unread r = [Byte.x41; Byte.x42].
Proof. eexists. split; [vm_compute; reflexivity|]. repeat split. Qed.

(** X15. The option -c does not keep the input file: with -c and without
    -k, when a file other than "-" is named and opens, the output is
    not a terminal refused for encoding, and the codec returns 0, [main]
    calls [unlink] on the input file. *)
Theorem main_c_unlinks_input (ls : list letter) (name : string) (e : env) :
  Lc ∈ ls -> Lk ∉ ls -> Lh ∉ ls -> LV ∉ ls -> Lunknown ∉ ls ->
  name <> "-"%string ->
  fopen_in e = true ->
  (Ld ∈ ls \/ tty_out e = false \/ Lf ∈ ls) ->
  run_op (if bool_decide (Ld ∈ ls) then OpDecode else OpEncode) e = Some 0 ->
  input_unlinked ls (Some name) e = Some true.
Proof.
  intros Hc Hk Hh HV Hu Hname Hopen Htty Hrun.
  assert (String.eqb name "-" = false) as Hdash
    by (apply String.eqb_neq; exact Hname).
  assert (main_setup ls (Some name) e
          = Ready (if bool_decide (Ld ∈ ls) then OpDecode else OpEncode) false)
    as Es.
  { apply main_setup_ready. exists (flags_of ls no_flags).
    split; [apply getopts_inr; auto|].
    unfold flags_of, no_flags. cbn [to_stdout op force keep orb].
    change (default "-"%string (Some name)) with name.
    split; [reflexivity|].
    split; [rewrite Hdash, (bool_decide_eq_false_2 _ Hk); reflexivity|].
    split; [right; exact Hopen|].
    split; [left; apply bool_decide_eq_true_2; exact Hc|].
    destruct Htty as [H | [H | H]].
    - left. rewrite (bool_decide_eq_true_2 _ H). reflexivity.
    - right. left. exact H.
    - right. right. apply bool_decide_eq_true_2. exact H. }
  unfold input_unlinked. rewrite Es, Hrun. reflexivity.
Qed.

Lemma main_c_unlinks_input_witness :
  let e := Env true true None true true false None
             [Byte.x41; Byte.x41; Byte.x42] false willing zeros in
  Lc ∈ [Lc] /\ input_unlinked [Lc] (Some "notes.txt") e = Some true.
Proof.
  intros e.
  assert (Lc ∈ [Lc]) as Hc by apply list_elem_of_here.
  split; [exact Hc|].
  apply (main_c_unlinks_input [Lc] "notes.txt" e Hc).
  - rewrite not_elem_of_cons. split; [discriminate | apply not_elem_of_nil].
  - rewrite not_elem_of_cons. split; [discriminate | apply not_elem_of_nil].
  - rewrite not_elem_of_cons. split; [discriminate | apply not_elem_of_nil].
  - rewrite not_elem_of_cons. split; [discriminate | apply not_elem_of_nil].
  - discriminate.
  - reflexivity.
  - right. left. reflexivity.
  - vm_compute. reflexivity.
Defined.

(** ** decode and a stream that ends within a segment *)

(** The beginning of a segment, read from a segment boundary: the end of
    the input comes with [len] other than 0; of a literal, the bytes that
    did come have been written. *)
Lemma decode_loop_cut bad s c io :
  well_formed s -> cut_short s c -> obliging io ->
  exists l io1,
    decode_loop bad c 0 io = Some (l, [], fgetc_end bad io1)
    /\ l <> 0 /\ obliging io1 /\ out io1 = out io ++ tail c.
Proof.
  intros Hs (Hne & missing & Hm & Hw) Hio.
  destruct c as [|c0 inp]; [contradiction|]. cbn [tail].
  destruct s as [n b | n bs]; cbn [wire well_formed] in Hs, Hw.
  - injection Hw as <- Hw.
    destruct inp as [|x inp].
    2:{ injection Hw as _ Hw. destruct inp; [|discriminate].
        cbn in Hw. subst missing. contradiction. }
    exists n, (log (EvGetc n false) io).
    split.
    { rewrite decode_loop_cons. cbv zeta. rewrite byte_wrap_small by lia.
      destruct (Z.eqb_spec n 0); [lia|]. reflexivity. }
    split; [lia|]. split; [apply obliging_log, Hio|].
    cbn [log out]. rewrite app_nil_r. reflexivity.
  - destruct Hs as [Hn Hl]. injection Hw as <- Hw. subst bs.
    rewrite length_app in Hl.
    assert (0 < length missing)%nat by (destruct missing; [contradiction | cbn; lia]).
    destruct (decode_loop_short bad inp (0x100 - n)
                (log (EvGetc (0x100 - n) false) io))
      as (io1 & Hio1 & Ho1 & E); [apply obliging_log, Hio | lia | lia |].
    exists (0x100 - n + Z.of_nat (length inp)), io1.
    split.
    { rewrite decode_loop_cons. cbv zeta. rewrite byte_wrap_small by lia.
      destruct (Z.eqb_spec (0x100 - n) 0); [lia|]. exact E. }
    split; [lia|]. split; [exact Hio1 | exact Ho1].
Qed.

(** A run of the loop from a segment boundary that ends with [len] other
    than 0, on an output that accepts all, has read whole segments and
    then the beginning of one more. *)
Lemma decode_loop_parse_cut bad (m : nat) : forall inp io l rest io',
  (length inp <= m)%nat -> obliging io ->
  decode_loop bad inp 0 io = Some (l, rest, io') -> l <> 0 ->
  truncated inp.
Proof.
  induction m as [|m IH]; intros inp io l rest io' Hm Hio.
  - destruct inp; [|cbn in Hm; lia].
    intros [= <- <- <-] Hl. contradiction.
  - destruct inp as [|c inp].
    { intros [= <- <- <-] Hl. contradiction. }
    destruct (Z.eqb_spec (byte.unsigned c) 0) as [Ec | Ec].
    { rewrite decode_loop_cons. cbv zeta. rewrite Ec.
      intros [= <- <- <-] Hl. contradiction. }
    destruct (decode_segment_or_short bad c inp io Hio Ec)
      as [(l1 & io1 & _ & _ & _ & _ & s & Hs & Hcut)
         | (s & inp' & io1 & Hs & Hw & Hlen & Hio1 & _ & ->)].
    { intros _ _. exists [], s, (c :: inp).
      split; [constructor|]. split; [exact Hs|]. split; [exact Hcut|].
      reflexivity. }
    intros E Hl.
    destruct (IH inp' io1 l rest io' ltac:(cbn in Hm; lia) Hio1 E Hl)
      as (segs & s' & c' & Hsegs & Hs' & Hcut & Hi).
    exists (s :: segs), s', c'.
    split; [constructor; assumption|]. split; [exact Hs'|].
    split; [exact Hcut|].
    cbn [flat_map]. rewrite <- app_assoc, <- Hi. exact Hw.
Qed.

(** C5. With an input that ends in end-of-file and an output that takes
    every byte, [decode] prints "Unexpected end of stream." and returns
    [-EIO] exactly when the input ends within a segment, that is when it
    is a sequence of whole segments followed by the beginning of one more
    (its length byte alone, or with fewer data bytes than it calls for);
    the whole segments, and the bytes of the literal cut short that did
    come, have then been written.  It returns 0 exactly when the input is
    whole segments up to its end or up to a zero length byte; the end of
    the input at a segment boundary gives 0 with nothing printed. *)
Theorem decode_truncation (inp : list byte) :
  exists r,
    decode false inp (fresh willing) = Some r
    /\ (printed r = Some UnexpectedEnd <-> truncated inp)
    /\ (status r = - EIO <-> truncated inp)
    /\ (status r = 0 <-> whole inp)
    /\ (forall segs s c,
          Forall well_formed segs -> well_formed s -> cut_short s c ->
          inp = flat_map wire segs ++ c ->
          unread r = []
          /\ out (streams r) = flat_map expand segs ++ tail c
          /\ last (trace (streams r)) = Some (EvGetc EOF false))
    /\ (forall segs,
          Forall well_formed segs -> inp = flat_map wire segs ->
          status r = 0 /\ printed r = None /\ unread r = []
          /\ out (streams r) = flat_map expand segs
          /\ last (trace (streams r)) = Some (EvGetc EOF false)).
Proof.
  destruct (decode_loop_obliging_end inp 0 (fresh willing))
    as (len & rest & io' & evs & E & Ht & He & Hi & Hlast);
    [lia | apply obliging_fresh | reflexivity |].
  cbn [trace fresh app] in Ht.
  assert (forall segs s c,
            Forall well_formed segs -> well_formed s -> cut_short s c ->
            inp = flat_map wire segs ++ c ->
            len <> 0 /\ rest = []
            /\ out io' = flat_map expand segs ++ tail c) as Hcut.
  { intros segs s c Hsegs Hs Hc ->.
    destruct (decode_loop_segments false segs (fresh willing) Hsegs
                obliging_fresh) as (io1 & G1 & E1).
    destruct (decode_loop_cut false s c io1 Hs Hc
                (obliging_grows _ _ _ _ obliging_fresh G1))
      as (l & io2 & E2 & Hl & _ & Ho).
    rewrite E1, E2 in E. injection E as <- <- <-.
    split; [exact Hl|]. split; [reflexivity|].
    cbn [fgetc_end log out]. rewrite Ho.
    destruct G1 as [_ Go _ _ _]. rewrite Go. reflexivity. }
  assert (forall segs e,
            Forall well_formed segs ->
            inp = flat_map wire segs ++ terminator e ->
            len = 0 /\ rest = left_over e
            /\ out io' = flat_map expand segs
            /\ last (trace io') = Some (last_read e)) as Hwhole.
  { intros segs e Hsegs ->.
    destruct (decode_wire segs e Hsegs) as (io1 & E1 & _ & _ & Ho & Htr).
    rewrite E1 in E. injection E as <- <- <-.
    split; [reflexivity|]. split; [reflexivity|]. split; [exact Ho|].
    rewrite Htr. apply last_snoc. }
  assert (len <> 0 -> truncated inp) as Hback.
  { intros Hl.
    exact (decode_loop_parse_cut false (length inp) inp (fresh willing)
             len rest io' (le_n _) obliging_fresh E Hl). }
  assert (truncated inp -> len <> 0) as Hforth.
  { intros (segs & s & c & Hsegs & Hs & Hc & Hin).
    exact (proj1 (Hcut segs s c Hsegs Hs Hc Hin)). }
  assert (len = 0 -> whole inp) as Hzero.
  { intros ->.
    destruct (decode_loop_parse false (length inp) inp (fresh willing)
                rest io' (le_n _) obliging_fresh E)
      as (segs & e & Hsegs & Hin & _).
    exists segs, e. split; assumption. }
  exists (decode_status len rest io').
  split; [unfold decode; rewrite E; reflexivity|].
  unfold decode_status. rewrite Hi, He.
  destruct (Z.eqb_spec len 0) as [E0 | E0];
    cbn [negb printed status unread streams].
  - split; [split; [discriminate | intros H; apply Hforth in H; contradiction]|].
    split; [split; [unfold EIO; lia
                   | intros H; apply Hforth in H; contradiction]|].
    split; [split; [intros _; exact (Hzero E0) | reflexivity]|].
    split.
    + intros segs s c Hsegs Hs Hc Hin.
      destruct (Hcut segs s c Hsegs Hs Hc Hin) as (Hl & _). contradiction.
    + intros segs Hsegs Hin.
      destruct (Hwhole segs None Hsegs) as (_ & Hr & Ho & Hl);
        [cbn [terminator]; rewrite app_nil_r; exact Hin|].
      repeat split; assumption.
  - split; [split; [intros _; exact (Hback E0) | reflexivity]|].
    split; [split; [intros _; exact (Hback E0) | reflexivity]|].
    split.
    { split; [unfold EIO; lia|].
      intros (segs & e & Hsegs & Hin).
      destruct (Hwhole segs e Hsegs Hin) as (Hl & _). contradiction. }
    split.
    + intros segs s c Hsegs Hs Hc Hin.
      destruct (Hcut segs s c Hsegs Hs Hc Hin) as (_ & Hr & Ho).
      split; [exact Hr|]. split; [exact Ho|].
      rewrite Ht. destruct Hlast as [H | [H _]]; [exact H | contradiction].
    + intros segs Hsegs Hin.
      destruct (Hwhole segs None Hsegs) as (Hl & _);
        [cbn [terminator]; rewrite app_nil_r; exact Hin|].
      contradiction.
Qed.

(** The literal FE 41 ..., which calls for two bytes, cut after the first:
    'A' is written and the truncation is reported. *)
Lemma decode_truncation_witness :
  truncated [Byte.xfe; Byte.x41]
  /\ exists r,
       decode false [Byte.xfe; Byte.x41] (fresh willing) = Some r
       /\ status r = - EIO /\ printed r = Some UnexpectedEnd
       /\ unread r = [] /\ out (streams r) = [Byte.x41].
Proof.
  assert (well_formed (Literal 2 [Byte.x41; Byte.x00])) as Hs
    by (cbn; split; [lia | reflexivity]).
  assert (cut_short (Literal 2 [Byte.x41; Byte.x00]) [Byte.xfe; Byte.x41])
    as Hc.
  { split; [discriminate|]. exists [Byte.x00]. split; [discriminate|].
    reflexivity. }
  assert (truncated [Byte.xfe; Byte.x41]) as Ht.
  { exists [], (Literal 2 [Byte.x41; Byte.x00]), [Byte.xfe; Byte.x41].
    split; [constructor|]. split; [exact Hs|]. split; [exact Hc|].
    reflexivity. }
  split; [exact Ht|].
  destruct (decode_truncation [Byte.xfe; Byte.x41])
    as (r & E & Hp & Hst & _ & Hcut & _).
  exists r. split; [exact E|].
  split; [exact (proj2 Hst Ht)|]. split; [exact (proj2 Hp Ht)|].
  destruct (Hcut [] _ _ (List.Forall_nil _) Hs Hc eq_refl) as (Hr & Ho & _).
  split; [exact Hr | exact Ho].
Defined.
